(** * CineFlow: playlist parser, catalog builder and stream proxy

    A shallow embedding of the TypeScript/JavaScript sources of CineFlow
    (utils/m3u.ts, App.tsx, server.js) and the properties of its
    specification.

    Conventions of the embedding.
    - A JavaScript string is a [string]: a sequence of code units, here the
      code units below 256 (Latin-1).  Character classes, [trim] and
      [toLowerCase] are the ECMAScript ones restricted to that range.
    - A JavaScript number is a double.  The numbers of this program are
      integers, and a double that is an integer is modelled by that integer
      in [Z]; [parseInt] rounds to the nearest double, and its [Infinity] is
      modelled by [Js.infinity].  An optional field ([season?: number]) is an
      [option].
    - A JavaScript object or [Map] whose key order is observable is an
      association list in insertion order.
    - Mutable locals of a loop are threaded explicitly through a fold. *)

From Stdlib Require Import String Ascii List ZArith NArith Lia Bool Arith.
From Stdlib Require Import Permutation Sorted QArith DecimalString DecimalNat.
Import ListNotations.

Close Scope Q_scope.
Local Open Scope list_scope.
Local Open Scope string_scope.

(* ================================================================== *)
(** * JavaScript strings *)
(* ================================================================== *)

Module Js.

Definition code (c : ascii) : N := N_of_ascii c.

Definition in_range (lo hi : N) (c : ascii) : bool :=
  (lo <=? code c)%N && (code c <=? hi)%N.

(** [\d] *)
Definition is_digit (c : ascii) : bool := in_range 48 57 c.

(** [[a-zA-Z0-9]] *)
Definition is_alnum (c : ascii) : bool :=
  in_range 97 122 c || in_range 65 90 c || in_range 48 57 c.

(** ECMAScript WhiteSpace and LineTerminator code points below 256:
    TAB, LF, VT, FF, CR, SPACE and NBSP.  This is the class [\s] and the set
    that [String.prototype.trim] strips. *)
Definition is_space (c : ascii) : bool :=
  in_range 9 13 c || (code c =? 32)%N || (code c =? 160)%N.

(** LineTerminator code points below 256: LF and CR. *)
Definition is_line_terminator (c : ascii) : bool :=
  (code c =? 10)%N || (code c =? 13)%N.

(** [.] without the [s] flag *)
Definition is_dot (c : ascii) : bool := negb (is_line_terminator c).

Definition isEmpty (s : string) : bool :=
  match s with EmptyString => true | String _ _ => false end.

(** Truthiness of a string: only the empty string is falsy. *)
Definition truthy (s : string) : bool := negb (isEmpty s).

(** [a || b] on strings. *)
Definition orElse (a b : string) : string := if truthy a then a else b.

Fixpoint trimStart (s : string) : string :=
  match s with
  | EmptyString => EmptyString
  | String c s' => if is_space c then trimStart s' else s
  end.

Fixpoint trimEnd (s : string) : string :=
  match s with
  | EmptyString => EmptyString
  | String c s' =>
      let t := trimEnd s' in
      if is_space c && isEmpty t then EmptyString else String c t
  end.

(** [String.prototype.trim] *)
Definition trim (s : string) : string := trimEnd (trimStart s).

(** [String.prototype.split] with a one-character separator: never empty,
    the empty string splits into one empty part. *)
Fixpoint split (sep : ascii) (s : string) : list string :=
  match s with
  | EmptyString => [EmptyString]
  | String c s' =>
      if Ascii.eqb c sep then EmptyString :: split sep s'
      else match split sep s' with
           | h :: t => String c h :: t
           | [] => [String c EmptyString]
           end
  end.

(** [String.prototype.startsWith] *)
Fixpoint startsWith (s p : string) : bool :=
  match p with
  | EmptyString => true
  | String a p' =>
      match s with
      | String b s' => Ascii.eqb a b && startsWith s' p'
      | EmptyString => false
      end
  end.

(** [String.prototype.includes] *)
Fixpoint includes (s needle : string) : bool :=
  startsWith s needle ||
  match s with
  | EmptyString => false
  | String _ s' => includes s' needle
  end.

(** [toLowerCase] of one Latin-1 code unit: A-Z, and U+00C0..U+00DE
    except the multiplication sign U+00D7. *)
Definition lower_char (c : ascii) : ascii :=
  if in_range 65 90 c
     || (in_range 192 222 c && negb (code c =? 215)%N)
  then ascii_of_N (code c + 32) else c.

Fixpoint toLowerCase (s : string) : string :=
  match s with
  | EmptyString => EmptyString
  | String c s' => String (lower_char c) (toLowerCase s')
  end.

(** Canonicalize of the regular-expression [i] flag (no [u] flag) on Latin-1:
    a-z, and U+00E0..U+00FE except the division sign U+00F7, map to their
    upper case.  The micro sign and y-diaeresis have upper cases outside
    Latin-1 that no Latin-1 code unit shares, and sharp s upper-cases to two
    characters, so the three are their own canonical form. *)
Definition canon_char (c : ascii) : ascii :=
  if in_range 97 122 c
     || (in_range 224 254 c && negb (code c =? 247)%N)
  then ascii_of_N (code c - 32) else c.

(** Every character of [s] is in the class [p]. *)
Fixpoint all (p : ascii -> bool) (s : string) : bool :=
  match s with
  | EmptyString => true
  | String c s' => p c && all p s'
  end.

(** The last character of [s] exists and is in the class [p]. *)
Fixpoint endsIn (p : ascii -> bool) (s : string) : bool :=
  match s with
  | EmptyString => false
  | String c EmptyString => p c
  | String _ s' => endsIn p s'
  end.

(** Template-literal rendering of a non-negative integer. *)
Definition decimal (n : nat) : string :=
  NilEmpty.string_of_uint (Nat.to_uint n).

Definition decimalN (n : N) : string :=
  NilEmpty.string_of_uint (N.to_uint n).

Definition digit_val (c : ascii) : Z := Z.of_N (code c) - 48.

Fixpoint digits_from (acc : Z) (s : string) : Z :=
  match s with
  | String c s' => if is_digit c then digits_from (10 * acc + digit_val c) s' else acc
  | EmptyString => acc
  end.

(** The first character of [s] exists and is in the class [p]. *)
Definition startsIn (p : ascii -> bool) (s : string) : bool :=
  match s with String c _ => p c | EmptyString => false end.

Definition leading_digit (s : string) : bool := startsIn is_digit s.

(** [Infinity], as a [Z]: the power of two that follows the largest double,
    which is what a magnitude rounds to when it overflows.  It is no
    double, so that no finite number is taken for it.  The program tests
    its numbers for zero, compares them, keeps them in a [Set] and hands
    their differences to [Array.prototype.sort], which reads the sign of a
    difference and takes the NaN of Infinity - Infinity for 0: all of this
    is the same on [infinity] in [Z] as on [Infinity]. *)
Definition infinity : Z := 2 ^ 1024.

(** The double nearest to the integer [z >= 0], before overflow is looked
    at: a [z] of at most 53 bits is a double; of a longer one the leading
    53 bits are kept and the rest is rounded off, to nearest, a tie going
    to the even significand. *)
Definition roundToDouble (z : Z) : Z :=
  let e := Z.log2 z in
  if (e <? 53)%Z then z
  else
    let sh := (e - 52)%Z in
    let q := Z.shiftr z sh in
    let r := Z.land z (Z.ones sh) in
    let half := Z.shiftl 1 (sh - 1) in
    let q' :=
      if (half <? r)%Z || ((r =? half)%Z && Z.odd q) then (q + 1)%Z else q in
    Z.shiftl q' sh.

(** The Number value of a mathematical integer: the nearest double, and
    plus or minus [Infinity] when that is beyond the largest double. *)
Definition toNumber (z : Z) : Z :=
  let m := roundToDouble (Z.abs z) in
  let m := if (infinity <=? m)%Z then infinity else m in
  if (z <? 0)%Z then (- m)%Z else m.

(** [parseInt(s, 10)]: leading white space is skipped, an optional sign is
    read, then the longest run of decimal digits, and the Number value of
    the integer they write is returned; [None] is the NaN returned when
    there is no digit. *)
Definition parseInt10 (s : string) : option Z :=
  let t := trimStart s in
  let '(neg, u) :=
    match t with
    | String "-" r => (true, r)
    | String "+" r => (false, r)
    | _ => (false, t)
    end in
  if leading_digit u
  then Some (toNumber (if neg then (- digits_from 0 u)%Z else digits_from 0 u))
  else None.

(** [s.slice(n)]: [s] without its first [n] characters. *)
Fixpoint skip (n : nat) (s : string) : string :=
  match n, s with
  | O, _ => s
  | S n', String _ s' => skip n' s'
  | S _, EmptyString => EmptyString
  end.

(** [s.indexOf(needle)]; [None] is the result -1. *)
Fixpoint indexOf (s needle : string) : option nat :=
  if startsWith s needle then Some O
  else match s with
       | EmptyString => None
       | String _ s' => option_map S (indexOf s' needle)
       end.

(** [s.replace(pattern, replacement)] for a string pattern and a replacement
    that holds no dollar sign: the first occurrence is replaced. *)
Fixpoint replaceFirst (s pattern replacement : string) : string :=
  if startsWith s pattern
  then replacement ++ skip (String.length pattern) s
  else match s with
       | EmptyString => EmptyString
       | String c s' => String c (replaceFirst s' pattern replacement)
       end.

(** [s.endsWith(suffix)] *)
Definition endsWith (s suffix : string) : bool :=
  Nat.leb (String.length suffix) (String.length s)
  && String.eqb (skip (String.length s - String.length suffix) s) suffix.

(** No character of [s] is [c]. *)
Definition lacks (c : ascii) (s : string) : bool :=
  all (fun x => negb (Ascii.eqb x c)) s.

(** The longest prefix of [s] without a character of the class [stop]. *)
Fixpoint takeUntil (stop : ascii -> bool) (s : string) : string :=
  match s with
  | EmptyString => EmptyString
  | String c s' => if stop c then EmptyString else String c (takeUntil stop s')
  end.

End Js.

(* ================================================================== *)
(** * Regular expressions (the fragment the sources use) *)
(* ================================================================== *)

Module Regex.

(** Abstract syntax.  Quantifiers apply to character classes, except the
    greedy [?], which the sources apply to a literal group.  Capturing groups
    are never nested nor quantified in the patterns of this program. *)
Inductive regex : Type :=
| Bol                                            (* ^ *)
| Lit (l : string)                               (* literal characters *)
| Cls (p : ascii -> bool)                        (* one character of a class *)
| Rep (greedy : bool) (min : nat) (p : ascii -> bool)
                                                 (* class-star, class-plus, lazy class-star *)
| Opt (r : regex)                                (* (?:r)? *)
| Cap (r : regex)                                (* (r) *)
| Cat (r1 r2 : regex).

(** Continuations receive the index reached, the rest of the input and the
    groups captured so far. *)
Definition cont : Type := nat -> string -> list string -> option (list string).

Definition char_eq (ci : bool) (a b : ascii) : bool :=
  if ci then Ascii.eqb (Js.canon_char a) (Js.canon_char b) else Ascii.eqb a b.

(** Consume the literal [l] at the head of [s]. *)
Fixpoint strip (ci : bool) (l s : string) : option string :=
  match l with
  | EmptyString => Some s
  | String a l' =>
      match s with
      | String b s' => if char_eq ci a b then strip ci l' s' else None
      | EmptyString => None
      end
  end.

(** Greedy repetition: take one more character of the class when there is
    one, and fall back to stopping here when the rest of the pattern fails. *)
Fixpoint rep_greedy (p : ascii -> bool) (min n i : nat) (s : string)
    (k : nat -> string -> option (list string)) : option (list string) :=
  let stop := if Nat.leb min n then k i s else None in
  match s with
  | String c s' =>
      if p c then
        match rep_greedy p min (S n) (S i) s' k with
        | Some r => Some r
        | None => stop
        end
      else stop
  | EmptyString => stop
  end.

(** Lazy repetition: try the rest of the pattern first, take one more
    character of the class only when that fails. *)
Fixpoint rep_lazy (p : ascii -> bool) (min n i : nat) (s : string)
    (k : nat -> string -> option (list string)) : option (list string) :=
  let more :=
    match s with
    | String c s' => if p c then rep_lazy p min (S n) (S i) s' k else None
    | EmptyString => None
    end in
  if Nat.leb min n then
    match k i s with
    | Some r => Some r
    | None => more
    end
  else more.

(** Backtracking matcher at index [i], with input rest [s]. *)
Fixpoint m (ci : bool) (r : regex) (i : nat) (s : string) (caps : list string)
    (k : cont) : option (list string) :=
  match r with
  | Bol => if Nat.eqb i 0 then k i s caps else None
  | Lit l =>
      match strip ci l s with
      | Some s' => k (i + String.length l) s' caps
      | None => None
      end
  | Cls p =>
      match s with
      | String c s' => if p c then k (S i) s' caps else None
      | EmptyString => None
      end
  | Rep true min p => rep_greedy p min 0 i s (fun i' s' => k i' s' caps)
  | Rep false min p => rep_lazy p min 0 i s (fun i' s' => k i' s' caps)
  | Opt r1 =>
      match m ci r1 i s caps k with
      | Some x => Some x
      | None => k i s caps
      end
  | Cap r1 =>
      m ci r1 i s caps
        (fun i' s' caps' =>
           k i' s' (caps' ++ [String.substring 0 (i' - i) s])%list)
  | Cat r1 r2 =>
      m ci r1 i s caps (fun i' s' caps' => m ci r2 i' s' caps' k)
  end.

Definition accept : cont := fun _ _ caps => Some caps.

(** Try every start index from left to right. *)
Fixpoint search (ci : bool) (r : regex) (i : nat) (s : string)
    : option (list string) :=
  match m ci r i s [] accept with
  | Some caps => Some caps
  | None =>
      match s with
      | String _ s' => search ci r (S i) s'
      | EmptyString => None
      end
  end.

(** [s.match(r)] without the [g] flag: the captured groups of the leftmost
    match, [None] for [null].  [ci] is the [i] flag. *)
Definition exec (ci : bool) (r : regex) (s : string) : option (list string) :=
  search ci r 0 s.

(** [m[n]] for a match result (groups are numbered from 1). *)
Definition grp (n : nat) (caps : list string) : string :=
  nth (n - 1) caps EmptyString.

(** [s.replace(r, replacement)] without the [g] flag, for a pattern that
    starts with [^], which can match at index 0 only, and a replacement that
    holds no dollar sign: the matched prefix is replaced. *)
Definition replaceAtStart (ci : bool) (r : regex) (s replacement : string)
    : string :=
  match m ci r 0 s [] (fun _ rest _ => Some [rest]) with
  | Some (rest :: _) => replacement ++ rest
  | _ => s
  end.

Definition star (p : ascii -> bool) : regex := Rep true 0 p.
Definition plus (p : ascii -> bool) : regex := Rep true 1 p.
Definition lazy_star (p : ascii -> bool) : regex := Rep false 0 p.

Fixpoint seq (rs : list regex) : regex :=
  match rs with
  | [] => Lit EmptyString
  | [r] => r
  | r :: rs' => Cat r (seq rs')
  end.

(** The matches of a pattern, declaratively: [Matches ci r i a cs] says that
    [r] can match the characters [a] found at index [i], capturing the
    groups [cs].  The matcher [m] explores these matches in the order of
    the backtracking priorities. *)
Inductive Matches (ci : bool) : regex -> nat -> string -> list string -> Prop :=
| MBol : Matches ci Bol 0 EmptyString []
| MLit l a i :
    strip ci l a = Some EmptyString -> Matches ci (Lit l) i a []
| MCls p c i :
    p c = true -> Matches ci (Cls p) i (String c EmptyString) []
| MRep g min p a i :
    Js.all p a = true -> (min <= String.length a)%nat ->
    Matches ci (Rep g min p) i a []
| MOptSkip r i : Matches ci (Opt r) i EmptyString []
| MOptTake r i a cs : Matches ci r i a cs -> Matches ci (Opt r) i a cs
| MCap r i a cs : Matches ci r i a cs -> Matches ci (Cap r) i a (cs ++ [a])%list
| MCat r1 r2 i a1 a2 c1 c2 :
    Matches ci r1 i a1 c1 ->
    Matches ci r2 (i + String.length a1) a2 c2 ->
    Matches ci (Cat r1 r2) i (a1 ++ a2) (c1 ++ c2)%list.

End Regex.

(* ================================================================== *)
(** * utils/m3u.ts: the playlist parser *)
(* ================================================================== *)

Module M3U.
Import Js Regex.

(** types.ts, [interface Channel] *)
Record Channel : Type := mkChannel {
  id : string;
  name : string;
  logo : string;
  group : string;
  url : string;
  seriesName : option string;
  season : option Z;
  episode : option Z
}.

Definition dquote : string := String (ascii_of_nat 34) EmptyString.
Definition not_dquote (c : ascii) : bool := negb (Ascii.eqb c (ascii_of_nat 34)).

(** [/\/images\/([a-zA-Z0-9]+)(?:_small)?\.jpg/] *)
Definition imageRe : regex :=
  seq [Lit "/images/"; Cap (plus is_alnum); Opt (Lit "_small"); Lit ".jpg"].

(** [fixImageUrl] *)
Definition fixImageUrl (url : string) : string :=
  if negb (truthy url) then EmptyString
  else
    let rewritten :=
      if includes url "assistirpainel.net" then
        match exec false imageRe url with
        | Some mt => Some ("https://image.tmdb.org/t/p/w500/" ++ grp 1 mt ++ ".jpg")
        | None => None
        end
      else None in
    match rewritten with
    | Some r => r
    | None => url
    end.

(** The two tests a URL passes to be rewritten. *)
Definition brokenHostImage (url : string) : bool :=
  includes url "assistirpainel.net" &&
  match exec false imageRe url with Some _ => true | None => false end.

(** The three attribute patterns: the attribute name, an equals sign, a
    double quote, a captured greedy run of characters other than the double
    quote, and a closing double quote. *)
Definition attrRe (attr : string) : regex :=
  seq [Lit (attr ++ "=" ++ dquote); Cap (star not_dquote); Lit dquote].

(** [/^(.*?)\s+S(\d+)\s*E(\d+)/i] *)
Definition seriesRe : regex :=
  seq [Bol; Cap (lazy_star is_dot); plus is_space; Lit "S"; Cap (plus is_digit);
       star is_space; Lit "E"; Cap (plus is_digit)].

(** The part of the series pattern that follows the title group. *)
Definition seriesTail : regex :=
  seq [plus is_space; Lit "S"; Cap (plus is_digit);
       star is_space; Lit "E"; Cap (plus is_digit)].

(** The object [seriesCheck] spread into the entry: its three fields, all
    absent when the name does not match. *)
Definition seriesCheck (currentName : string)
    : option string * option Z * option Z :=
  match exec true seriesRe currentName with
  | Some mt =>
      (Some (trim (grp 1 mt)), parseInt10 (grp 2 mt), parseInt10 (grp 3 mt))
  | None => (None, None, None)
  end.

(** The shape of a name, read off the pattern: a title (no line break in
    it), white space, the letter S in either case, season digits, optional
    white space, the letter E in either case, episode digits, and a rest. *)
Definition seriesPattern (n title sd ed rest : string) : Prop :=
  exists w cS w' cE,
    n = title ++ w ++ String cS (sd ++ w' ++ String cE (ed ++ rest)) /\
    all is_dot title = true /\
    w <> EmptyString /\ all is_space w = true /\
    (cS = "S"%char \/ cS = "s"%char) /\
    sd <> EmptyString /\ all is_digit sd = true /\
    all is_space w' = true /\
    (cE = "E"%char \/ cE = "e"%char) /\
    ed <> EmptyString /\ all is_digit ed = true.

(** The match the backtracking order selects among the names of that shape:
    the shortest title, and episode digits that run as far as digits go. *)
Definition seriesMatch (n title sd ed rest : string) : Prop :=
  seriesPattern n title sd ed rest /\
  startsIn is_digit rest = false /\
  forall title' sd' ed' rest',
    seriesPattern n title' sd' ed' rest' ->
    (String.length title <= String.length title')%nat.

(** The inference as the specification words it, a trailing pattern: the
    episode digits end the name. *)
Definition specTrailingPattern (n : string) : Prop :=
  exists title sd ed, seriesPattern n title sd ed EmptyString.

(** The four [let] variables of [parseM3U]. *)
Record Pending : Type := mkPending {
  currentGroup : string;
  currentLogo : string;
  currentId : string;
  currentName : string
}.

Definition initial : Pending := mkPending "Uncategorized" EmptyString EmptyString EmptyString.

Definition attrOr (attr dflt line : string) : string :=
  match exec false (attrRe attr) line with
  | Some mt => grp 1 mt
  | None => dflt
  end.

(** The [#EXTINF:] branch. *)
Definition readExtinf (line : string) : Pending :=
  let nameParts := split "," line in
  let name := trim (last nameParts EmptyString) in
  {| currentGroup := attrOr "group-title" "Uncategorized" line;
     currentLogo := fixImageUrl (attrOr "tvg-logo" EmptyString line);
     currentId := attrOr "tvg-id" EmptyString line;
     currentName := name |}.

(** The entry pushed by the URL branch, [n] being [channels.length]. *)
Definition makeEntry (p : Pending) (n : nat) (line : string) : Channel :=
  let '(sn, se, ep) := seriesCheck (currentName p) in
  {| id := orElse (currentId p) ("ch-" ++ decimal n);
     name := orElse (currentName p) "Unknown Channel";
     logo := currentLogo p;
     group := currentGroup p;
     url := line;
     seriesName := sn;
     season := se;
     episode := ep |}.

(** One iteration of the [for] loop over [lines]. *)
Definition step (st : Pending * list Channel) (raw : string)
    : Pending * list Channel :=
  let '(p, channels) := st in
  let line := trim raw in
  if negb (truthy line) then st
  else if startsWith line "#EXTINF:" then (readExtinf line, channels)
  else if negb (startsWith line "#") then
    (initial, (channels ++ [makeEntry p (List.length channels) line])%list)
  else st.

Definition run (lines : list string) (st : Pending * list Channel)
    : Pending * list Channel :=
  fold_left step lines st.

Definition newline : ascii := ascii_of_nat 10.

(** A line break, to write playlists down. *)
Definition lf : string := String newline EmptyString.

(** The loop started as [parseM3U] starts it. *)
Definition parseLines (lines : list string) : list Channel :=
  snd (run lines (initial, [])).

(** [parseM3U] *)
Definition parseM3U (content : string) : list Channel :=
  parseLines (split newline content).

(** A line that the loop turns into an entry: not blank once trimmed, and
    not starting with [#]. *)
Definition isUrlLine (raw : string) : bool :=
  let line := trim raw in
  truthy line && negb (startsWith line "#").

(** A metadata line. *)
Definition isExtinfLine (raw : string) : bool :=
  startsWith (trim raw) "#EXTINF:".






End M3U.

(* ================================================================== *)
(** * JavaScript arrays and insertion-ordered maps *)
(* ================================================================== *)

Module JsArray.

Section Sort.
Context {A : Type}.
Variable compareFn : A -> A -> Z.

(** [x] goes in front of the first element it does not compare greater
      than, so that it stays in front of the elements it ties with. *)
Fixpoint insert (x : A) (l : list A) : list A :=
    match l with
    | [] => [x]
    | y :: l' => if (compareFn x y <=? 0)%Z then x :: l else y :: insert x l'
    end.

(** [Array.prototype.sort(compareFn)].  ECMAScript requires the sort to be
      stable; for a consistent comparator the result is then determined,
      and it is the one of this stable insertion sort. *)
Definition sort (l : list A) : list A := fold_right insert [] l.
End Sort.

Section Assoc.
Context {V : Type}.

(** An insertion-ordered [Map<string, V>] (or a plain object with string
      keys). *)
Definition t : Type := list (string * V).

Fixpoint get (mp : t) (k : string) : option V :=
    match mp with
    | [] => None
    | (k', v) :: mp' => if String.eqb k' k then Some v else get mp' k
    end.

Definition has (mp : t) (k : string) : bool :=
    match get mp k with Some _ => true | None => false end.

(** [map.set(k, v)] / [obj[k] = v]: an existing key keeps its place. *)
Fixpoint set (mp : t) (k : string) (v : V) : t :=
    match mp with
    | [] => [(k, v)]
    | (k', v') :: mp' =>
        if String.eqb k' k then (k', v) :: mp' else (k', v') :: set mp' k v
    end.

(** Mutation, through the reference [map.get(k)] returns, of the object
      stored under [k]. *)
Fixpoint update (mp : t) (k : string) (f : V -> V) : t :=
    match mp with
    | [] => []
    | (k', v') :: mp' =>
        if String.eqb k' k then (k', f v') :: mp' else (k', v') :: update mp' k f
    end.

Definition keys (mp : t) : list string := map fst mp.
Definition values (mp : t) : list V := map snd mp.
End Assoc.
Arguments t : clear implicits.

End JsArray.

(* ================================================================== *)
(** * App.tsx: filtering, grouping mode, series catalog, view selection *)
(* ================================================================== *)

Module App.
Import Js.

Abbreviation Channel := M3U.Channel.

(** types.ts, [interface Series] *)
Record Series : Type := mkSeries {
  name : string;
  logo : string;
  seasonCount : nat;
  episodeCount : nat;
  episodes : list Channel
}.

(** [x || d] on an optional number: absent and 0 are falsy. *)
Definition numOr (x : option Z) (d : Z) : Z :=
  match x with
  | Some v => if (v =? 0)%Z then d else v
  | None => d
  end.

(** Truthiness of [c.seriesName]. *)
Definition hasSeriesName (c : Channel) : bool :=
  match M3U.seriesName c with
  | Some sn => truthy sn
  | None => false
  end.

(** [filteredChannels] *)
Definition filteredChannels (channels : list Channel)
    (selectedCategory searchQuery : string) : list Channel :=
  if negb (truthy selectedCategory) && negb (truthy searchQuery) then []
  else
    let result := channels in
    let result :=
      if truthy selectedCategory
      then filter (fun c => String.eqb (M3U.group c) selectedCategory) result
      else result in
    let result :=
      if truthy searchQuery
      then let q := toLowerCase searchQuery in
           filter (fun c => includes (toLowerCase (M3U.name c)) q) result
      else result in
    result.

Definition seriesItems (filtered : list Channel) : list Channel :=
  filter hasSeriesName filtered.

Definition ratio (a b : nat) : Q :=
  (inject_Z (Z.of_nat a) / inject_Z (Z.of_nat b))%Q.

(** [x > 0.5] *)
Definition gtHalf (x : Q) : bool := negb (Qle_bool x (1 # 2)).

(** [isSeries].  The quotient of two array lengths is compared with 0.5; both
    lengths are below 2^32, for which the comparison of the rounded quotient
    agrees with the one of the exact quotient taken here. *)
Definition isSeries (filtered : list Channel) : bool :=
  (0 <? List.length (seriesItems filtered))%nat
  && gtHalf (ratio (List.length (seriesItems filtered)) (List.length filtered)).

(** The comparator given to [s.episodes.sort]. *)
Definition compareEpisodes (a b : Channel) : Z :=
  let sA := numOr (M3U.season a) 0 in
  let sB := numOr (M3U.season b) 0 in
  if negb (sA =? sB)%Z then (sA - sB)%Z
  else (numOr (M3U.episode a) 0 - numOr (M3U.episode b) 0)%Z.

(** The sort key the comparator induces: season and episode, an absent (or
    zero) value counting as 0. *)
Definition episodeKey (c : Channel) : Z * Z :=
  (numOr (M3U.season c) 0, numOr (M3U.episode c) 0).

(** Lexicographic order on keys. *)
Definition keyLe (k1 k2 : Z * Z) : Prop :=
  (fst k1 < fst k2)%Z \/ (fst k1 = fst k2 /\ (snd k1 <= snd k2)%Z).

Definition episodeLe (a b : Channel) : Prop :=
  keyLe (episodeKey a) (episodeKey b).

Definition sameKey (k : Z * Z) (c : Channel) : bool :=
  (fst (episodeKey c) =? fst k)%Z && (snd (episodeKey c) =? snd k)%Z.

(** The entries of a list that carry the series name [sn]. *)
Definition episodesOf (sn : string) (l : list Channel) : list Channel :=
  filter (fun c => match M3U.seriesName c with
                   | Some x => String.eqb x sn
                   | None => false
                   end) l.

(** What [seriesMap] holds once the entries [done] have been visited: under
    each key, which is a non-empty series name, the series of that name with
    the visited entries that carry it, in order; and a key for every series
    name met. *)
Definition entryOk (done : list Channel) (k : string) (s : Series) : Prop :=
  name s = k /\ truthy k = true /\ episodes s = episodesOf k done.

Definition mapOk (sm : JsArray.t Series) (done : list Channel) : Prop :=
  NoDup (JsArray.keys sm) /\
  Forall (fun kv => entryOk done (fst kv) (snd kv)) sm /\
  (forall c sn, In c done -> M3U.seriesName c = Some sn -> truthy sn = true ->
                In sn (JsArray.keys sm)) /\
  (forall k, In k (JsArray.keys sm) ->
             exists c, In c done /\ M3U.seriesName c = Some k).

(** The body of [filteredChannels.forEach]: [sm] is [seriesMap], the second
    component is [standalones]. *)
Definition addChannel (acc : JsArray.t Series * list Channel) (c : Channel)
    : JsArray.t Series * list Channel :=
  let '(sm, standalones) := acc in
  match M3U.seriesName c with
  | Some sn =>
      if truthy sn then
        let sm1 :=
          if negb (JsArray.has sm sn)
          then JsArray.set sm sn
                 {| name := sn; logo := M3U.logo c; seasonCount := 0;
                    episodeCount := 0; episodes := [] |}
          else sm in
        (JsArray.update sm1 sn
           (fun s => {| name := name s; logo := logo s;
                        seasonCount := seasonCount s;
                        episodeCount := S (episodeCount s);
                        episodes := (episodes s ++ [c])%list |}),
         standalones)
      else (sm, (standalones ++ [c])%list)
  | None => (sm, (standalones ++ [c])%list)
  end.

Definition distinct (l : list Z) : list Z := nodup Z.eq_dec l.

(** The body of [seriesMap.forEach]: sort the episodes, count the seasons. *)
Definition finishSeries (s : Series) : Series :=
  let sorted := JsArray.sort compareEpisodes (episodes s) in
  {| name := name s; logo := logo s;
     seasonCount :=
       List.length (distinct (map (fun e => numOr (M3U.season e) 1) sorted));
     episodeCount := episodeCount s;
     episodes := sorted |}.

Record Grouping : Type := mkGrouping {
  isSeriesView : bool;
  groupedSeries : list Series;
  standaloneChannels : list Channel
}.

(** The [useMemo] that computes [isSeriesView] and [groupedSeries]. *)
Definition grouping (filtered : list Channel) : Grouping :=
  if negb (isSeries filtered) then
    {| isSeriesView := false; groupedSeries := [];
       standaloneChannels := filtered |}
  else
    let '(sm, standalones) := fold_left addChannel filtered ([], []) in
    {| isSeriesView := true;
       groupedSeries := map finishSeries (JsArray.values sm);
       standaloneChannels := standalones |}.

(** Two entries of one series with the same season and episode (two
    sources of one episode), and a later episode. *)
Definition episodeA : Channel :=
  M3U.mkChannel "a" "Show S01 E01" EmptyString "Series" "http://h/a.mp4"
    (Some "Show") (Some 1%Z) (Some 1%Z).

Definition episodeB : Channel :=
  M3U.mkChannel "b" "Show S01 E01" EmptyString "Series" "http://h/b.mp4"
    (Some "Show") (Some 1%Z) (Some 1%Z).

Definition episodeC : Channel :=
  M3U.mkChannel "c" "Show S01 E02" EmptyString "Series" "http://h/c.mp4"
    (Some "Show") (Some 1%Z) (Some 2%Z).

Definition movieD : Channel :=
  M3U.mkChannel "d" "Inception (2010)" EmptyString "Series" "http://h/d.mp4"
    None None None.

(** React state of [App] (the parts the content area depends on). *)
Record State : Type := mkState {
  channels : list Channel;
  loading : bool;
  error : string;
  selectedCategory : string;
  searchQuery : string;
  selectedSeries : option Series;
  selectedSeason : option Z
}.

Definition initialState : State :=
  {| channels := []; loading := true; error := EmptyString;
     selectedCategory := EmptyString; searchQuery := EmptyString;
     selectedSeries := None; selectedSeason := None |}.

(** What the component returns. *)
Inductive View : Type :=
| Spinner
| ErrorMessage (e : string)
| EpisodesView (s : Series) (n : Z) (seasonEpisodes : list Channel)
| SeasonsView (s : Series) (seasons : list Z)
| SeriesListView (l : list Series)
| NoContentFound
| ChannelGrid (l : list Channel).

Definition filteredOf (st : State) : list Channel :=
  filteredChannels (channels st) (selectedCategory st) (searchQuery st).

Definition capitalS : string := "S".

(** The JSX conditional chain of the content area, after the two early
    returns. *)
Definition render (st : State) : View :=
  if loading st then Spinner
  else if truthy (error st) then ErrorMessage (error st)
  else
    let filtered := filteredOf st in
    let g := grouping filtered in
    match selectedSeries st, selectedSeason st with
    | Some s, Some n =>
        EpisodesView s n
          (filter (fun e => (numOr (M3U.season e) 1 =? n)%Z) (episodes s))
    | Some s, None =>
        SeasonsView s
          (JsArray.sort (fun a b => (a - b)%Z)
             (distinct (map (fun e => numOr (M3U.season e) 1) (episodes s))))
    | None, _ =>
        if isSeriesView g && negb (includes (searchQuery st) capitalS)
        then SeriesListView (groupedSeries g)
        else if (List.length filtered =? 0)%nat then NoContentFound
        else ChannelGrid filtered
    end.

(** The default comparison of [Array.prototype.sort()] on strings: code
    unit order. *)
Definition compareStrings (a b : string) : Z :=
  match String.compare a b with
  | Lt => (-1)%Z
  | Eq => 0%Z
  | Gt => 1%Z
  end.

Definition sortedGroups (parsed : list Channel) : list string :=
  JsArray.sort compareStrings (nodup string_dec (map M3U.group parsed)).

(** What can happen to the component: a playlist fetch settles (the effect
    that starts the fetch runs once per mount, and React mounts twice in
    development, so that a settlement may come at any time), or the user
    acts on a control that is on screen. *)
Inductive Event : Type :=
| FetchResolved (text : string)
| FetchRejected
| ClickCategory (cat : string)
| ChangeSearch (value : string)
| ClickBack
| ClickSeriesCard (index : nat)
| ClickSeasonCard (index : nat).

(** The main layout is what is returned: neither early return is taken. *)
Definition layoutShown (st : State) : bool :=
  negb (loading st) && negb (truthy (error st)).

(** The state after an event; [None] when the control that raises the event
    is not rendered in [st]. *)
Definition handle (st : State) (ev : Event) : option State :=
  match ev with
  | FetchResolved text =>
      let parsed := M3U.parseM3U text in
      Some {| channels := parsed; loading := false; error := error st;
              selectedCategory :=
                match sortedGroups parsed with
                | g :: _ => g
                | [] => selectedCategory st
                end;
              searchQuery := searchQuery st;
              selectedSeries := selectedSeries st;
              selectedSeason := selectedSeason st |}
  | FetchRejected =>
      Some {| channels := channels st; loading := false;
              error := "Failed to load playlist. Check server configuration.";
              selectedCategory := selectedCategory st;
              searchQuery := searchQuery st;
              selectedSeries := selectedSeries st;
              selectedSeason := selectedSeason st |}
  | ClickCategory cat =>
      if layoutShown st
         && existsb (fun c => String.eqb (M3U.group c) cat) (channels st)
      then
        Some {| channels := channels st; loading := loading st;
                error := error st;
                selectedCategory := cat; searchQuery := EmptyString;
                selectedSeries := None; selectedSeason := None |}
      else None
  | ChangeSearch value =>
      match layoutShown st, selectedSeries st with
      | true, None =>
          Some {| channels := channels st; loading := loading st;
                  error := error st;
                  selectedCategory := selectedCategory st;
                  searchQuery := value;
                  selectedSeries := None;
                  selectedSeason := selectedSeason st |}
      | _, _ => None
      end
  | ClickBack =>
      match layoutShown st, selectedSeries st with
      | true, Some s =>
          Some {| channels := channels st; loading := loading st;
                  error := error st;
                  selectedCategory := selectedCategory st;
                  searchQuery := searchQuery st;
                  selectedSeries :=
                    match selectedSeason st with
                    | Some _ => Some s
                    | None => None
                    end;
                  selectedSeason := None |}
      | _, _ => None
      end
  | ClickSeriesCard index =>
      match render st with
      | SeriesListView l =>
          match nth_error l index with
          | Some s =>
              Some {| channels := channels st; loading := loading st;
                      error := error st;
                      selectedCategory := selectedCategory st;
                      searchQuery := searchQuery st;
                      selectedSeries := Some s;
                      selectedSeason := selectedSeason st |}
          | None => None
          end
      | _ => None
      end
  | ClickSeasonCard index =>
      match render st with
      | SeasonsView _ seasons =>
          match nth_error seasons index with
          | Some seasonNum =>
              Some {| channels := channels st; loading := loading st;
                      error := error st;
                      selectedCategory := selectedCategory st;
                      searchQuery := searchQuery st;
                      selectedSeries := selectedSeries st;
                      selectedSeason := Some seasonNum |}
          | None => None
          end
      | _ => None
      end
  end.

(** States the component can be in. *)
Inductive reachable : State -> Prop :=
| reach_init : reachable initialState
| reach_step st ev st' :
    reachable st -> handle st ev = Some st' -> reachable st'.

(** What holds of the search text in every state the component reaches: it
    holds no capital S while a series is selected. *)
Definition searchInvariant (st : State) : Prop :=
  selectedSeries st <> None -> includes (searchQuery st) capitalS = false.

(** Run a script of events from the initial state. *)
Fixpoint play (st : State) (evs : list Event) : option State :=
  match evs with
  | [] => Some st
  | ev :: evs' =>
      match handle st ev with
      | Some st' => play st' evs'
      | None => None
      end
  end.

(** What the grouping loop keeps of each series: its episode count is the
    length of its episode list, which is not empty, and its logo is the one
    of the first entry that was added. *)
Definition seriesFilled (s : Series) : Prop :=
  episodeCount s = List.length (episodes s) /\
  exists c l, episodes s = c :: l /\ logo s = M3U.logo c.

(** The objects of the [categories] array. *)
Module Category.
Record t : Type := mk { name : string; count : nat }.
End Category.

(** [x || d] on an optional count. *)
Definition natOr (x : option nat) (d : nat) : nat :=
  match x with
  | Some v => if (v =? 0)%nat then d else v
  | None => d
  end.

(** The body of [channels.forEach] in [categories]. *)
Definition countGroup (mp : JsArray.t nat) (c : Channel) : JsArray.t nat :=
  JsArray.set mp (M3U.group c) (natOr (JsArray.get mp (M3U.group c)) 0 + 1).

(** The [Map] of [categories] after the loop. *)
Definition groupCounts (channels : list Channel) : JsArray.t nat :=
  fold_left countGroup channels [].

(** [categories].  [localeCompare] is the collation of the platform. *)
Definition categories (localeCompare : string -> string -> Z)
    (channels : list Channel) : list Category.t :=
  JsArray.sort
    (fun a b => localeCompare (Category.name a) (Category.name b))
    (map (fun kv => Category.mk (fst kv) (snd kv)) (groupCounts channels)).

(** The number of entries of a group. *)
Definition groupSize (g : string) (channels : list Channel) : nat :=
  List.length (filter (fun c => String.eqb (M3U.group c) g) channels).

(** A playlist with two episodes and a film. *)
Definition samplePlaylist : string :=
  "#EXTINF:-1,Dark S01 E01" ++ M3U.lf ++ "http://h/1.mp4" ++ M3U.lf ++
  "#EXTINF:-1,Dark S01 E02" ++ M3U.lf ++ "http://h/2.mp4" ++ M3U.lf ++
  "#EXTINF:-1,Inception (2010)" ++ M3U.lf ++ "http://h/3.mp4".

End App.

(* ================================================================== *)
(** * server.js: the stream proxy *)
(* ================================================================== *)

Module Server.
Import Js.

(** A header value of a Node message: a string, or an array of strings for
    the headers Node does not join (set-cookie). *)
Inductive HeaderValue : Type :=
| Single (v : string)
| Multiple (vs : list string).

(** The inbound [req].  Node delivers [req.headers] with lower-case names. *)
Module Req.
Record t : Type := mk {
    method : string;
    url : string;
    headers : JsArray.t string
  }.
End Req.

(** The object [proxyOptions] handed to [http.request]. *)
Module Options.
Record t : Type := mk {
    hostname : string;
    port : N;
    path : string;
    method : string;
    headers : JsArray.t string
  }.
End Options.

(** The upstream response [proxyRes]. *)
Module Upstream.
Record t : Type := mk {
    statusCode : Z;
    headers : JsArray.t HeaderValue
  }.
End Upstream.

(** A JSON object with string members, as given to [res.json]. *)
Definition Json : Type := list (string * string).

(** The outbound [res].  Node keeps the headers of a response under their
    lower-cased name, together with the name as it was given.  [body] is what
    [res.json] sent, [piped] tells that an upstream response streams into
    the response, [finished] that the response was ended.  The headers that
    Express derives from the body while sending (Content-Type,
    Content-Length, ETag) are left out. *)
Module Res.
Record t : Type := mk {
    statusCode : Z;
    headers : JsArray.t (string * HeaderValue);
    headersSent : bool;
    body : option Json;
    piped : bool;
    finished : bool
  }.

(** [res.setHeader(name, value)]; [None] is the ERR_HTTP_HEADERS_SENT
      exception. *)
Definition setHeader (res : t) (name : string) (value : HeaderValue)
      : option t :=
    if headersSent res then None
    else Some {| statusCode := statusCode res;
                 headers := JsArray.set (headers res) (toLowerCase name)
                              (name, value);
                 headersSent := false;
                 body := body res; piped := piped res;
                 finished := finished res |}.

(** [res.getHeader(name)] *)
Definition getHeader (res : t) (name : string) : option HeaderValue :=
    option_map snd (JsArray.get (headers res) (toLowerCase name)).

(** [res.status(code)] *)
Definition status (res : t) (code : Z) : t :=
    {| statusCode := code; headers := headers res;
       headersSent := headersSent res; body := body res;
       piped := piped res; finished := finished res |}.

(** [res.json(obj)]: the object is sent and the response ended. *)
Definition json (res : t) (obj : Json) : t :=
    {| statusCode := statusCode res; headers := headers res;
       headersSent := true; body := Some obj;
       piped := piped res; finished := true |}.

(** [proxyRes.pipe(res)] *)
Definition pipeFrom (res : t) : t :=
    {| statusCode := statusCode res; headers := headers res;
       headersSent := headersSent res; body := body res;
       piped := true; finished := finished res |}.
End Res.

Section Proxy.
(** Configuration read from the environment. *)
Variable IPTV_HOST : string.
Variable IPTV_PORT : N.

(** The literal [headers] object of [proxyOptions]. *)
Definition impersonation : JsArray.t string :=
    [ ("User-Agent", "Lavf/60.3.100");
      ("Accept", "*/*");
      ("Accept-Language", "en-US,en;q=0.9");
      ("Accept-Encoding", "identity");
      ("Connection", "keep-alive");
      ("Host", IPTV_HOST ++ ":" ++ decimalN IPTV_PORT);
      ("Icy-MetaData", "1") ].

(** [proxyOptions], after the conditional assignment of [Range]. *)
Definition proxyOptions (req : Req.t) : Options.t :=
    let options :=
      {| Options.hostname := IPTV_HOST;
         Options.port := IPTV_PORT;
         Options.path := Req.url req;
         Options.method := Req.method req;
         Options.headers := impersonation |} in
    match JsArray.get (Req.headers req) "range" with
    | Some range =>
        if truthy range then
          {| Options.hostname := Options.hostname options;
             Options.port := Options.port options;
             Options.path := Options.path options;
             Options.method := Options.method options;
             Options.headers :=
               JsArray.set (Options.headers options) "Range" range |}
        else options
    | None => options
    end.
(** The headers of the upstream request. *)
Definition upstreamHeaders (req : Req.t) : JsArray.t string :=
  Options.headers (proxyOptions req).
End Proxy.

(** A request that seeks, one whose Range header is present but empty. *)
Definition rangeRequest : Req.t :=
  Req.mk "GET" "/live/1.ts"
    [("user-agent", "Mozilla/5.0"); ("range", "bytes=1000-")].

Definition emptyRangeRequest : Req.t :=
  Req.mk "GET" "/live/1.ts" [("range", EmptyString)].

Definition bind {A B : Type} (x : option A) (f : A -> option B) : option B :=
  match x with
  | Some a => f a
  | None => None
  end.

(** [['transfer-encoding'].includes(key.toLowerCase())] *)
Definition problematic (key : string) : bool :=
  existsb (String.eqb (toLowerCase key)) ["transfer-encoding"].

(** The body of [Object.keys(proxyRes.headers).forEach]. *)
Definition forwardHeader (upstream : JsArray.t HeaderValue)
    (res : option Res.t) (key : string) : option Res.t :=
  bind res (fun r =>
    if negb (problematic key) then
      bind (JsArray.get upstream key) (fun v => Res.setHeader r key v)
    else Some r).

(** The callback given to [http.request]. *)
Definition onProxyResponse (proxyRes : Upstream.t) (res : Res.t)
    : option Res.t :=
  bind (Res.setHeader res "Access-Control-Allow-Origin" (Single "*"))
    (fun r1 =>
  bind (Res.setHeader r1 "Access-Control-Allow-Methods" (Single "GET, OPTIONS"))
    (fun r2 =>
  bind (Res.setHeader r2 "Access-Control-Expose-Headers"
          (Single "Content-Length, Content-Range, Content-Type"))
    (fun r3 =>
  bind (fold_left (forwardHeader (Upstream.headers proxyRes))
          (JsArray.keys (Upstream.headers proxyRes)) (Some r3))
    (fun r4 =>
  Some (Res.pipeFrom (Res.status r4 (Upstream.statusCode proxyRes))))))).

(** The listener [proxyReq.on('error', ...)], [message] being
    [err.message]. *)
Definition onProxyError (message : string) (res : Res.t) : Res.t :=
  if negb (Res.headersSent res) then
    Res.json (Res.status res 502)
      [("error", "Stream unavailable"); ("details", message)]
  else res.

Definition te : string := "transfer-encoding".

(** The loop over the upstream header names: what it has copied so far. *)
Definition copied (upstream : JsArray.t HeaderValue) (r0 r : Res.t)
    (names : list string) : Prop :=
  Res.headersSent r = false /\
  Res.statusCode r = Res.statusCode r0 /\
  Res.body r = Res.body r0 /\ Res.finished r = Res.finished r0 /\
  Res.piped r = Res.piped r0 /\
  Res.getHeader r te = Res.getHeader r0 te /\
  forall k, In k names -> k <> te ->
            Res.getHeader r k = JsArray.get upstream k.

(** [proxyRes.headers] as Node builds it: the names are in lower case. *)
Definition incomingHeaders (h : JsArray.t HeaderValue) : Prop :=
  Forall (fun k => toLowerCase k = k) (JsArray.keys h).

(** A response on which nothing has been set or sent yet. *)
Definition freshRes : Res.t :=
  {| Res.statusCode := 200; Res.headers := []; Res.headersSent := false;
     Res.body := None; Res.piped := false; Res.finished := false |}.

(** A response whose headers and first bytes have gone out and that is
    still streaming. *)
Definition streamingRes : Res.t :=
  {| Res.statusCode := 200;
     Res.headers := [("content-type", ("content-type", Single "video/mp2t"))];
     Res.headersSent := true;
     Res.body := None; Res.piped := true; Res.finished := false |}.

(** An upstream answer to a range request. *)
Definition partialContent : Upstream.t :=
  {| Upstream.statusCode := 206;
     Upstream.headers :=
       [("content-range", Single "bytes 1000-1999/5000");
        ("transfer-encoding", Single "chunked");
        ("set-cookie", Multiple ["a=1"; "b=2"])] |}.

End Server.

(* ================================================================== *)
(** * components/Player.tsx and vite.config.ts: the way to the proxy *)
(* ================================================================== *)

Module Player.
Import Js.

Definition providerOrigin : string := "http://tiralit.shop:8880".

(** [relativeProxyUrl] *)
Definition relativeProxyUrl (url : string) : string :=
  replaceFirst url providerOrigin "/stream-proxy".

(** [absoluteProxyUrl], the URL the player requests.  [href base input]
    stands for [new URL(input, base).href], the URL parser of the browser,
    and [origin] for [window.location.origin]. *)
Definition absoluteProxyUrl (href : string -> string -> string)
    (origin url : string) : string :=
  href origin (relativeProxyUrl url).

(** The request target the browser sends for a URL of the page's origin:
    the URL without the origin and without its fragment. *)
Definition requestTarget (origin absolute : string) : string :=
  takeUntil (fun c => Ascii.eqb c "#") (skip (String.length origin) absolute).

(** [isMp4] *)
Definition isMp4 (url : string) : bool :=
  endsWith (toLowerCase url) ".mp4".

(** How the effect plays the stream. *)
Inductive Playback : Type :=
| NativeVideo          (* video.src, for an MP4 *)
| MpegtsPlayer         (* mpegts.createPlayer *)
| NativeFallback       (* video.src, where the browser plays HLS *)
| NoPlayback.

(** The conditional of the effect; [mpegtsSupported] is
    [mpegts.isSupported()], [canPlayHls] the truthiness of
    [video.canPlayType('application/vnd.apple.mpegurl')]. *)
Definition playback (url : string) (mpegtsSupported canPlayHls : bool)
    : Playback :=
  if isMp4 url then NativeVideo
  else if mpegtsSupported then MpegtsPlayer
  else if canPlayHls then NativeFallback
  else NoPlayback.

End Player.

Module Vite.
Import Regex.

(** [/^\/stream-proxy/] *)
Definition proxyPrefixRe : regex := seq [Bol; Lit "/stream-proxy"].

(** [rewrite] of the development proxy. *)
Definition rewrite (path : string) : string :=
  replaceAtStart false proxyPrefixRe path EmptyString.

End Vite.

(* ================================================================== *)
(** * server.js: the playlist endpoint and its cache *)
(* ================================================================== *)

Module Playlist.
Import Js.

(** A synchronous call that may throw: its value, or the message of the
    error. *)
Inductive result (A : Type) : Type :=
| Ok (a : A)
| Throw (message : string).
Arguments Ok {A} a.
Arguments Throw {A} message.

(** The places the handler looks at: [__dirname], [data], [data/playlist.m3u]
    and [public/canais.m3u]. *)
Inductive Path : Type := Root | DataDir | DataPlaylist | PublicPlaylist.

(** What a GET does: the request fails, or a response comes with a status
    code and body chunks, which may or may not run to the end. *)
Inductive HttpOutcome : Type :=
| RequestError (message : string)
| Response (statusCode : N) (chunks : list string) (ended : bool).

(** The outside world of a request: the file system, the base64 decoder
    [Buffer.from(s, 'base64').toString('utf-8')], and the HTTP client, which
    is told whether the [https] module is used. *)
Record World : Type := mkWorld {
  readdirSync : Path -> result (list string);
  existsSync : Path -> bool;
  readFileSync : Path -> result string;
  decodeBase64 : string -> string;
  httpGet : bool -> string -> HttpOutcome
}.

(** [fetchUrl]: how the promise settles, [None] when it never does. *)
Definition fetchUrl (w : World) (url : string) : option (result string) :=
  match httpGet w (startsWith url "https") url with
  | RequestError message => Some (Throw message)
  | Response statusCode chunks ended =>
      if negb (statusCode =? 200)%N
      then Some (Throw ("HTTP " ++ decimalN statusCode))
      else if ended then Some (Ok (fold_left append chunks EmptyString))
      else None
  end.

(** [playlistCache] and [playlistCacheTime]; [None] is [null]. *)
Record Cache : Type := mkCache {
  playlistCache : option string;
  playlistCacheTime : Z
}.

Definition emptyCache : Cache := mkCache None 0.

Definition CACHE_DURATION : Z := 60 * 60 * 1000.

(** What the handler sends: the playlist text (status 200, content type
    audio/x-mpegurl), the 404 object (error Playlist not configured, with
    the file list), the 500 object (error Failed to load playlist, with the
    message); [NoReply] when the fetch never settles. *)
Inductive Reply : Type :=
| Served (content : string)
| NotConfigured (files : list string)
| Failed (details : string)
| NoReply.

Definition status (r : Reply) : option Z :=
  match r with
  | Served _ => Some 200%Z
  | NotConfigured _ => Some 404%Z
  | Failed _ => Some 500%Z
  | NoReply => None
  end.

(** The content the cache check serves at time [now], if any. *)
Definition cached (c : Cache) (now : Z) : option string :=
  match playlistCache c with
  | Some content =>
      if truthy content && (now - playlistCacheTime c <? CACHE_DURATION)%Z
      then Some content else None
  | None => None
  end.

(** What the [try] block comes to after the cache check: it throws, never
    settles, returns the 404, or has the content. *)
Inductive Loaded : Type :=
| Content (content : string)
| Thrown (message : string)
| Missing (files : list string)
| Hanging.

Definition andThen {A : Type} (x : result A) (k : A -> Loaded) : Loaded :=
  match x with
  | Ok a => k a
  | Throw message => Thrown message
  end.

(** The three sources, in the order of the [if] chain. *)
Definition chooseSource (M3U_BASE64 M3U_URL : string) (w : World) : Loaded :=
  if truthy M3U_BASE64 then Content (decodeBase64 w M3U_BASE64)
  else if truthy M3U_URL then
    match fetchUrl w M3U_URL with
    | Some (Ok data) => Content data
    | Some (Throw message) => Thrown message
    | None => Hanging
    end
  else if existsSync w DataPlaylist then
    andThen (readFileSync w DataPlaylist) Content
  else if existsSync w PublicPlaylist then
    andThen (readFileSync w PublicPlaylist) Content
  else andThen (readdirSync w Root) Missing.

(** The load, with the directory listings of the debug log that precede
    it. *)
Definition load (M3U_BASE64 M3U_URL : string) (w : World) : Loaded :=
  andThen (readdirSync w Root) (fun _ =>
    if existsSync w DataDir
    then andThen (readdirSync w DataDir)
           (fun _ => chooseSource M3U_BASE64 M3U_URL w)
    else chooseSource M3U_BASE64 M3U_URL w).

(** The handler of [GET /api/playlist]: the reply and the cache after it.
    [now] is the clock at the cache check, [later] the clock when the
    loaded content is stored. *)
Definition handler (M3U_BASE64 M3U_URL : string) (w : World) (now later : Z)
    (c : Cache) : Reply * Cache :=
  match cached c now with
  | Some content => (Served content, c)
  | None =>
      match load M3U_BASE64 M3U_URL w with
      | Content content => (Served content, mkCache (Some content) later)
      | Thrown message => (Failed message, c)
      | Missing files => (NotConfigured files, c)
      | Hanging => (NoReply, c)
      end
  end.

(** A world with nothing on disk and an upstream that answers 404. *)
Definition bareWorld : World :=
  {| readdirSync := fun _ => Ok ["server.js"];
     existsSync := fun _ => false;
     readFileSync := fun _ => Throw "ENOENT";
     decodeBase64 := fun s => s;
     httpGet := fun _ _ => Response 404 [] true |}.

(** A world whose URL serves a playlist in two chunks. *)
Definition servingWorld : World :=
  {| readdirSync := fun _ => Ok ["server.js"];
     existsSync := fun _ => false;
     readFileSync := fun _ => Throw "ENOENT";
     decodeBase64 := fun s => s;
     httpGet := fun _ _ => Response 200 ["#EXTM3U"; "x"] true |}.

End Playlist.

(* ================================================================== *)
(** * Facts about strings *)
(* ================================================================== *)

Section StringFacts.
Import Js.

Lemma truthy_nonempty (s : string) : truthy s = true <-> s <> EmptyString.
Proof.
  destruct s; simpl; split; intros H; try congruence; try discriminate.
  reflexivity.
Qed.

Lemma append_nil_r (s : string) : s ++ EmptyString = s.
Proof. induction s; simpl; congruence. Qed.

Lemma append_assoc (a b c : string) : (a ++ b) ++ c = a ++ b ++ c.
Proof. induction a; simpl; congruence. Qed.

Lemma length_append (a b : string) :
  String.length (a ++ b) = (String.length a + String.length b)%nat.
Proof. induction a; simpl; congruence. Qed.

Lemma substring_prefix (a b : string) :
  String.substring 0 (String.length a) (a ++ b) = a.
Proof.
  induction a as [|c a IH]; simpl.
  - destruct b; reflexivity.
  - now rewrite IH.
Qed.

Lemma startsWith_hash_of_extinf (s : string) :
  startsWith s "#EXTINF:" = true -> startsWith s "#" = true.
Proof.
  destruct s as [|c s]; cbn [startsWith]; [discriminate|].
  destruct (Ascii.eqb "#" c); [|discriminate].
  intros _. now destruct s.
Qed.

Lemma startsWith_app (p rest : string) : startsWith (p ++ rest) p = true.
Proof.
  induction p as [|c p IH]; [now destruct rest|].
  cbn [append startsWith]. now rewrite Ascii.eqb_refl, IH.
Qed.


End StringFacts.

(* ================================================================== *)
(** * The parser loop *)
(* ================================================================== *)

Section ParserFacts.
Import Js M3U.

(** The three behaviours of an iteration, by the kind of its line. *)
Lemma step_cases (p : Pending) (channels : list Channel) (raw : string) :
  step (p, channels) raw =
    if isUrlLine raw then
      (initial, (channels ++ [makeEntry p (List.length channels) (trim raw)])%list)
    else if isExtinfLine raw then (readExtinf (trim raw), channels)
    else (p, channels).
Proof.
  unfold step, isUrlLine, isExtinfLine.
  destruct (truthy (trim raw)) eqn:Ht; cbn [negb andb].
  - destruct (startsWith (trim raw) "#EXTINF:") eqn:He.
    + now rewrite (startsWith_hash_of_extinf _ He).
    + now destruct (startsWith (trim raw) "#").
  - destruct (trim raw); [reflexivity | discriminate].
Qed.

Lemma makeEntry_url (p : Pending) (n : nat) (line : string) :
  url (makeEntry p n line) = line.
Proof.
  unfold makeEntry. now destruct (seriesCheck (currentName p)) as [[? ?] ?].
Qed.

Lemma run_app (l1 l2 : list string) (st : Pending * list Channel) :
  run (l1 ++ l2)%list st = run l2 (run l1 st).
Proof. apply fold_left_app. Qed.

Lemma run_cons (raw : string) (l : list string) (st : Pending * list Channel) :
  run (raw :: l) st = run l (step st raw).
Proof. reflexivity. Qed.

(** An invariant of the accumulated entries that every iteration keeps is
    true of the result. *)
Lemma run_invariant (P : list Channel -> Prop) :
  (forall p channels raw, P channels -> P (snd (step (p, channels) raw))) ->
  forall lines p channels, P channels -> P (snd (run lines (p, channels))).
Proof.
  intros Hstep lines.
  induction lines as [|raw lines IH]; intros p channels HP; [exact HP|].
  rewrite run_cons.
  destruct (step (p, channels) raw) as [p' channels'] eqn:E.
  apply IH. specialize (Hstep p channels raw HP). now rewrite E in Hstep.
Qed.

(** The loop only appends: the entries it adds are determined by the lines,
    the pending fields and the number of entries already present. *)
Lemma run_appends (lines : list string) :
  forall p channels channels',
    List.length channels = List.length channels' ->
    exists added,
      run lines (p, channels) =
        (fst (run lines (p, channels')), (channels ++ added)%list) /\
      snd (run lines (p, channels')) = (channels' ++ added)%list /\
      map url added = map trim (filter isUrlLine lines).
Proof.
  induction lines as [|raw lines IH]; intros p channels channels' Hlen.
  - exists []. simpl. now rewrite !app_nil_r.
  - rewrite !run_cons, !step_cases, Hlen.
    destruct (isUrlLine raw) eqn:Hu.
    + destruct (IH initial
                  (channels ++ [makeEntry p (List.length channels') (trim raw)])%list
                  (channels' ++ [makeEntry p (List.length channels') (trim raw)])%list)
        as (added & E1 & E2 & E3).
      { now rewrite !length_app, Hlen. }
      exists (makeEntry p (List.length channels') (trim raw) :: added).
      rewrite E1, E2, <- !app_assoc. simpl. repeat split.
      now rewrite Hu, E3, makeEntry_url.
    + simpl filter. rewrite Hu.
      destruct (isExtinfLine raw); now apply IH.
Qed.

Lemma parseLines_urls (lines : list string) :
  map url (parseLines lines) = map trim (filter isUrlLine lines).
Proof.
  unfold parseLines.
  destruct (run_appends lines initial [] [] eq_refl) as (added & _ & E & Hu).
  now rewrite E.
Qed.

Lemma parseLines_length (lines : list string) :
  List.length (parseLines lines) = List.length (filter isUrlLine lines).
Proof.
  rewrite <- (length_map url), parseLines_urls. now rewrite length_map.
Qed.

End ParserFacts.

Section ParserClaims.
Import Js M3U.

Lemma skipn_past {A : Type} (b : list A) (e : A) (added : list A) :
  skipn (S (List.length b)) (b ++ e :: added)%list = added.
Proof. induction b as [|x b IH]; [reflexivity | exact IH]. Qed.

Lemma run_fst_after_url (pre : list string) (v : string)
    (st : Pending * list Channel) :
  isUrlLine v = true -> fst (run (pre ++ [v])%list st) = initial.
Proof.
  intros Hv. rewrite run_app. destruct (run pre st) as [p channels].
  cbn [run fold_left]. now rewrite step_cases, Hv.
Qed.

Lemma run_fst_no_extinf (gap : list string) :
  Forall (fun raw => isExtinfLine raw = false) gap ->
  forall channels, fst (run gap (initial, channels)) = initial.
Proof.
  induction 1 as [|raw gap Hraw _ IH]; intros channels; [reflexivity|].
  rewrite run_cons, step_cases, Hraw.
  destruct (isUrlLine raw); apply IH.
Qed.

Lemma run_snd_length (lines : list string) (p : Pending) :
  List.length (snd (run lines (p, []))) = List.length (filter isUrlLine lines).
Proof.
  destruct (run_appends lines p [] [] eq_refl) as (added & _ & E & Hu).
  rewrite E. cbn [app]. rewrite <- (length_map url), Hu. apply length_map.
Qed.

(** The entries of [pre ++ u :: rest], for a playback line [u]: those of
    [pre], the entry of [u], and entries that depend on [rest] and on the
    number of entries before them only. *)
Lemma parseLines_at_url (pre rest : list string) (u : string) :
  isUrlLine u = true ->
  exists before added,
    parseLines (pre ++ u :: rest) =
      (before ++ makeEntry (fst (run pre (initial, []))) (List.length before)
                   (trim u) :: added)%list /\
    List.length before = List.length (filter isUrlLine pre) /\
    forall channels,
      List.length channels = S (List.length before) ->
      snd (run rest (initial, channels)) = (channels ++ added)%list.
Proof.
  intros Hu. unfold parseLines. rewrite run_app, run_cons.
  pose proof (run_snd_length pre initial) as Hlen.
  destruct (run pre (initial, [])) as [p before]. cbn [fst snd] in *.
  rewrite step_cases, Hu.
  set (e := makeEntry p (List.length before) (trim u)).
  destruct (run_appends rest initial (before ++ [e])%list (before ++ [e])%list
              eq_refl) as (added & _ & E & _).
  exists before, added. rewrite E, <- app_assoc. repeat split; trivial.
  intros channels Hc.
  destruct (run_appends rest initial channels (before ++ [e])%list)
    as (added' & E1 & E2 & _).
  { rewrite length_app. cbn. lia. }
  rewrite E in E2. apply app_inv_head in E2. subst added'. now rewrite E1.
Qed.

(** C9.  Whatever the playlist text, no entry of the parse has an empty
    playback URL: a line reaches the entry-building branch only when it is
    not blank after trimming, and the entry's URL is that trimmed line. *)
Theorem C9_playbackUrl_never_empty (content : string) :
  Forall (fun c => url c <> EmptyString) (parseM3U content).
Proof.
  apply Forall_forall. intros c Hc.
  apply (in_map url) in Hc. unfold parseM3U in Hc.
  rewrite parseLines_urls in Hc.
  apply in_map_iff in Hc. destruct Hc as (raw & <- & Hraw).
  apply filter_In in Hraw. destruct Hraw as [_ Hraw].
  unfold isUrlLine in Hraw. apply andb_prop in Hraw.
  now apply truthy_nonempty.
Qed.

(** C3.  (1) The entries are, in order, exactly the lines that are neither
    blank nor start with [#]: one entry for each, carrying the trimmed line.
    (2) Such a line with no metadata line pending (the lines since the start
    or since some earlier playback line hold no [#EXTINF:] line) yields the
    entry with name Unknown Channel, group Uncategorized, empty logo, id
    ch-index and no series field.  (3) The iteration that builds an entry
    leaves the pending fields at their defaults.  (4) Hence what stands
    before a playback line, its metadata included, changes nothing in the
    entries after it: two texts that agree after a playback line, with as
    many entries before it, have the same entries from there on. *)
Theorem C3_one_entry_per_line_and_reset :
  (forall content,
     map url (parseM3U content) =
       map trim (filter isUrlLine (split newline content))) /\
  (forall content pre gap rest u,
     split newline content = ((pre ++ gap) ++ u :: rest)%list ->
     (pre = [] \/ exists pre0 v, pre = (pre0 ++ [v])%list /\ isUrlLine v = true) ->
     Forall (fun raw => isExtinfLine raw = false) gap ->
     isUrlLine u = true ->
     let index := List.length (filter isUrlLine (pre ++ gap)) in
     nth_error (parseM3U content) index =
       Some {| id := "ch-" ++ decimal index; name := "Unknown Channel";
               logo := EmptyString; group := "Uncategorized"; url := trim u;
               seriesName := None; season := None; episode := None |}) /\
  (forall st u, isUrlLine u = true -> fst (step st u) = initial) /\
  (forall content content' pre pre' rest u u',
     split newline content = (pre ++ u :: rest)%list ->
     split newline content' = (pre' ++ u' :: rest)%list ->
     isUrlLine u = true -> isUrlLine u' = true ->
     List.length (filter isUrlLine pre) = List.length (filter isUrlLine pre') ->
     skipn (S (List.length (filter isUrlLine pre))) (parseM3U content) =
     skipn (S (List.length (filter isUrlLine pre'))) (parseM3U content')).
Proof.
  split; [|split; [|split]].
  - intros content. apply parseLines_urls.
  - intros content pre gap rest u Hlines Hpre Hgap Hu index.
    unfold parseM3U. rewrite Hlines.
    destruct (parseLines_at_url (pre ++ gap) rest u Hu)
      as (before & added & E & Hlen & _).
    assert (Hp : fst (run (pre ++ gap) (initial, [])) = initial).
    { rewrite run_app. destruct Hpre as [-> | (pre0 & v & -> & Hv)].
      - now apply run_fst_no_extinf.
      - pose proof (run_fst_after_url pre0 v (initial, []) Hv) as Hi.
        destruct (run (pre0 ++ [v]) (initial, [])) as [p channels].
        cbn [fst] in Hi. subst p. now apply run_fst_no_extinf. }
    rewrite E, Hp. subst index. rewrite <- Hlen.
    rewrite nth_error_app2, Nat.sub_diag by lia. reflexivity.
  - intros [p channels] u Hu. now rewrite step_cases, Hu.
  - intros content content' pre pre' rest u u' Hlines Hlines' Hu Hu' Hcount.
    unfold parseM3U. rewrite Hlines, Hlines'.
    destruct (parseLines_at_url pre rest u Hu) as (b & added & E & Hlen & Hrest).
    destruct (parseLines_at_url pre' rest u' Hu') as (b' & added' & E' & Hlen' & Hrest').
    set (e := makeEntry (fst (run pre (initial, []))) (List.length b) (trim u)) in *.
    assert (added = added').
    { assert (H1 : List.length (b ++ [e])%list = S (List.length b))
        by (rewrite length_app; cbn; lia).
      assert (H2 : List.length (b ++ [e])%list = S (List.length b'))
        by (rewrite length_app; cbn; lia).
      specialize (Hrest _ H1). specialize (Hrest' _ H2).
      rewrite Hrest in Hrest'. now apply app_inv_head in Hrest'. }
    subst added'. rewrite E, E', <- Hlen, <- Hlen'.
    now rewrite !skipn_past.
Qed.

End ParserClaims.

(* ================================================================== *)
(** * The backtracking matcher against the declarative matches *)
(* ================================================================== *)

Section RegexFacts.
Import Js Regex.

Lemma strip_sound (ci : bool) (l : string) :
  forall s s', strip ci l s = Some s' ->
    exists a, s = a ++ s' /\ strip ci l a = Some EmptyString /\
              String.length a = String.length l.
Proof.
  induction l as [|x l IH]; intros s s' H; cbn [strip] in H.
  - injection H as <-. now exists EmptyString.
  - destruct s as [|b s]; [discriminate|].
    destruct (char_eq ci x b) eqn:E; [|discriminate].
    destruct (IH _ _ H) as (a & -> & Ha & Hl).
    exists (String b a). cbn [strip String.length append].
    rewrite E, Ha, Hl. auto.
Qed.

Lemma strip_complete (ci : bool) (l : string) :
  forall a s', strip ci l a = Some EmptyString -> strip ci l (a ++ s') = Some s'.
Proof.
  induction l as [|x l IH]; intros a s' H; cbn [strip] in H |- *.
  - now injection H as ->.
  - destruct a as [|b a]; [discriminate|]. cbn [append].
    destruct (char_eq ci x b); [now apply IH | discriminate].
Qed.

Lemma strip_length (ci : bool) (l : string) :
  forall a, strip ci l a = Some EmptyString -> String.length a = String.length l.
Proof.
  intros a H. destruct (strip_sound ci l a _ H) as (a' & E & _ & Hl).
  rewrite append_nil_r in E. now subst a'.
Qed.

Lemma rep_greedy_sound (p : ascii -> bool) (min : nat)
    (k : nat -> string -> option (list string)) (res : list string) :
  forall s n i, rep_greedy p min n i s k = Some res ->
    exists a s', s = a ++ s' /\ all p a = true /\
                 (min <= n + String.length a)%nat /\
                 k (i + String.length a)%nat s' = Some res.
Proof.
  assert (Hstop : forall s n i,
            (if Nat.leb min n then k i s else None) = Some res ->
            exists a s', s = a ++ s' /\ all p a = true /\
                         (min <= n + String.length a)%nat /\
                         k (i + String.length a)%nat s' = Some res).
  { intros s n i H. destruct (Nat.leb min n) eqn:E; [|discriminate].
    apply Nat.leb_le in E. exists EmptyString, s. cbn.
    rewrite !Nat.add_0_r. auto. }
  induction s as [|c s IH]; intros n i H; cbn [rep_greedy] in H.
  - now apply Hstop.
  - destruct (p c) eqn:Hc; [|now apply Hstop].
    destruct (rep_greedy p min (S n) (S i) s k) eqn:E; [|now apply Hstop].
    injection H as ->.
    destruct (IH _ _ E) as (a & s' & -> & Ha & Hm & Hk).
    exists (String c a), s'. cbn [append all String.length].
    rewrite Hc, Ha, !Nat.add_succ_r. auto.
Qed.

Lemma rep_lazy_sound (p : ascii -> bool) (min : nat)
    (k : nat -> string -> option (list string)) (res : list string) :
  forall s n i, rep_lazy p min n i s k = Some res ->
    exists a s', s = a ++ s' /\ all p a = true /\
                 (min <= n + String.length a)%nat /\
                 k (i + String.length a)%nat s' = Some res.
Proof.
  induction s as [|c s IH]; intros n i H; cbn [rep_lazy] in H.
  - destruct (Nat.leb min n) eqn:E; [|discriminate].
    destruct (k i EmptyString) eqn:Ek; [|discriminate].
    injection H as ->. apply Nat.leb_le in E.
    exists EmptyString, EmptyString. cbn. rewrite !Nat.add_0_r. auto.
  - assert (Hmore : (if p c then rep_lazy p min (S n) (S i) s k else None)
                    = Some res ->
            exists a s', String c s = a ++ s' /\ all p a = true /\
                         (min <= n + String.length a)%nat /\
                         k (i + String.length a)%nat s' = Some res).
    { intros Hm. destruct (p c) eqn:Hc; [|discriminate].
      destruct (IH _ _ Hm) as (a & s' & -> & Ha & Hl & Hk).
      exists (String c a), s'. cbn [append all String.length].
      rewrite Hc, Ha, !Nat.add_succ_r. auto. }
    destruct (Nat.leb min n) eqn:E; [|now apply Hmore].
    destruct (k i (String c s)) eqn:Ek; [|now apply Hmore].
    injection H as ->. apply Nat.leb_le in E.
    exists EmptyString, (String c s). cbn. rewrite !Nat.add_0_r. auto.
Qed.

Lemma rep_greedy_complete (p : ascii -> bool) (min : nat)
    (k : nat -> string -> option (list string)) (s' : string) :
  forall a n i, all p a = true -> (min <= n + String.length a)%nat ->
    k (i + String.length a)%nat s' <> None ->
    rep_greedy p min n i (a ++ s') k <> None.
Proof.
  induction a as [|c a IH]; intros n i Ha Hm Hk.
  - cbn in Hm, Hk. rewrite Nat.add_0_r in Hm, Hk.
    apply Nat.leb_le in Hm. cbn [append].
    destruct s' as [|c s']; cbn [rep_greedy]; rewrite Hm; [exact Hk|].
    destruct (p c); [|exact Hk].
    now destruct (rep_greedy p min (S n) (S i) s' k).
  - cbn [all] in Ha. apply andb_prop in Ha. destruct Ha as [Hc Ha].
    cbn [append rep_greedy]. rewrite Hc.
    cbn [String.length] in Hm, Hk. rewrite Nat.add_succ_r in Hm, Hk.
    specialize (IH (S n) (S i) Ha Hm Hk).
    now destruct (rep_greedy p min (S n) (S i) (a ++ s') k).
Qed.

Lemma rep_lazy_complete (p : ascii -> bool) (min : nat)
    (k : nat -> string -> option (list string)) (s' : string) :
  forall a n i, all p a = true -> (min <= n + String.length a)%nat ->
    k (i + String.length a)%nat s' <> None ->
    rep_lazy p min n i (a ++ s') k <> None.
Proof.
  induction a as [|c a IH]; intros n i Ha Hm Hk.
  - cbn in Hm, Hk. rewrite Nat.add_0_r in Hm, Hk.
    apply Nat.leb_le in Hm. cbn [append].
    destruct s' as [|c s']; cbn [rep_lazy]; rewrite Hm.
    + now destruct (k i EmptyString).
    + now destruct (k i (String c s')).
  - cbn [all] in Ha. apply andb_prop in Ha. destruct Ha as [Hc Ha].
    cbn [append rep_lazy]. rewrite Hc.
    cbn [String.length] in Hm, Hk. rewrite Nat.add_succ_r in Hm, Hk.
    specialize (IH (S n) (S i) Ha Hm Hk).
    destruct (Nat.leb min n); [|exact IH].
    now destruct (k i (String c (a ++ s'))).
Qed.

(** The lazy repetition stops at the first length the continuation
    accepts. *)
Lemma rep_lazy_first (p : ascii -> bool) (min : nat)
    (k : nat -> string -> option (list string)) (res : list string) :
  forall s n i, rep_lazy p min n i s k = Some res ->
    exists a s', s = a ++ s' /\ all p a = true /\
      (min <= n + String.length a)%nat /\
      k (i + String.length a)%nat s' = Some res /\
      forall a' s'', s = a' ++ s'' ->
        (String.length a' < String.length a)%nat ->
        (min <= n + String.length a')%nat ->
        k (i + String.length a')%nat s'' = None.
Proof.
  induction s as [|c s IH]; intros n i H.
  - destruct (rep_lazy_sound _ _ _ _ _ _ _ H) as (a & s' & E & Ha & Hm & Hk).
    destruct a; [|discriminate E]. exists EmptyString, s'.
    repeat split; trivial. cbn. lia.
  - cbn [rep_lazy] in H.
    assert (Hmore : (if p c then rep_lazy p min (S n) (S i) s k else None)
                    = Some res ->
                    (Nat.leb min n = true -> k i (String c s) = None) ->
            exists a s', String c s = a ++ s' /\ all p a = true /\
              (min <= n + String.length a)%nat /\
              k (i + String.length a)%nat s' = Some res /\
              forall a' s'', String c s = a' ++ s'' ->
                (String.length a' < String.length a)%nat ->
                (min <= n + String.length a')%nat ->
                k (i + String.length a')%nat s'' = None).
    { intros Hm Hnow. destruct (p c) eqn:Hc; [|discriminate].
      destruct (IH _ _ Hm) as (a & s' & -> & Ha & Hl & Hk & Hfirst).
      exists (String c a), s'. cbn [append all String.length].
      rewrite Hc, Ha, !Nat.add_succ_r. repeat split; trivial.
      intros [|c' a'] s'' E Hlt Hmin.
      - cbn in E, Hmin |- *. subst s''. rewrite Nat.add_0_r in *.
        apply Hnow. now apply Nat.leb_le.
      - cbn [append] in E. injection E as <- E.
        cbn [String.length] in *. rewrite Nat.add_succ_r in *.
        apply Hfirst; trivial. lia. }
    destruct (Nat.leb min n) eqn:E; [|apply Hmore; [exact H | discriminate]].
    destruct (k i (String c s)) eqn:Ek; [|now apply Hmore].
    injection H as ->. apply Nat.leb_le in E.
    exists EmptyString, (String c s). cbn. rewrite !Nat.add_0_r.
    repeat split; trivial. intros; lia.
Qed.

(** Under a continuation that accepts everywhere, the greedy repetition
    takes the whole run of characters of the class. *)
Lemma rep_greedy_longest (p : ascii -> bool) (min : nat)
    (k : nat -> string -> option (list string)) (res : list string) :
  (forall i s, k i s <> None) ->
  forall s n i, rep_greedy p min n i s k = Some res ->
    exists a s', s = a ++ s' /\ all p a = true /\
      (min <= n + String.length a)%nat /\
      startsIn p s' = false /\
      k (i + String.length a)%nat s' = Some res.
Proof.
  intros Hk.
  assert (Hstop : forall s n i, startsIn p s = false ->
            (if Nat.leb min n then k i s else None) = Some res ->
            exists a s', s = a ++ s' /\ all p a = true /\
              (min <= n + String.length a)%nat /\
              startsIn p s' = false /\
              k (i + String.length a)%nat s' = Some res).
  { intros s n i Hs H. destruct (Nat.leb min n) eqn:E; [|discriminate].
    apply Nat.leb_le in E. exists EmptyString, s. cbn.
    rewrite !Nat.add_0_r. auto. }
  induction s as [|c s IH]; intros n i H; cbn [rep_greedy] in H.
  - now apply Hstop.
  - destruct (p c) eqn:Hc; [|now apply Hstop].
    destruct (rep_greedy p min (S n) (S i) s k) eqn:E.
    + injection H as ->.
      destruct (IH _ _ E) as (a & s' & -> & Ha & Hm & Hs & Hr).
      exists (String c a), s'. cbn [append all String.length].
      rewrite Hc, Ha, !Nat.add_succ_r. auto.
    + exfalso. destruct (Nat.leb min n) eqn:El; [|discriminate].
      apply Nat.leb_le in El.
      apply (rep_greedy_complete p min k s EmptyString (S n) (S i));
        cbn; trivial; lia.
Qed.

End RegexFacts.

(** Take apart the declarative matches of a compound pattern. *)
Ltac invert_matches :=
  repeat match goal with
  | H : Regex.Matches _ (Regex.Cat _ _) _ _ _ |- _ => inversion H; subst; clear H
  | H : Regex.Matches _ (Regex.Cap _) _ _ _ |- _ => inversion H; subst; clear H
  | H : Regex.Matches _ (Regex.Rep _ _ _) _ _ _ |- _ => inversion H; subst; clear H
  | H : Regex.Matches _ (Regex.Lit _) _ _ _ |- _ => inversion H; subst; clear H
  | H : Regex.Matches _ Regex.Bol _ _ _ |- _ => inversion H; subst; clear H
  end.

Section MatcherFacts.
Import Js Regex.
Variable ci : bool.

(** Soundness: a result of the matcher comes from a declarative match of a
    prefix of the input, continued by the continuation. *)
Lemma m_sound (r : regex) :
  forall i s caps (k : cont) res,
    m ci r i s caps k = Some res ->
    exists a s' cs,
      s = a ++ s' /\ Matches ci r i a cs /\
      k (i + String.length a)%nat s' (caps ++ cs)%list = Some res.
Proof.
  induction r as [|l|p|g min p|r IH|r IH|r1 IH1 r2 IH2];
    intros i s caps k res H; cbn [m] in H.
  - destruct (Nat.eqb i 0) eqn:E; [|discriminate].
    apply Nat.eqb_eq in E. subst i.
    exists EmptyString, s, []. cbn. rewrite app_nil_r.
    repeat split; [constructor | exact H].
  - destruct (strip ci l s) as [s'|] eqn:E; [|discriminate].
    destruct (strip_sound _ _ _ _ E) as (a & -> & Ha & Hl).
    exists a, s', []. rewrite app_nil_r, Hl.
    repeat split; [now constructor | exact H].
  - destruct s as [|c s]; [discriminate|].
    destruct (p c) eqn:Hc; [|discriminate].
    exists (String c EmptyString), s, []. cbn. rewrite app_nil_r, Nat.add_1_r.
    repeat split; [now constructor | exact H].
  - assert (exists a s', s = a ++ s' /\ all p a = true /\
              (min <= 0 + String.length a)%nat /\
              k (i + String.length a)%nat s' caps = Some res)
      as (a & s' & -> & Ha & Hm & Hk).
    { destruct g; [eapply rep_greedy_sound in H | eapply rep_lazy_sound in H];
        exact H. }
    exists a, s', []. rewrite app_nil_r.
    repeat split; [now constructor | exact Hk].
  - destruct (m ci r i s caps k) eqn:E.
    + injection H as ->.
      destruct (IH _ _ _ _ _ E) as (a & s' & cs & -> & Hm & Hk).
      exists a, s', cs. repeat split; [now apply MOptTake | exact Hk].
    + exists EmptyString, s, []. cbn. rewrite app_nil_r, Nat.add_0_r.
      repeat split; [constructor | exact H].
  - destruct (IH _ _ _ _ _ H) as (a & s' & cs & -> & Hm & Hk).
    exists a, s', (cs ++ [a])%list.
    replace (i + String.length a - i)%nat with (String.length a) in Hk by lia.
    rewrite substring_prefix, <- app_assoc in Hk.
    repeat split; [now constructor | exact Hk].
  - destruct (IH1 _ _ _ _ _ H) as (a1 & s1 & c1 & -> & Hm1 & Hk1).
    destruct (IH2 _ _ _ _ _ Hk1) as (a2 & s2 & c2 & -> & Hm2 & Hk2).
    exists (a1 ++ a2), s2, (c1 ++ c2)%list.
    rewrite append_assoc, length_append, Nat.add_assoc, app_assoc.
    repeat split; [now constructor | exact Hk2].
Qed.

(** Completeness: where a declarative match exists that the continuation
    accepts, the matcher finds a result. *)
Lemma m_complete (r : regex) (i : nat) (a : string) (cs : list string) :
  Matches ci r i a cs ->
  forall s' caps (k : cont),
    k (i + String.length a)%nat s' (caps ++ cs)%list <> None ->
    m ci r i (a ++ s') caps k <> None.
Proof.
  induction 1 as [|l a i Hl|p c i Hc|g min p a i Ha Hmin|r i|r i a cs _ IH
                  |r i a cs _ IH|r1 r2 i a1 a2 c1 c2 _ IH1 _ IH2];
    intros s' caps k Hk; cbn [m].
  - cbn in Hk |- *. now rewrite app_nil_r in Hk.
  - rewrite (strip_complete _ _ _ _ Hl).
    now rewrite app_nil_r, (strip_length _ _ _ Hl) in Hk.
  - cbn [append]. rewrite Hc.
    cbn in Hk. now rewrite app_nil_r, Nat.add_1_r in Hk.
  - rewrite app_nil_r in Hk.
    destruct g; [apply rep_greedy_complete | apply rep_lazy_complete];
      trivial.
  - cbn in Hk |- *. rewrite app_nil_r, Nat.add_0_r in Hk.
    now destruct (m ci r i s' caps k).
  - specialize (IH s' caps k Hk).
    now destruct (m ci r i (a ++ s') caps k).
  - apply IH.
    replace (i + String.length a - i)%nat with (String.length a) by lia.
    now rewrite substring_prefix, <- app_assoc.
  - rewrite append_assoc. apply IH1, IH2.
    now rewrite <- Nat.add_assoc, <- length_append, <- app_assoc.
Qed.

(** A pattern that starts with [^] matches at index 0 only. *)
Lemma search_anchored (r : regex) (s : string) :
  search ci (Cat Bol r) 0 s = m ci (Cat Bol r) 0 s [] accept.
Proof.
  assert (Hlater : forall s i, search ci (Cat Bol r) (S i) s = None).
  { clear s. induction s as [|c s IH]; intros i; cbn; trivial. }
  destruct s as [|c s]; cbn [search].
  - now destruct (m ci (Cat Bol r) 0 EmptyString [] accept).
  - rewrite Hlater. now destruct (m ci (Cat Bol r) 0 (String c s) [] accept).
Qed.

(** The leftmost search finds a declarative match somewhere in the input. *)
Lemma search_sound (r : regex) :
  forall s i caps, search ci r i s = Some caps ->
    exists pre a s', s = pre ++ a ++ s' /\
                     Matches ci r (i + String.length pre) a caps.
Proof.
  induction s as [|c s IH]; intros i caps H; cbn [search] in H.
  - destruct (m ci r i EmptyString [] accept) eqn:E; [|discriminate].
    injection H as ->.
    destruct (m_sound _ _ _ _ _ _ E) as (a & s' & cs & Hs & Hm & Hk).
    injection Hk as <-. exists EmptyString, a, s'.
    cbn. now rewrite Nat.add_0_r.
  - destruct (m ci r i (String c s) [] accept) eqn:E.
    + injection H as ->.
      destruct (m_sound _ _ _ _ _ _ E) as (a & s' & cs & Hs & Hm & Hk).
      injection Hk as <-. exists EmptyString, a, s'.
      cbn. now rewrite Nat.add_0_r.
    + destruct (IH _ _ H) as (pre & a & s' & -> & Hm).
      exists (String c pre), a, s'. cbn [append String.length].
      now rewrite Nat.add_succ_r.
Qed.

End MatcherFacts.

Section MatcherSearch.
Import Js Regex.

Lemma strip_app (ci : bool) (l t : string) : strip ci l (l ++ t) = Some t.
Proof.
  induction l as [|a l IH]; [reflexivity|].
  cbn [append strip]. unfold char_eq.
  destruct ci; now rewrite Ascii.eqb_refl.
Qed.

Lemma strip_refl (ci : bool) (l : string) : strip ci l l = Some EmptyString.
Proof. rewrite <- (append_nil_r l) at 2. apply strip_app. Qed.

Lemma search_here (ci : bool) (r : regex) (i : nat) (s : string)
    (caps : list string) :
  m ci r i s [] accept = Some caps -> search ci r i s = Some caps.
Proof. intros H. destruct s; cbn [search]; now rewrite H. Qed.

(** The leftmost search finds a match wherever one exists. *)
Lemma search_complete (ci : bool) (r : regex) (a s' : string)
    (cs : list string) :
  forall pre i,
    Matches ci r (i + String.length pre) a cs ->
    search ci r i (pre ++ a ++ s') <> None.
Proof.
  induction pre as [|c pre IH]; intros i H.
  - cbn [String.length append] in *. rewrite Nat.add_0_r in H.
    assert (m ci r i (a ++ s') [] accept <> None) as Hm
      by (apply (m_complete ci r i a cs H); discriminate).
    destruct (m ci r i (a ++ s') [] accept) eqn:E; [|congruence].
    rewrite (search_here _ _ _ _ _ E). discriminate.
  - cbn [append search].
    destruct (m ci r i (String c (pre ++ a ++ s')) [] accept);
      [discriminate|].
    apply IH. cbn [String.length] in H. now rewrite Nat.add_succ_r in H.
Qed.

End MatcherSearch.

(* ================================================================== *)
(** * Series inference *)
(* ================================================================== *)

Section SeriesInference.
Import Js Regex M3U.

(** An integer of at most 53 bits is a double. *)
Lemma roundToDouble_small (z : Z) :
  (0 <= z <= 2 ^ 53)%Z -> roundToDouble z = z.
Proof.
  intros [H0 H53]. unfold roundToDouble.
  destruct (Z.eq_dec z (2 ^ 53)) as [->|Hne]; [reflexivity|].
  destruct (Z.eq_dec z 0) as [->|Hz]; [reflexivity|].
  assert (Z.log2 z < 53)%Z as Hlog by (apply Z.log2_lt_pow2; lia).
  now rewrite (proj2 (Z.ltb_lt _ _) Hlog).
Qed.

Lemma toNumber_small (z : Z) :
  (0 <= z <= 2 ^ 53)%Z -> toNumber z = z.
Proof.
  intros H. unfold toNumber.
  rewrite Z.abs_eq, roundToDouble_small by lia.
  assert (z < infinity)%Z as Hlt.
  { apply Z.le_lt_trans with (2 ^ 53)%Z; [lia|].
    unfold infinity. apply Z.pow_lt_mono_r; lia. }
  rewrite (proj2 (Z.leb_gt _ _) Hlt).
  now rewrite (proj2 (Z.ltb_ge _ _) (proj1 H)).
Qed.

(** Rounding does not go below the leading bit. *)
Lemma roundToDouble_leading_bit (z : Z) :
  (2 ^ 53 <= z)%Z -> (2 ^ Z.log2 z <= roundToDouble z)%Z.
Proof.
  intros H. assert (0 < z)%Z as Hpos by lia.
  assert (53 <= Z.log2 z)%Z as Hlog by (apply Z.log2_le_pow2; lia).
  unfold roundToDouble. rewrite (proj2 (Z.ltb_ge _ _) Hlog).
  set (sh := (Z.log2 z - 52)%Z).
  assert (0 < sh)%Z as Hsh by (unfold sh; lia).
  set (q := Z.shiftr z sh).
  assert (2 ^ 52 <= q)%Z as Hq.
  { unfold q. rewrite Z.shiftr_div_pow2 by lia.
    apply Z.div_le_lower_bound; [apply Z.pow_pos_nonneg; lia|].
    rewrite <- Z.pow_add_r by lia.
    replace (sh + 52)%Z with (Z.log2 z) by (unfold sh; lia).
    apply Z.log2_spec. exact Hpos. }
  match goal with
  | |- (_ <= Z.shiftl ?q' sh)%Z => assert (q <= q')%Z as Hq'
  end.
  { destruct (_ || _); lia. }
  rewrite Z.shiftl_mul_pow2 by lia.
  replace (Z.log2 z) with (52 + sh)%Z at 1 by (unfold sh; lia).
  rewrite Z.pow_add_r by lia.
  apply Z.mul_le_mono_nonneg_r; [apply Z.pow_nonneg; lia | lia].
Qed.

(** An integer past the largest double gives [Infinity]. *)
Lemma toNumber_overflow (z : Z) :
  (infinity <= z)%Z -> toNumber z = infinity.
Proof.
  unfold infinity. intros H.
  assert (0 < 2 ^ 1024)%Z as Hpos by (apply Z.pow_pos_nonneg; lia).
  assert (2 ^ 53 <= z)%Z as H53.
  { apply Z.le_trans with (2 ^ 1024)%Z; [|exact H].
    apply Z.pow_le_mono_r; lia. }
  assert (1024 <= Z.log2 z)%Z as Hlog by (apply Z.log2_le_pow2; lia).
  pose proof (roundToDouble_leading_bit z H53) as Hr.
  assert (2 ^ 1024 <= roundToDouble z)%Z as Hbig.
  { apply Z.le_trans with (2 ^ Z.log2 z)%Z; [|exact Hr].
    apply Z.pow_le_mono_r; lia. }
  unfold toNumber, infinity. rewrite Z.abs_eq by lia.
  rewrite (proj2 (Z.leb_le _ _) Hbig).
  now rewrite (proj2 (Z.ltb_ge z 0) ltac:(lia)).
Qed.

Lemma digits_from_nonneg (s : string) :
  forall acc, (0 <= acc)%Z -> (0 <= digits_from acc s)%Z.
Proof.
  induction s as [|c s IH]; intros acc H; cbn [digits_from]; [exact H|].
  destruct (is_digit c) eqn:E; [|exact H]. apply IH.
  assert (0 <= digit_val c)%Z as Hc.
  { destruct c as [[] [] [] [] [] [] [] []]; try discriminate E;
      vm_compute; discriminate. }
  lia.
Qed.

Lemma parseInt10_digit_run (c : ascii) (s : string) :
  is_digit c = true ->
  parseInt10 (String c s) = Some (toNumber (digits_from 0 (String c s))).
Proof.
  destruct c as [[] [] [] [] [] [] [] []]; intros H;
    try discriminate H; reflexivity.
Qed.

Lemma parseInt10_digits (s : string) :
  s <> EmptyString -> all is_digit s = true ->
  parseInt10 s = Some (toNumber (digits_from 0 s)).
Proof.
  destruct s as [|c s]; [congruence|]. intros _ H.
  cbn [all] in H. apply andb_prop in H. now apply parseInt10_digit_run.
Qed.

Lemma strip_letter (x c : ascii) (a : string) (lo up : ascii) :
  (forall b, char_eq true x b = true -> b = up \/ b = lo) ->
  strip true (String x EmptyString) a = Some EmptyString ->
  exists b, a = String b EmptyString /\ (b = up \/ b = lo).
Proof.
  intros Hx H. destruct a as [|b a]; [discriminate|]. cbn [strip] in H.
  destruct (char_eq true x b) eqn:E; [|discriminate].
  injection H as ->. eauto.
Qed.

Lemma char_eq_S (b : ascii) :
  char_eq true "S" b = true -> b = "S"%char \/ b = "s"%char.
Proof.
  destruct b as [[] [] [] [] [] [] [] []]; intros H;
    try discriminate H; auto.
Qed.

Lemma char_eq_E (b : ascii) :
  char_eq true "E" b = true -> b = "E"%char \/ b = "e"%char.
Proof.
  destruct b as [[] [] [] [] [] [] [] []]; intros H;
    try discriminate H; auto.
Qed.

Lemma nonempty_of_length (s : string) :
  (1 <= String.length s)%nat -> s <> EmptyString.
Proof. destruct s; cbn; [lia | congruence]. Qed.

Lemma length_of_nonempty (s : string) :
  s <> EmptyString -> (1 <= String.length s)%nat.
Proof. destruct s; cbn; [congruence | lia]. Qed.

Lemma m_cat_sound (ci : bool) (r1 r2 : regex) (i : nat) (s : string)
    (caps : list string) (k : cont) (res : list string) :
  m ci (Cat r1 r2) i s caps k = Some res ->
  exists a s' cs,
    s = a ++ s' /\ Matches ci r1 i a cs /\
    m ci r2 (i + String.length a)%nat s' (caps ++ cs)%list k = Some res.
Proof. cbn [m]. apply m_sound. Qed.

(** A final greedy group captures the whole run of its class. *)
Lemma m_last_group (ci : bool) (min : nat) (p : ascii -> bool) (i : nat)
    (s : string) (caps res : list string) :
  m ci (Cap (Rep true min p)) i s caps accept = Some res ->
  exists a s',
    s = a ++ s' /\ all p a = true /\ (min <= String.length a)%nat /\
    startsIn p s' = false /\ res = (caps ++ [a])%list.
Proof.
  cbn [m]. intros H. apply rep_greedy_longest in H; [|discriminate].
  destruct H as (a & s' & -> & Ha & Hm & Hs & Hr).
  exists a, s'. repeat split; trivial.
  unfold accept in Hr. injection Hr as <-.
  replace (i + String.length a - i)%nat with (String.length a) by lia.
  now rewrite substring_prefix.
Qed.

Lemma seriesRe_split :
  seriesRe = Cat Bol (Cat (Cap (Rep false 0 is_dot)) seriesTail).
Proof. reflexivity. Qed.

(** The tail of the pattern matches the tokens of a name of the shape. *)
Lemma seriesTail_matches (i : nat) (w w' sd ed : string) (cS cE : ascii) :
  w <> EmptyString -> all is_space w = true ->
  (cS = "S"%char \/ cS = "s"%char) ->
  sd <> EmptyString -> all is_digit sd = true ->
  all is_space w' = true ->
  (cE = "E"%char \/ cE = "e"%char) ->
  ed <> EmptyString -> all is_digit ed = true ->
  Matches true seriesTail i
    (w ++ String cS EmptyString ++ sd ++ w' ++ String cE EmptyString ++ ed)
    [sd; ed].
Proof.
  intros Hw Hws HcS Hsd Hsds Hw's HcE Hed Heds.
  unfold seriesTail, plus, star. cbn [seq].
  change [sd; ed] with ([] ++ [] ++ ([] ++ [sd]) ++ [] ++ [] ++ ([] ++ [ed]))%list.
  repeat (first [ eapply MCat | eapply MCap ]);
    try (apply MRep; [assumption | first [ now apply length_of_nonempty | lia ]]).
  - apply MLit. destruct HcS; subst cS; reflexivity.
  - apply MLit. destruct HcE; subst cE; reflexivity.
Qed.

(** What a match of the series pattern captures. *)
Lemma seriesRe_sound (n : string) (mt : list string) :
  exec true seriesRe n = Some mt ->
  exists title sd ed rest,
    seriesMatch n title sd ed rest /\ mt = [title; sd; ed].
Proof.
  unfold exec. rewrite seriesRe_split, search_anchored. cbn [m Nat.eqb].
  intros H. apply rep_lazy_first in H.
  destruct H as (title & s1 & -> & Ht & _ & Hk & Hfirst).
  replace (0 + String.length title - 0)%nat with (String.length title) in Hk
    by lia.
  rewrite substring_prefix in Hk. cbn [app] in Hk.
  unfold seriesTail at 1, plus, star in Hk. cbn [seq] in Hk.
  apply m_cat_sound in Hk. destruct Hk as (w & s2 & c1 & -> & Hw & Hk).
  apply m_cat_sound in Hk. destruct Hk as (lS & s3 & c2 & -> & HS & Hk).
  apply m_cat_sound in Hk. destruct Hk as (sd & s4 & c3 & -> & Hsd & Hk).
  apply m_cat_sound in Hk. destruct Hk as (w' & s5 & c4 & -> & Hw' & Hk).
  apply m_cat_sound in Hk. destruct Hk as (lE & s6 & c5 & -> & HE & Hk).
  apply m_last_group in Hk.
  destruct Hk as (ed & rest & -> & Heds & Hed & Hrest & ->).
  invert_matches.
  match goal with
  | H1 : strip true "S" _ = _, H2 : strip true "E" _ = _ |- _ =>
      destruct (strip_letter _ "S" _ "s" "S" char_eq_S H1) as (cS & -> & HcS);
      destruct (strip_letter _ "E" _ "e" "E" char_eq_E H2) as (cE & -> & HcE)
  end.
  exists title, sd, ed, rest. split; [|reflexivity].
  assert (Hpat : seriesPattern
            (title ++ w ++ String cS EmptyString ++ sd ++ w' ++
             String cE EmptyString ++ ed ++ rest) title sd ed rest).
  { exists w, cS, w', cE.
    repeat split; trivial; now apply nonempty_of_length. }
  repeat split; trivial.
  intros title' sd' ed' rest'
    (v & dS & v' & dE & E & Ht' & Hv & Hvs & HdS & Hsd' & Hsds' & Hv's & HdE
     & Hed' & Heds').
  destruct (Nat.le_gt_cases (String.length title) (String.length title'))
    as [Hle|Hlt]; [exact Hle | exfalso].
  specialize (Hfirst title' _ E Hlt (Nat.le_0_l _)).
  revert Hfirst.
  replace (v ++ String dS (sd' ++ v' ++ String dE (ed' ++ rest')))
    with ((v ++ String dS EmptyString ++ sd' ++ v' ++
           String dE EmptyString ++ ed') ++ rest')
    by (cbn [append]; rewrite !append_assoc; cbn [append];
        now rewrite !append_assoc).
  eapply m_complete; [now apply seriesTail_matches | discriminate].
Qed.

(** Every name of that shape matches. *)
Lemma seriesRe_complete (n title sd ed rest : string) :
  seriesPattern n title sd ed rest -> exec true seriesRe n <> None.
Proof.
  intros (w & cS & w' & cE & -> & Ht & Hw & Hws & HcS & Hsd & Hsds & Hw's
          & HcE & Hed & Heds).
  unfold exec. rewrite seriesRe_split, search_anchored.
  replace (title ++ w ++ String cS (sd ++ w' ++ String cE (ed ++ rest)))
    with ((EmptyString ++ title ++ w ++ String cS EmptyString ++ sd ++ w' ++
           String cE EmptyString ++ ed) ++ rest)
    by (cbn [append]; rewrite !append_assoc; cbn [append];
        now rewrite !append_assoc).
  eapply m_complete; [|cbn; discriminate].
  eapply MCat; [apply MBol|].
  eapply MCat; [apply MCap, MRep; [assumption | lia]|].
  now apply seriesTail_matches.
Qed.

Lemma seriesCheck_sound (n t : string) (se ep : option Z) :
  seriesCheck n = (Some t, se, ep) ->
  exists title sd ed rest,
    seriesMatch n title sd ed rest /\
    t = trim title /\
    se = Some (toNumber (digits_from 0 sd)) /\
    ep = Some (toNumber (digits_from 0 ed)).
Proof.
  unfold seriesCheck. destruct (exec true seriesRe n) as [mt|] eqn:E;
    [|discriminate].
  destruct (seriesRe_sound _ _ E) as (title & sd & ed & rest & Hp & ->).
  cbn [grp nth Nat.sub]. intros H. injection H as <- <- <-.
  exists title, sd, ed, rest.
  pose proof Hp as Hp'.
  destruct Hp' as ((w & cS & w' & cE & Hn & Ht & Hw & Hws & HcS & Hsd & Hsds
                    & Hw's & HcE & Hed & Heds) & _).
  rewrite !parseInt10_digits by assumption.
  repeat split; trivial; apply Hp.
Qed.

Lemma seriesCheck_complete (n title sd ed rest : string) :
  seriesPattern n title sd ed rest ->
  exists t se ep, seriesCheck n = (Some t, Some se, Some ep).
Proof.
  intros Hp. pose proof (seriesRe_complete _ _ _ _ _ Hp) as Hne.
  unfold seriesCheck. destruct (exec true seriesRe n) as [mt|] eqn:E;
    [|congruence].
  destruct (seriesRe_sound _ _ E) as (title' & sd' & ed' & rest' & Hp' & ->).
  destruct Hp' as ((w & cS & w' & cE & Hn & Ht & Hw & Hws & HcS & Hsd & Hsds
                    & Hw's & HcE & Hed & Heds) & _).
  cbn [grp nth Nat.sub]. rewrite !parseInt10_digits by assumption. eauto.
Qed.

End SeriesInference.

Section SeriesClaims.
Import Js Regex M3U.

Lemma endsIn_app (p : ascii -> bool) (a b : string) :
  b <> EmptyString -> endsIn p (a ++ b) = endsIn p b.
Proof.
  intros Hb. induction a as [|c a IH]; [reflexivity|].
  cbn [append endsIn]. rewrite IH.
  destruct (a ++ b) eqn:E; [|reflexivity].
  destruct a; [cbn in E; congruence | discriminate E].
Qed.

Lemma endsIn_all (p : ascii -> bool) (s : string) :
  s <> EmptyString -> all p s = true -> endsIn p s = true.
Proof.
  induction s as [|c s IH]; [congruence|]. intros _ H.
  cbn [all] in H. apply andb_prop in H. destruct H as [Hc Hs].
  destruct s as [|c' s]; [exact Hc|]. apply IH; [discriminate | exact Hs].
Qed.

(** A name with the trailing shape ends in a digit. *)
Lemma specTrailingPattern_ends_in_digit (n : string) :
  specTrailingPattern n -> endsIn is_digit n = true.
Proof.
  intros (title & sd & ed & w & cS & w' & cE & -> & _ & _ & _ & _ & _ & _ & _
          & _ & Hed & Heds).
  rewrite append_nil_r.
  replace (title ++ w ++ String cS (sd ++ w' ++ String cE ed))
    with ((title ++ w ++ String cS (sd ++ w' ++ String cE EmptyString)) ++ ed)
    by (rewrite !append_assoc; cbn [append]; now rewrite !append_assoc).
  rewrite endsIn_app by assumption. now apply endsIn_all.
Qed.

Lemma makeEntry_series (p : Pending) (k : nat) (line : string) :
  let c := makeEntry p k line in
  (seriesName c, season c, episode c) = seriesCheck (name c).
Proof.
  unfold makeEntry.
  destruct (seriesCheck (currentName p)) as [[sn se] ep] eqn:E.
  cbn [seriesName season episode name]. unfold orElse.
  destruct (currentName p) as [|c s]; cbn [truthy isEmpty negb].
  - rewrite <- E. now vm_compute.
  - now rewrite E.
Qed.

Lemma parseLines_series (lines : list string) :
  Forall (fun c => (seriesName c, season c, episode c) = seriesCheck (name c))
         (parseLines lines).
Proof.
  unfold parseLines. apply run_invariant; [|constructor].
  intros p channels raw H. rewrite step_cases.
  destruct (isUrlLine raw); [|now destruct (isExtinfLine raw)].
  cbn [snd]. apply Forall_app. split; [exact H|].
  constructor; [apply makeEntry_series | constructor].
Qed.

(** C1, as amended.  (1) The series fields of every parsed entry are the
    inference applied to its display name.  (2) When the inference sets
    them, the name starts with a title, white space, S and season digits,
    optional white space, E and episode digits, S and E in either case; the
    title is the shortest one for which these tokens follow, the episode
    digits run up to the first non-digit, and whatever comes after them is
    ignored; the series name is the trimmed title and the two numbers are
    what [parseInt] makes of the digits: the Number value of the integer
    they write, (3) which is that integer itself up to 2^53 and the nearest
    double beyond, as for the episode 9007199254740993, which comes out as
    9007199254740992, and Infinity from 2^1024 on.  (4) Every name that starts that way has the three
    fields set, and (5) every other name leaves them unset.  (6) The name
    Breaking Bad S02 E05 gives Breaking Bad, 2 and 5, and (7) Inception
    (2010) gives no series field. *)
Theorem C1_series_inference_leading_pattern :
  (forall content c,
     In c (parseM3U content) ->
     (seriesName c, season c, episode c) = seriesCheck (name c)) /\
  (forall n t se ep,
     seriesCheck n = (Some t, se, ep) ->
     exists title sd ed rest,
       seriesMatch n title sd ed rest /\ t = trim title /\
       se = Some (toNumber (digits_from 0 sd)) /\
       ep = Some (toNumber (digits_from 0 ed))) /\
  ((forall digits,
      (digits_from 0 digits <= 2 ^ 53)%Z ->
      toNumber (digits_from 0 digits) = digits_from 0 digits) /\
   seriesCheck "Show S1 E9007199254740993"
     = (Some "Show", Some 1%Z, Some 9007199254740992%Z) /\
   (forall digits,
      (infinity <= digits_from 0 digits)%Z ->
      toNumber (digits_from 0 digits) = infinity)) /\
  (forall n title sd ed rest,
     seriesPattern n title sd ed rest ->
     exists t se ep, seriesCheck n = (Some t, Some se, Some ep)) /\
  (forall n,
     (forall title sd ed rest, ~ seriesPattern n title sd ed rest) ->
     seriesCheck n = (None, None, None)) /\
  seriesCheck "Breaking Bad S02 E05" = (Some "Breaking Bad", Some 2%Z, Some 5%Z) /\
  seriesCheck "Inception (2010)" = (None, None, None).
Proof.
  split; [|split; [|split; [|split; [|split; [|split]]]]].
  - intros content c Hc. unfold parseM3U in Hc.
    pose proof (parseLines_series (split newline content)) as H.
    rewrite Forall_forall in H. now apply H.
  - apply seriesCheck_sound.
  - split; [|split; [now vm_compute|]].
    + intros digits H. apply toNumber_small. split; [|exact H].
      apply digits_from_nonneg. lia.
    + intros digits H. now apply toNumber_overflow.
  - apply seriesCheck_complete.
  - intros n Hn. unfold seriesCheck.
    destruct (exec true seriesRe n) as [mt|] eqn:E; [|reflexivity].
    destruct (seriesRe_sound _ _ E) as (title & sd & ed & rest & [Hp _] & _).
    now destruct (Hn _ _ _ _ Hp).
  - now vm_compute.
  - now vm_compute.
Qed.

End SeriesClaims.

Section SeriesExamples.
Import Js M3U.

(** C1, the claim as stated fails: the entry named Dark S01 E02 Dublado gets
    its series fields although its name does not end with the episode
    digits, so that no trailing pattern matches it. *)
Lemma C1_counterexample_pattern_not_trailing :
  map (fun c => (name c, seriesName c, season c, episode c))
      (parseM3U ("#EXTINF:-1,Dark S01 E02 Dublado" ++ lf ++ "http://h/1.mp4"))
    = [("Dark S01 E02 Dublado", Some "Dark", Some 1%Z, Some 2%Z)] /\
  ~ specTrailingPattern "Dark S01 E02 Dublado".
Proof.
  split; [now vm_compute|].
  intros H. apply specTrailingPattern_ends_in_digit in H. discriminate H.
Qed.

Lemma C1_witness :
  (exists title sd ed rest,
     seriesMatch "Breaking Bad S02 E05" title sd ed rest /\
     "Breaking Bad" = trim title /\
     Some 2%Z = Some (toNumber (digits_from 0 sd)) /\
     Some 5%Z = Some (toNumber (digits_from 0 ed))) /\
  (forall c,
     In c (parseM3U ("#EXTINF:-1,Breaking Bad S02 E05" ++ lf ++ "http://h/1.mp4")) ->
     (seriesName c, season c, episode c) = seriesCheck (name c)) /\
  toNumber (digits_from 0 "05") = digits_from 0 "05" /\
  toNumber (digits_from 0
    "1000000000000000000000000000000000000000000000000000000000000000000000000000000000000000000000000000000000000000000000000000000000000000000000000000000000000000000000000000000000000000000000000000000000000000000000000000000000000000000000000000000000000000000000000000000000000000000000000000000000000000000000")
    = infinity /\
  (exists t se ep,
     seriesCheck "Dark s1e02 Dublado" = (Some t, Some se, Some ep)) /\
  seriesCheck EmptyString = (None, None, None).
Proof.
  split; [|split; [|split; [|split; [|split]]]].
  - apply (proj1 (proj2 C1_series_inference_leading_pattern)).
    vm_compute. reflexivity.
  - apply (proj1 C1_series_inference_leading_pattern).
  - apply (proj1 (proj1 (proj2 (proj2 C1_series_inference_leading_pattern)))).
    vm_compute. discriminate.
  - apply (proj2 (proj2 (proj1 (proj2 (proj2
             C1_series_inference_leading_pattern))))).
    vm_compute. discriminate.
  - apply (proj1 (proj2 (proj2 (proj2 C1_series_inference_leading_pattern)))
             "Dark s1e02 Dublado" "Dark" "1" "02" " Dublado").
    exists " ", "s"%char, EmptyString, "e"%char.
    repeat split; try reflexivity; try discriminate; auto.
  - apply (proj1 (proj2 (proj2 (proj2 (proj2
             C1_series_inference_leading_pattern))))).
    intros title sd ed rest (w & cS & w' & cE & E & _).
    destruct title; [destruct w|]; discriminate E.
Defined.

End SeriesExamples.

(* ================================================================== *)
(** * Logo rewrite *)
(* ================================================================== *)

Section LogoRewrite.
Import Js Regex M3U.

Lemma strip_exact (l : string) :
  forall a, strip false l a = Some EmptyString -> a = l.
Proof.
  induction l as [|x l IH]; intros a H; cbn [strip] in H.
  - now injection H as ->.
  - destruct a as [|b a]; [discriminate|]. unfold char_eq in H.
    destruct (Ascii.eqb x b) eqn:E; [|discriminate].
    apply Ascii.eqb_eq in E. subst b. f_equal. now apply IH.
Qed.

(** What the image pattern captures where it matches. *)
Lemma imageRe_sound (url : string) (mt : list string) :
  exec false imageRe url = Some mt ->
  exists pre ident small rest,
    url = pre ++ "/images/" ++ ident ++ small ++ ".jpg" ++ rest /\
    ident <> EmptyString /\ all is_alnum ident = true /\
    (small = EmptyString \/ small = "_small") /\
    mt = [ident].
Proof.
  unfold exec, imageRe, plus. cbn [seq]. intros H.
  apply search_sound in H. destruct H as (pre & a & rest & -> & Hm).
  invert_matches.
  repeat match goal with
  | H : strip false _ _ = Some EmptyString |- _ =>
      apply strip_exact in H; subst
  end.
  match goal with
  | H : Matches false (Opt _) _ ?small _, Ha : all is_alnum ?ident = true |- _ =>
      exists pre, ident, small, rest; inversion H; subst; clear H
  end.
  - cbn [app append]. repeat split; auto.
    + now rewrite !append_assoc.
    + now apply nonempty_of_length.
  - invert_matches.
    match goal with
    | H : strip false _ _ = Some EmptyString |- _ =>
        apply strip_exact in H; subst
    end.
    cbn [app]. repeat split; auto.
    + now rewrite !append_assoc.
    + now apply nonempty_of_length.
Qed.

Lemma alnum_not_dot (c : ascii) :
  is_alnum c = true -> Ascii.eqb "." c = false /\ Ascii.eqb c "." = false.
Proof.
  intros H. split.
  - destruct (Ascii.eqb_spec "." c) as [<-|]; [discriminate H | reflexivity].
  - destruct (Ascii.eqb_spec c ".") as [->|]; [discriminate H | reflexivity].
Qed.

Lemma startsWith_alnum_run (n1 : string) :
  all is_alnum n1 = true ->
  forall ident,
    all is_alnum ident = true ->
    startsWith (ident ++ ".jpg") (n1 ++ ".net") = false.
Proof.
  induction n1 as [|a n1 IH]; intros Hn ident Hi.
  - destruct ident as [|c ident]; [reflexivity|].
    cbn [all] in Hi. apply andb_prop in Hi. destruct Hi as [Hc _].
    cbn [append startsWith]. now rewrite (proj1 (alnum_not_dot c Hc)).
  - cbn [all] in Hn. apply andb_prop in Hn. destruct Hn as [Ha Hn].
    destruct ident as [|c ident]; cbn [append startsWith].
    + now rewrite (proj2 (alnum_not_dot a Ha)).
    + cbn [all] in Hi. apply andb_prop in Hi. destruct Hi as [_ Hi].
      rewrite (IH Hn ident Hi). apply andb_false_r.
Qed.

Lemma includes_alnum_run (ident : string) :
  all is_alnum ident = true ->
  includes (ident ++ ".jpg") "assistirpainel.net" = false.
Proof.
  induction ident as [|c ident IH]; intros Hi; [reflexivity|].
  pose proof (startsWith_alnum_run "assistirpainel" eq_refl _ Hi) as Hs.
  cbn [all] in Hi. apply andb_prop in Hi. destruct Hi as [_ Hi].
  change ("assistirpainel" ++ ".net") with "assistirpainel.net" in Hs.
  cbn [append includes] in *. rewrite Hs. now apply IH.
Qed.

Lemma includes_cons (c : ascii) (s needle : string) :
  includes (String c s) needle =
    startsWith (String c s) needle || includes s needle.
Proof. destruct needle; reflexivity. Qed.

Lemma rewritten_not_broken (ident : string) :
  all is_alnum ident = true ->
  includes ("https://image.tmdb.org/t/p/w500/" ++ ident ++ ".jpg")
           "assistirpainel.net" = false.
Proof.
  intros Hi. cbn [append].
  repeat (rewrite includes_cons;
          match goal with
          | |- startsWith ?s ?n || _ = false =>
              replace (startsWith s n) with false by (cbn; reflexivity)
          end; cbn [orb]).
  now apply includes_alnum_run.
Qed.












End LogoRewrite.

(* ================================================================== *)
(** * Grouping mode *)
(* ================================================================== *)

Section GroupingMode.
Import Js App.

Lemma isSeriesView_grouping (filtered : list Channel) :
  isSeriesView (grouping filtered) = isSeries filtered.
Proof.
  unfold grouping. destruct (isSeries filtered); cbn [negb]; [|reflexivity].
  now destruct (fold_left addChannel filtered ([], [])).
Qed.

(** The comparison of the quotient with one half, in integers. *)
Lemma gtHalf_ratio (a b : nat) :
  (0 < b)%nat -> gtHalf (ratio a b) = true <-> (b < 2 * a)%nat.
Proof.
  intros Hb. unfold gtHalf, ratio.
  rewrite negb_true_iff, <- not_true_iff_false, Qle_bool_iff.
  destruct b as [|b]; [lia|].
  unfold Qle, Qdiv, Qmult, Qinv, inject_Z. cbn [Qnum Qden Z.of_nat].
  rewrite !Z.mul_1_r, Pos.mul_1_l, Z.mul_1_l. lia.
Qed.

Lemma seriesItems_length_le (filtered : list Channel) :
  (List.length (seriesItems filtered) <= List.length filtered)%nat.
Proof. apply filter_length_le. Qed.

Lemma isSeries_iff (filtered : list Channel) :
  isSeries filtered = true <->
  (List.length filtered < 2 * List.length (seriesItems filtered))%nat.
Proof.
  unfold isSeries. pose proof (seriesItems_length_le filtered) as Hle.
  rewrite andb_true_iff, Nat.ltb_lt. split.
  - intros [Hpos Hgt]. apply gtHalf_ratio in Hgt; lia.
  - intros H. split; [lia|]. apply gtHalf_ratio; lia.
Qed.

(** C2.  The grouping mode of a filtered set is the series mode exactly when
    the set is not empty and the fraction of its entries that carry a series
    name is strictly above one half.  So a set with three such entries out
    of every five is in series mode, and a set with at most one out of two
    is in flat mode. *)
Theorem C2_grouping_mode_threshold (filtered : list Channel) :
  let withName := List.length (seriesItems filtered) in
  let total := List.length filtered in
  (isSeriesView (grouping filtered) = true <->
     total <> 0%nat /\ (1 # 2 < ratio withName total)%Q) /\
  (total <> 0%nat -> (5 * withName = 3 * total)%nat ->
     isSeriesView (grouping filtered) = true) /\
  ((2 * withName <= total)%nat ->
     isSeriesView (grouping filtered) = false).
Proof.
  intros withName total. rewrite isSeriesView_grouping.
  pose proof (isSeries_iff filtered) as Hiff.
  pose proof (seriesItems_length_le filtered) as Hle.
  fold withName total in Hiff, Hle.
  split; [|split].
  - rewrite Hiff. split.
    + intros H. split; [lia|].
      apply Qnot_le_lt. intros Hq. apply Qle_bool_iff in Hq.
      assert (gtHalf (ratio withName total) = true) as Hg
        by (apply gtHalf_ratio; lia).
      unfold gtHalf in Hg. rewrite Hq in Hg. discriminate.
    + intros [Hne Hq]. apply gtHalf_ratio; [lia|].
      unfold gtHalf. apply negb_true_iff, not_true_iff_false.
      rewrite Qle_bool_iff. now apply Qlt_not_le.
  - intros Hne H. apply Hiff. lia.
  - intros H. apply not_true_iff_false. rewrite Hiff. lia.
Qed.

End GroupingMode.

(* ================================================================== *)
(** * Sorting with a comparator *)
(* ================================================================== *)

Section SortFacts.
Context {A : Type}.
Variable compareFn : A -> A -> Z.

Lemma insert_perm (x : A) (l : list A) :
  Permutation (JsArray.insert compareFn x l) (x :: l).
Proof.
  induction l as [|y l IH]; cbn [JsArray.insert]; [reflexivity|].
  destruct (compareFn x y <=? 0)%Z; [reflexivity|].
  rewrite IH. apply perm_swap.
Qed.

Lemma sort_perm (l : list A) : Permutation (JsArray.sort compareFn l) l.
Proof.
  induction l as [|x l IH]; [reflexivity|].
  cbn [JsArray.sort fold_right]. rewrite insert_perm.
  now apply perm_skip.
Qed.

(** Stability: among elements that the comparator does not order strictly,
    the sort keeps the order of the input. *)
Lemma insert_stable (P : A -> bool) (x : A) (l : list A) :
  (forall y, P x = true -> P y = true -> (compareFn x y <= 0)%Z) ->
  filter P (JsArray.insert compareFn x l) = filter P (x :: l).
Proof.
  intros HP. induction l as [|y l IH]; cbn [JsArray.insert]; [reflexivity|].
  destruct (compareFn x y <=? 0)%Z eqn:E; [reflexivity|].
  apply Z.leb_gt in E.
  cbn [filter] in IH |- *. rewrite IH.
  destruct (P x) eqn:Hx, (P y) eqn:Hy; trivial.
  specialize (HP y eq_refl Hy). lia.
Qed.

Lemma sort_stable (P : A -> bool) (l : list A) :
  (forall x y, P x = true -> P y = true -> (compareFn x y <= 0)%Z) ->
  filter P (JsArray.sort compareFn l) = filter P l.
Proof.
  intros HP. induction l as [|x l IH]; [reflexivity|].
  cbn [JsArray.sort fold_right]. rewrite insert_stable by (apply HP).
  cbn [filter]. fold (JsArray.sort compareFn l). now rewrite IH.
Qed.

Section Ordered.
Variable R : A -> A -> Prop.
Hypothesis compare_le : forall a b, (compareFn a b <= 0)%Z <-> R a b.
Hypothesis R_total : forall a b, R a b \/ R b a.
Hypothesis R_trans : forall a b c, R a b -> R b c -> R a c.

Lemma insert_sorted (x : A) (l : list A) :
  StronglySorted R l -> StronglySorted R (JsArray.insert compareFn x l).
Proof.
  induction 1 as [|y l Hs IH Hy]; cbn [JsArray.insert].
  - repeat constructor.
  - destruct (compareFn x y <=? 0)%Z eqn:E.
    + apply Z.leb_le, compare_le in E.
      constructor; [now constructor|].
      constructor; [exact E|].
      eapply Forall_impl; [|exact Hy]. intros z Hz. eauto.
    + apply Z.leb_gt in E.
      assert (R y x) as Hyx.
      { destruct (R_total x y) as [Hxy|Hyx]; [|exact Hyx].
        apply compare_le in Hxy. lia. }
      constructor; [exact IH|].
      eapply Permutation_Forall; [symmetry; apply insert_perm|].
      now constructor.
Qed.

Lemma sort_sorted (l : list A) : StronglySorted R (JsArray.sort compareFn l).
Proof.
  induction l as [|x l IH]; [constructor|].
  cbn [JsArray.sort fold_right]. now apply insert_sorted.
Qed.

End Ordered.
End SortFacts.

Section SortedLists.
Context {A : Type}.
Variable R : A -> A -> Prop.
Hypothesis R_antisym : forall a b, R a b -> R b a -> a = b.

(** Two sorted arrangements of the same elements under an antisymmetric
    order are the same list. *)
Lemma sorted_perm_unique (l1 : list A) :
  forall l2, StronglySorted R l1 -> StronglySorted R l2 ->
             Permutation l1 l2 -> l1 = l2.
Proof.
  induction l1 as [|x l1 IH]; intros l2 H1 H2 Hp.
  - apply Permutation_nil in Hp. now subst.
  - destruct l2 as [|y l2].
    { symmetry in Hp. now apply Permutation_nil in Hp. }
    inversion H1 as [|? ? Hs1 Hx]; subst.
    inversion H2 as [|? ? Hs2 Hy]; subst.
    assert (x = y) as ->.
    { assert (In x (y :: l2)) as Hin
        by (eapply Permutation_in; [exact Hp | now left]).
      assert (In y (x :: l1)) as Hin'
        by (eapply Permutation_in; [symmetry; exact Hp | now left]).
      destruct Hin as [->|Hin]; [reflexivity|].
      destruct Hin' as [->|Hin']; [reflexivity|].
      rewrite Forall_forall in Hx, Hy. now apply R_antisym; auto. }
    f_equal. apply IH; trivial. now apply Permutation_cons_inv in Hp.
Qed.

End SortedLists.

(** Lists with the same images under [f], no image repeated, that are
    permutations of each other, are equal. *)
Lemma perm_same_images {A B : Type} (f : A -> B) (l1 : list A) :
  forall l2, map f l1 = map f l2 -> NoDup (map f l1) ->
             Permutation l1 l2 -> l1 = l2.
Proof.
  induction l1 as [|x l1 IH]; intros l2 Hm Hnd Hp.
  - apply Permutation_nil in Hp. now subst.
  - destruct l2 as [|y l2]; [discriminate Hm|].
    cbn [map] in Hm, Hnd. injection Hm as Hxy Hm.
    inversion Hnd as [|? ? Hnotin Hnd']; subst.
    assert (x = y) as ->.
    { assert (In y (x :: l1)) as Hin
        by (eapply Permutation_in; [symmetry; exact Hp | now left]).
      destruct Hin as [->|Hin]; [reflexivity|].
      exfalso. apply Hnotin. rewrite Hxy. now apply in_map. }
    f_equal. apply IH; trivial. now apply Permutation_cons_inv in Hp.
Qed.

Lemma StronglySorted_map {A B : Type} (f : A -> B) (R : B -> B -> Prop)
    (l : list A) :
  StronglySorted (fun a b => R (f a) (f b)) l -> StronglySorted R (map f l).
Proof.
  induction 1 as [|x l _ IH Hx]; cbn [map]; constructor; trivial.
  rewrite Forall_forall in *. intros b Hb.
  apply in_map_iff in Hb. destruct Hb as (a & <- & Ha). now apply Hx.
Qed.

(* ================================================================== *)
(** * The series map *)
(* ================================================================== *)

Section AssocFacts.
Context {V : Type}.
Implicit Types (mp : JsArray.t V) (k : string) (v : V).

Lemma has_keys mp k : JsArray.has mp k = true <-> In k (JsArray.keys mp).
Proof.
  unfold JsArray.has, JsArray.keys.
  induction mp as [|[k' v'] mp IH]; cbn [JsArray.get map fst In].
  - split; [discriminate | tauto].
  - destruct (String.eqb k' k) eqn:E.
    + apply String.eqb_eq in E. subst. tauto.
    + apply String.eqb_neq in E. rewrite IH. tauto.
Qed.

Lemma set_fresh mp k v :
  ~ In k (JsArray.keys mp) -> JsArray.set mp k v = (mp ++ [(k, v)])%list.
Proof.
  unfold JsArray.keys.
  induction mp as [|[k' v'] mp IH]; cbn [JsArray.set map fst In app];
    intros H; [reflexivity|].
  destruct (String.eqb k' k) eqn:E.
  - apply String.eqb_eq in E. tauto.
  - rewrite IH; tauto.
Qed.

Lemma keys_update mp k (f : V -> V) :
  JsArray.keys (JsArray.update mp k f) = JsArray.keys mp.
Proof.
  unfold JsArray.keys.
  induction mp as [|[k' v'] mp IH]; cbn [JsArray.update map fst]; trivial.
  destruct (String.eqb k' k); cbn [map fst]; congruence.
Qed.

(** Updating under [k] applies [f] to the entry of [k] and leaves the other
    entries alone. *)
Lemma Forall_update (P Q : string -> V -> Prop) mp k (f : V -> V) :
  NoDup (JsArray.keys mp) ->
  (forall v, P k v -> Q k (f v)) ->
  (forall k' v, k' <> k -> P k' v -> Q k' v) ->
  Forall (fun kv => P (fst kv) (snd kv)) mp ->
  Forall (fun kv => Q (fst kv) (snd kv)) (JsArray.update mp k f).
Proof.
  unfold JsArray.keys. intros Hnd Hk Hother.
  induction mp as [|[k' v'] mp IH]; cbn [JsArray.update map fst];
    intros H; [constructor|].
  inversion H as [|? ? Hhd Htl]; subst. cbn [fst snd] in Hhd.
  inversion Hnd as [|? ? Hnotin Hnd']; subst.
  destruct (String.eqb k' k) eqn:E.
  - apply String.eqb_eq in E. subst k'.
    constructor; [now apply Hk|].
    rewrite Forall_forall in *. intros [k2 v2] Hin. cbn [fst snd].
    apply Hother; [|now apply (Htl (k2, v2))].
    intros ->. apply Hnotin. now apply (in_map fst) in Hin.
  - apply String.eqb_neq in E.
    constructor; [now apply Hother | now apply IH].
Qed.

End AssocFacts.

Section SeriesMap.
Import Js App.

Lemma episodesOf_app (k : string) (l1 l2 : list Channel) :
  episodesOf k (l1 ++ l2) = (episodesOf k l1 ++ episodesOf k l2)%list.
Proof. apply filter_app. Qed.

Lemma episodesOf_In (k : string) (l : list Channel) (c : Channel) :
  In c (episodesOf k l) <-> In c l /\ M3U.seriesName c = Some k.
Proof.
  unfold episodesOf. rewrite filter_In.
  destruct (M3U.seriesName c) as [x|]; [|intuition discriminate].
  destruct (String.eqb x k) eqn:E.
  - apply String.eqb_eq in E. subst. tauto.
  - apply String.eqb_neq in E. intuition congruence.
Qed.

Lemma episodesOf_none (k : string) (l : list Channel) :
  (forall c, In c l -> M3U.seriesName c <> Some k) -> episodesOf k l = [].
Proof.
  intros H. destruct (episodesOf k l) as [|c l'] eqn:E; [reflexivity|].
  assert (In c (episodesOf k l)) as Hin by (rewrite E; now left).
  apply episodesOf_In in Hin. destruct Hin as [Hin Hs]. now destruct (H c Hin).
Qed.

Lemma entryOk_skip (done : list Channel) (c : Channel) (k : string)
    (s : Series) :
  M3U.seriesName c <> Some k ->
  entryOk done k s -> entryOk (done ++ [c]) k s.
Proof.
  intros Hc (Hn & Hk & He). repeat split; trivial.
  rewrite episodesOf_app, (episodesOf_none k [c]), app_nil_r; trivial.
  intros c' [<-|[]]. exact Hc.
Qed.

Lemma mapOk_skip (sm : JsArray.t Series) (done : list Channel) (c : Channel) :
  hasSeriesName c = false -> mapOk sm done -> mapOk sm (done ++ [c]).
Proof.
  intros Hc (Hnd & Hall & Hkeys & Hback). split; [exact Hnd|].
  split; [|split].
  - eapply Forall_impl; [|exact Hall]. intros [k s] H. cbn [fst snd] in *.
    apply entryOk_skip; trivial. intros Hs.
    unfold hasSeriesName in Hc. rewrite Hs in Hc.
    destruct H as (_ & Hk & _). congruence.
  - intros c' sn Hin Hs Ht. apply in_app_or in Hin.
    destruct Hin as [Hin|[<-|[]]]; [eauto|].
    unfold hasSeriesName in Hc. rewrite Hs in Hc. congruence.
  - intros k Hk. destruct (Hback k Hk) as (c' & Hin & Hs).
    exists c'. split; [apply in_or_app; now left | exact Hs].
Qed.

Lemma addChannel_ok (sm : JsArray.t Series) (st done : list Channel)
    (c : Channel) :
  mapOk sm done -> mapOk (fst (addChannel (sm, st) c)) (done ++ [c]).
Proof.
  intros Hok. unfold addChannel.
  destruct (M3U.seriesName c) as [sn|] eqn:Hsn.
  2:{ apply mapOk_skip; trivial. unfold hasSeriesName. now rewrite Hsn. }
  destruct (truthy sn) eqn:Htr.
  2:{ apply mapOk_skip; trivial. unfold hasSeriesName. now rewrite Hsn. }
  cbn [fst]. destruct Hok as (Hnd & Hall & Hkeys & Hback).
  set (fresh := {| name := sn; logo := M3U.logo c; seasonCount := 0;
                   episodeCount := 0; episodes := [] |}).
  set (push := fun s : Series =>
                 {| name := name s; logo := logo s;
                    seasonCount := seasonCount s;
                    episodeCount := S (episodeCount s);
                    episodes := (episodes s ++ [c])%list |}).
  set (sm1 := if negb (JsArray.has sm sn) then JsArray.set sm sn fresh else sm).
  assert (H1 : NoDup (JsArray.keys sm1) /\ In sn (JsArray.keys sm1) /\
               (forall k, In k (JsArray.keys sm) -> In k (JsArray.keys sm1)) /\
               Forall (fun kv => entryOk done (fst kv) (snd kv)) sm1 /\
               (forall k, In k (JsArray.keys sm1) ->
                          k = sn \/ In k (JsArray.keys sm))).
  { subst sm1. destruct (JsArray.has sm sn) eqn:Hhas; cbn [negb].
    - apply has_keys in Hhas. repeat split; auto.
    - assert (~ In sn (JsArray.keys sm)) as Hfresh.
      { intros Hin. apply has_keys in Hin. congruence. }
      rewrite set_fresh by exact Hfresh. unfold JsArray.keys.
      rewrite map_app. cbn [map fst]. repeat split.
      + apply NoDup_app_remove_l with (l := []). cbn [app].
        apply Permutation_NoDup with (l := sn :: map fst sm).
        * apply Permutation_cons_append.
        * now constructor.
      + apply in_or_app. right. now left.
      + intros k Hk. apply in_or_app. now left.
      + apply Forall_app. split; [exact Hall|]. constructor; [|constructor].
        cbn [fst snd]. repeat split; trivial. cbn [episodes fresh].
        symmetry. apply episodesOf_none. intros c' Hin Hs.
        apply Hfresh. eapply Hkeys; eauto.
      + intros k Hk. apply in_app_or in Hk.
        destruct Hk as [Hk|[<-|[]]]; auto. }
  destruct H1 as (Hnd1 & Hin1 & Hsub & Hall1 & Hnew).
  split; [now rewrite keys_update|]. split; [|split].
  - apply Forall_update with (P := entryOk done); trivial.
    + intros v (Hn & Hk & He). repeat split; trivial.
      cbn [episodes push]. rewrite He, episodesOf_app. f_equal.
      unfold episodesOf. cbn [filter]. now rewrite Hsn, String.eqb_refl.
    + intros k' v Hne H. apply entryOk_skip; trivial. congruence.
  - rewrite keys_update. intros c' sn' Hin Hs Ht.
    apply in_app_or in Hin. destruct Hin as [Hin|[<-|[]]]; [eauto|].
    congruence.
  - rewrite keys_update. intros k Hk.
    destruct (Hnew k Hk) as [->|Hold].
    + exists c. split; [apply in_or_app; right; now left | exact Hsn].
    + destruct (Hback k Hold) as (c' & Hin & Hs).
      exists c'. split; [apply in_or_app; now left | exact Hs].
Qed.

Lemma fold_addChannel_ok (l : list Channel) :
  forall sm st done,
    mapOk sm done ->
    mapOk (fst (fold_left addChannel l (sm, st))) (done ++ l).
Proof.
  induction l as [|c l IH]; intros sm st done H; cbn [fold_left].
  - now rewrite app_nil_r.
  - pose proof (addChannel_ok sm st done c H) as H'.
    destruct (addChannel (sm, st) c) as [sm' st']. cbn [fst] in H'.
    specialize (IH sm' st' (done ++ [c])%list H').
    now rewrite <- app_assoc in IH.
Qed.

(** The map at the end of the first loop of the grouping. *)
Lemma grouping_spec (filtered : list Channel) :
  isSeries filtered = true ->
  exists sm,
    mapOk sm filtered /\
    groupedSeries (grouping filtered) = map finishSeries (JsArray.values sm).
Proof.
  intros His. unfold grouping. rewrite His. cbn [negb].
  assert (mapOk (@nil (string * Series)) (@nil Channel)) as H0.
  { repeat split; try constructor; intros; contradiction. }
  match goal with
  | |- context [fold_left addChannel filtered ?init] =>
      assert (mapOk (fst (fold_left addChannel filtered init)) filtered)
        as Hok by (exact (fold_addChannel_ok filtered _ _ [] H0));
      destruct (fold_left addChannel filtered init) as [sm st]
  end.
  exists sm. split; [exact Hok | reflexivity].
Qed.

Lemma grouping_flat (filtered : list Channel) :
  isSeries filtered = false -> groupedSeries (grouping filtered) = [].
Proof. intros His. unfold grouping. now rewrite His. Qed.

End SeriesMap.

(* ================================================================== *)
(** * The series catalog *)
(* ================================================================== *)

Section Catalog.
Import Js App.

Lemma filter_perm {A : Type} (f : A -> bool) (l l' : list A) :
  Permutation l l' -> Permutation (filter f l) (filter f l').
Proof.
  induction 1 as [|x l l' _ IH|x y l|l l' l'' _ IH1 _ IH2]; cbn [filter].
  - constructor.
  - destruct (f x); [now constructor | exact IH].
  - destruct (f x), (f y); try reflexivity. apply perm_swap.
  - now transitivity (filter f l').
Qed.

Lemma compareEpisodes_le (a b : Channel) :
  (compareEpisodes a b <= 0)%Z <-> episodeLe a b.
Proof.
  unfold compareEpisodes, episodeLe, keyLe, episodeKey. cbn [fst snd].
  destruct (numOr (M3U.season a) 0 =? numOr (M3U.season b) 0)%Z eqn:E;
    cbn [negb].
  - apply Z.eqb_eq in E. lia.
  - apply Z.eqb_neq in E. lia.
Qed.

Lemma episodeLe_total (a b : Channel) : episodeLe a b \/ episodeLe b a.
Proof. unfold episodeLe, keyLe. lia. Qed.

Lemma episodeLe_trans (a b c : Channel) :
  episodeLe a b -> episodeLe b c -> episodeLe a c.
Proof. unfold episodeLe, keyLe. lia. Qed.

Lemma keyLe_antisym (k1 k2 : Z * Z) : keyLe k1 k2 -> keyLe k2 k1 -> k1 = k2.
Proof.
  destruct k1 as [s1 e1], k2 as [s2 e2]. unfold keyLe. cbn [fst snd].
  intros H1 H2. f_equal; lia.
Qed.

Lemma sameKey_compare (k : Z * Z) (x y : Channel) :
  sameKey k x = true -> sameKey k y = true -> (compareEpisodes x y <= 0)%Z.
Proof.
  unfold sameKey. rewrite !andb_true_iff, !Z.eqb_eq.
  intros [Hx1 Hx2] [Hy1 Hy2]. apply compareEpisodes_le.
  unfold episodeLe, keyLe. lia.
Qed.

Lemma sortEpisodes_sorted (l : list Channel) :
  StronglySorted episodeLe (JsArray.sort compareEpisodes l).
Proof.
  apply sort_sorted.
  - apply compareEpisodes_le.
  - apply episodeLe_total.
  - apply episodeLe_trans.
Qed.

(** The sorted episode lists of two arrangements of the same entries carry
    the same sequence of keys. *)
Lemma sortEpisodes_keys (l l' : list Channel) :
  Permutation l l' ->
  map episodeKey (JsArray.sort compareEpisodes l) =
  map episodeKey (JsArray.sort compareEpisodes l').
Proof.
  intros Hp. apply (sorted_perm_unique keyLe keyLe_antisym).
  - apply StronglySorted_map, sortEpisodes_sorted.
  - apply StronglySorted_map, sortEpisodes_sorted.
  - apply Permutation_map. now rewrite !sort_perm.
Qed.

Lemma seriesItems_perm (l l' : list Channel) :
  Permutation l l' -> isSeries l = isSeries l'.
Proof.
  intros Hp. unfold isSeries, seriesItems.
  now rewrite (Permutation_length (filter_perm hasSeriesName _ _ Hp)),
              (Permutation_length Hp).
Qed.

(** The series of the catalog: one for each non-empty series name, holding
    the sorted entries of that name. *)
Lemma groupedSeries_in (filtered : list Channel) (s : Series) :
  In s (groupedSeries (grouping filtered)) ->
  isSeries filtered = true /\ truthy (name s) = true /\
  episodes s = JsArray.sort compareEpisodes (episodesOf (name s) filtered) /\
  exists c, In c filtered /\ M3U.seriesName c = Some (name s).
Proof.
  destruct (isSeries filtered) eqn:His.
  2:{ rewrite grouping_flat by exact His. intros []. }
  destruct (grouping_spec filtered His) as (sm & (_ & Hall & _ & Hback) & ->).
  intros Hin. unfold JsArray.values in Hin. rewrite map_map in Hin.
  apply in_map_iff in Hin. destruct Hin as ([k s0] & <- & Hkv).
  rewrite Forall_forall in Hall. destruct (Hall _ Hkv) as (Hn & Hk & He).
  cbn [fst snd finishSeries name episodes] in *.
  rewrite Hn, He. repeat split; trivial.
  apply Hback. unfold JsArray.keys. apply in_map_iff. now exists (k, s0).
Qed.

Lemma groupedSeries_ex (filtered : list Channel) (c : Channel) (sn : string) :
  isSeries filtered = true ->
  In c filtered -> M3U.seriesName c = Some sn -> truthy sn = true ->
  exists s, In s (groupedSeries (grouping filtered)) /\ name s = sn.
Proof.
  intros His Hin Hsn Ht.
  destruct (grouping_spec filtered His) as (sm & (_ & Hall & Hkeys & _) & ->).
  specialize (Hkeys c sn Hin Hsn Ht). unfold JsArray.keys in Hkeys.
  apply in_map_iff in Hkeys. destruct Hkeys as ([k s0] & Hk & Hkv).
  cbn [fst] in Hk. subst k.
  rewrite Forall_forall in Hall. destruct (Hall _ Hkv) as (Hn & _ & _).
  exists (finishSeries s0). split; [|exact Hn].
  unfold JsArray.values. rewrite map_map. apply in_map_iff.
  now exists (sn, s0).
Qed.

(** C5, as amended.  (1) The episodes of every series of the catalog are
    sorted by (season, episode) ascending, an unset season or episode
    counting as 0.  (2) Episodes with the same (season, episode) keep the
    order they have in the input.  (3) For a shuffle of the input, the
    catalog has a series of the same name whose episodes are the same
    entries with the same sequence of (season, episode) keys; the two lists
    are equal when no two episodes of the series share a key. *)
Theorem C5_episodes_sorted_stable (filtered : list Channel) :
  (forall s, In s (groupedSeries (grouping filtered)) ->
     StronglySorted episodeLe (episodes s)) /\
  (forall s k, In s (groupedSeries (grouping filtered)) ->
     filter (sameKey k) (episodes s) =
     filter (sameKey k) (episodesOf (name s) filtered)) /\
  (forall filtered' s,
     Permutation filtered filtered' ->
     In s (groupedSeries (grouping filtered)) ->
     exists s',
       In s' (groupedSeries (grouping filtered')) /\ name s' = name s /\
       Permutation (episodes s) (episodes s') /\
       map episodeKey (episodes s) = map episodeKey (episodes s') /\
       (NoDup (map episodeKey (episodes s)) -> episodes s' = episodes s)).
Proof.
  split; [|split].
  - intros s Hs. destruct (groupedSeries_in _ _ Hs) as (_ & _ & -> & _).
    apply sortEpisodes_sorted.
  - intros s k Hs. destruct (groupedSeries_in _ _ Hs) as (_ & _ & -> & _).
    apply sort_stable. apply sameKey_compare.
  - intros filtered' s Hp Hs.
    destruct (groupedSeries_in _ _ Hs) as (His & Ht & He & c & Hc & Hsn).
    rewrite (seriesItems_perm _ _ Hp) in His.
    destruct (groupedSeries_ex filtered' c (name s) His) as (s' & Hs' & Hn');
      trivial.
    { eapply Permutation_in; eauto. }
    exists s'. destruct (groupedSeries_in _ _ Hs') as (_ & _ & He' & _).
    rewrite Hn' in He'.
    assert (Permutation (episodesOf (name s) filtered)
                        (episodesOf (name s) filtered')) as Hpe
      by (now apply filter_perm).
    assert (map episodeKey (episodes s) = map episodeKey (episodes s')) as Hk
      by (rewrite He, He'; now apply sortEpisodes_keys).
    assert (Permutation (episodes s) (episodes s')) as Hps
      by (rewrite He, He', !sort_perm; exact Hpe).
    repeat split; trivial.
    intros Hnd. symmetry. now apply (perm_same_images episodeKey).
Qed.

End Catalog.

Section CatalogExamples.
Import Js App.

(** C5, the claim as stated fails: two entries of a series with the same
    season and episode come out in the order of the input, so that the two
    arrangements of the same two entries give different episode lists. *)
Lemma C5_counterexample_ties_follow_input :
  Permutation [episodeA; episodeB] [episodeB; episodeA] /\
  map episodes (groupedSeries (grouping [episodeA; episodeB]))
    = [[episodeA; episodeB]] /\
  map episodes (groupedSeries (grouping [episodeB; episodeA]))
    = [[episodeB; episodeA]] /\
  [episodeA; episodeB] <> [episodeB; episodeA].
Proof.
  split; [apply perm_swap|]. split; [now vm_compute|].
  split; [now vm_compute|]. discriminate.
Qed.

Lemma C5_witness :
  StronglySorted episodeLe [episodeA; episodeB; episodeC] /\
  filter (sameKey (1%Z, 1%Z)) [episodeA; episodeB; episodeC]
    = filter (sameKey (1%Z, 1%Z))
        (episodesOf "Show" [episodeC; episodeA; movieD; episodeB]) /\
  exists s',
    In s' (groupedSeries (grouping [episodeA; movieD; episodeC])) /\
    name s' = "Show" /\
    Permutation [episodeA; episodeC] (episodes s') /\
    map episodeKey [episodeA; episodeC] = map episodeKey (episodes s') /\
    (NoDup (map episodeKey [episodeA; episodeC]) ->
     episodes s' = [episodeA; episodeC]).
Proof.
  split; [|split].
  - apply (proj1 (C5_episodes_sorted_stable
                    [episodeC; episodeA; movieD; episodeB])
             (mkSeries "Show" EmptyString 1 3 [episodeA; episodeB; episodeC])).
    vm_compute. left. reflexivity.
  - apply (proj1 (proj2 (C5_episodes_sorted_stable
                           [episodeC; episodeA; movieD; episodeB]))
             (mkSeries "Show" EmptyString 1 3 [episodeA; episodeB; episodeC])).
    vm_compute. left. reflexivity.
  - apply (proj2 (proj2 (C5_episodes_sorted_stable
                           [episodeC; episodeA; movieD]))
             [episodeA; movieD; episodeC]
             (mkSeries "Show" EmptyString 1 2 [episodeA; episodeC])).
    + apply Permutation_cons_append.
    + vm_compute. left. reflexivity.
Defined.

Lemma C2_witness :
  isSeriesView (grouping [episodeA; movieD; episodeB; movieD; episodeC]) = true /\
  isSeriesView (grouping [episodeA; movieD]) = false.
Proof.
  split.
  - apply (proj1 (proj2 (C2_grouping_mode_threshold
                           [episodeA; movieD; episodeB; movieD; episodeC])));
      vm_compute; [discriminate | reflexivity].
  - apply (proj2 (proj2 (C2_grouping_mode_threshold [episodeA; movieD]))).
    vm_compute. repeat constructor.
Defined.

End CatalogExamples.

(* ================================================================== *)
(** * The content area *)
(* ================================================================== *)

Section ContentArea.
Import Js App.

Lemma handle_invariant (st st' : State) (ev : Event) :
  searchInvariant st -> handle st ev = Some st' -> searchInvariant st'.
Proof.
  unfold searchInvariant. intros Hsel H.
  destruct ev as [text| |cat|value| |index|index]; cbn [handle] in H.
  - injection H as <-. exact Hsel.
  - injection H as <-. exact Hsel.
  - destruct (layoutShown st && _); [|discriminate]. injection H as <-.
    intros _. reflexivity.
  - destruct (layoutShown st); [|discriminate].
    destruct (selectedSeries st); [discriminate|]. injection H as <-.
    cbn [selectedSeries]. congruence.
  - destruct (layoutShown st); [|discriminate].
    destruct (selectedSeries st) as [s|] eqn:Hss; [|discriminate].
    injection H as <-.
    cbn [selectedSeries searchQuery]. intros _. apply Hsel. congruence.
  - unfold render in H.
    destruct (loading st); [discriminate|].
    destruct (truthy (error st)); [discriminate|].
    destruct (selectedSeries st) as [s|] eqn:Hss.
    { destruct (selectedSeason st); discriminate. }
    destruct (isSeriesView (grouping (filteredOf st))
              && negb (includes (searchQuery st) capitalS)) eqn:Hc.
    2:{ destruct (List.length (filteredOf st) =? 0)%nat; discriminate. }
    destruct (nth_error _ index); [|discriminate]. injection H as <-.
    apply andb_prop in Hc. destruct Hc as [_ Hc].
    apply negb_true_iff in Hc. intros _. exact Hc.
  - unfold render in H.
    destruct (loading st); [discriminate|].
    destruct (truthy (error st)); [discriminate|].
    destruct (selectedSeries st) as [s|] eqn:Hss.
    2:{ destruct (isSeriesView (grouping (filteredOf st))
                  && negb (includes (searchQuery st) capitalS));
          [discriminate|].
        destruct (List.length (filteredOf st) =? 0)%nat; discriminate. }
    destruct (selectedSeason st); [discriminate|].
    destruct (nth_error _ index); [|discriminate]. injection H as <-.
    cbn [selectedSeries searchQuery]. intros _. apply Hsel.
    rewrite ?Hss. discriminate.
Qed.

Lemma reachable_invariant (st : State) : reachable st -> searchInvariant st.
Proof.
  induction 1 as [|st ev st' _ IH H].
  - intros H. now destruct H.
  - eapply handle_invariant; eauto.
Qed.

Lemma play_reachable (evs : list Event) :
  forall st st', reachable st -> play st evs = Some st' -> reachable st'.
Proof.
  induction evs as [|ev evs IH]; intros st st' Hr H; cbn [play] in H.
  - now injection H as <-.
  - destruct (handle st ev) as [st1|] eqn:E; [|discriminate].
    eapply IH; [|exact H]. eapply reach_step; eauto.
Qed.

(** C10.  The series list is on screen only when the heuristic selects the
    series mode and the search text holds no capital S.  In every state the
    component reaches in which the layout is on screen (the playlist is
    loaded, without error), a search text that holds a capital S puts the
    standard channel view in the content area: the grid of the filtered
    channels, or the no-content notice when the filter leaves none; and it
    is the grid of the filtered channels whenever the heuristic selects the
    series mode. *)
Theorem C10_capital_S_forces_flat_list (st : State) :
  reachable st ->
  (forall l, render st = SeriesListView l ->
     isSeriesView (grouping (filteredOf st)) = true /\
     includes (searchQuery st) "S" = false) /\
  (layoutShown st = true -> includes (searchQuery st) "S" = true ->
     render st = if (List.length (filteredOf st) =? 0)%nat then NoContentFound
                 else ChannelGrid (filteredOf st)) /\
  (layoutShown st = true -> includes (searchQuery st) "S" = true ->
     isSeriesView (grouping (filteredOf st)) = true ->
     render st = ChannelGrid (filteredOf st)).
Proof.
  intros Hr. pose proof (reachable_invariant st Hr) as Hsel.
  unfold searchInvariant in Hsel.
  assert (Hflat : layoutShown st = true ->
            includes (searchQuery st) "S" = true ->
            render st = if (List.length (filteredOf st) =? 0)%nat
                        then NoContentFound
                        else ChannelGrid (filteredOf st)).
  { intros Hshown HS. unfold render.
    unfold layoutShown in Hshown. apply andb_prop in Hshown.
    destruct Hshown as [Hl He]. apply negb_true_iff in Hl, He.
    rewrite Hl, He.
    destruct (selectedSeries st) as [s|] eqn:Hss.
    { unfold capitalS in Hsel. rewrite Hsel in HS; [discriminate|].
      discriminate. }
    unfold capitalS. rewrite HS, andb_false_r.
    now destruct (selectedSeason st). }
  split; [|split; [exact Hflat|]].
  - intros l H. unfold render in H.
    destruct (loading st); [discriminate|].
    destruct (truthy (error st)); [discriminate|].
    destruct (selectedSeries st).
    { destruct (selectedSeason st); discriminate. }
    destruct (isSeriesView (grouping (filteredOf st))) eqn:Hv.
    + unfold capitalS in H.
      destruct (includes (searchQuery st) "S"); [|auto].
      cbn [negb andb] in H.
      destruct (List.length (filteredOf st) =? 0)%nat; discriminate.
    + cbn [andb] in H.
      destruct (selectedSeason st);
        destruct (List.length (filteredOf st) =? 0)%nat; discriminate.
  - intros Hshown HS Hv. rewrite (Hflat Hshown HS).
    rewrite isSeriesView_grouping in Hv. apply isSeries_iff in Hv.
    destruct (filteredOf st); [cbn in Hv; lia | reflexivity].
Qed.

Lemma C10_reached :
  reachable
    {| channels := M3U.parseM3U samplePlaylist; loading := false;
       error := EmptyString; selectedCategory := "Uncategorized";
       searchQuery := "S01"; selectedSeries := None;
       selectedSeason := None |}.
Proof.
  apply (play_reachable
           [FetchResolved samplePlaylist; ChangeSearch "S01"] initialState);
    [constructor | vm_compute; reflexivity].
Qed.

Lemma C10_witness :
  (forall l,
     render {| channels := M3U.parseM3U samplePlaylist; loading := false;
               error := EmptyString; selectedCategory := "Uncategorized";
               searchQuery := "S01"; selectedSeries := None;
               selectedSeason := None |} = SeriesListView l ->
     False) /\
  render {| channels := M3U.parseM3U samplePlaylist; loading := false;
            error := EmptyString; selectedCategory := "Uncategorized";
            searchQuery := "S01"; selectedSeries := None;
            selectedSeason := None |}
    = ChannelGrid
        (filteredOf
           {| channels := M3U.parseM3U samplePlaylist; loading := false;
              error := EmptyString; selectedCategory := "Uncategorized";
              searchQuery := "S01"; selectedSeries := None;
              selectedSeason := None |}).
Proof.
  split.
  - intros l H.
    apply (proj1 (C10_capital_S_forces_flat_list _ C10_reached)) in H.
    destruct H as [_ H]. discriminate H.
  - apply (proj2 (proj2 (C10_capital_S_forces_flat_list _ C10_reached)));
      vm_compute; reflexivity.
Defined.

End ContentArea.

(* ================================================================== *)
(** * The stream proxy *)
(* ================================================================== *)

Section MapLookups.
Context {V : Type}.
Implicit Types (mp : JsArray.t V) (k : string) (v : V).

Lemma get_set mp k v k' :
  JsArray.get (JsArray.set mp k v) k' =
    if String.eqb k k' then Some v else JsArray.get mp k'.
Proof.
  induction mp as [|[k0 v0] mp IH]; cbn [JsArray.set JsArray.get].
  - reflexivity.
  - destruct (String.eqb k0 k) eqn:E; cbn [JsArray.get].
    + apply String.eqb_eq in E. subst k0. now destruct (String.eqb k k').
    + rewrite IH. destruct (String.eqb k0 k') eqn:E'; [|reflexivity].
      apply String.eqb_eq in E'. subst k0. now rewrite String.eqb_sym, E.
Qed.

Lemma get_In_keys mp k v :
  JsArray.get mp k = Some v -> In k (JsArray.keys mp).
Proof.
  intros H. apply has_keys. unfold JsArray.has. now rewrite H.
Qed.

End MapLookups.

Section RequestHeaders.
Import Js Server.
Variable IPTV_HOST : string.
Variable IPTV_PORT : N.


(** C6, as amended.  An inbound Range header with a non-empty value is sent
    upstream under the name Range with that value, after the fixed
    impersonation headers; when the inbound request has no Range header, or
    an empty one, the upstream headers are the fixed ones and hold no Range
    header.  In every case the headers other than Range are the fixed
    impersonation set, whatever the inbound headers. *)
Theorem C6_range_forwarded_when_non_empty (req : Req.t) :
  (forall v, JsArray.get (Req.headers req) "range" = Some v ->
             v <> EmptyString ->
             upstreamHeaders IPTV_HOST IPTV_PORT req
               = (impersonation IPTV_HOST IPTV_PORT ++ [("Range", v)])%list /\
             JsArray.get (upstreamHeaders IPTV_HOST IPTV_PORT req) "Range" = Some v) /\
  (JsArray.get (Req.headers req) "range" = None \/
   JsArray.get (Req.headers req) "range" = Some EmptyString ->
     upstreamHeaders IPTV_HOST IPTV_PORT req = impersonation IPTV_HOST IPTV_PORT /\
     JsArray.get (upstreamHeaders IPTV_HOST IPTV_PORT req) "Range" = None) /\
  (forall k, k <> "Range" ->
     JsArray.get (upstreamHeaders IPTV_HOST IPTV_PORT req) k
       = JsArray.get (impersonation IPTV_HOST IPTV_PORT) k).
Proof.
  unfold upstreamHeaders, proxyOptions.
  destruct (JsArray.get (Req.headers req) "range") as [r|] eqn:Hr.
  - destruct r as [|c r]; cbn [truthy isEmpty negb Options.headers].
    + split; [|split].
      * intros v Hv Hne. now injection Hv as <-.
      * intros _. split; reflexivity.
      * reflexivity.
    + split; [|split].
      * intros v Hv _. injection Hv as <-. split; reflexivity.
      * intros [H|H]; discriminate H.
      * intros k Hk. rewrite get_set.
        destruct (String.eqb "Range" k) eqn:E; [|reflexivity].
        apply String.eqb_eq in E. congruence.
  - cbn [Options.headers]. split; [|split].
    + intros v Hv. discriminate Hv.
    + intros _. split; reflexivity.
    + reflexivity.
Qed.

End RequestHeaders.

Section RequestExamples.
Import Js Server.

(** C6, the claim as stated fails: a request whose Range header is present
    with an empty value gets no Range header upstream. *)
Lemma C6_counterexample_empty_range_dropped :
  JsArray.get (Req.headers emptyRangeRequest) "range" = Some EmptyString /\
  JsArray.get (upstreamHeaders "tiralit.shop" 8880%N emptyRangeRequest) "Range"
    = None.
Proof. split; reflexivity. Qed.

Lemma C6_witness :
  (upstreamHeaders "tiralit.shop" 8880%N rangeRequest
     = (impersonation "tiralit.shop" 8880%N ++ [("Range", "bytes=1000-")])%list /\
   JsArray.get (upstreamHeaders "tiralit.shop" 8880%N rangeRequest) "Range"
     = Some "bytes=1000-") /\
  (upstreamHeaders "tiralit.shop" 8880%N emptyRangeRequest
     = impersonation "tiralit.shop" 8880%N /\
   JsArray.get (upstreamHeaders "tiralit.shop" 8880%N emptyRangeRequest) "Range"
     = None) /\
  JsArray.get (upstreamHeaders "tiralit.shop" 8880%N rangeRequest) "User-Agent"
    = JsArray.get (impersonation "tiralit.shop" 8880%N) "User-Agent".
Proof.
  split; [|split].
  - apply (proj1 (C6_range_forwarded_when_non_empty
                    "tiralit.shop" 8880%N rangeRequest));
      [reflexivity | discriminate].
  - apply (proj1 (proj2 (C6_range_forwarded_when_non_empty
                           "tiralit.shop" 8880%N emptyRangeRequest))).
    right. reflexivity.
  - apply (proj2 (proj2 (C6_range_forwarded_when_non_empty
                           "tiralit.shop" 8880%N rangeRequest))).
    discriminate.
Defined.

End RequestExamples.

Section ResponseHeaders.
Import Js Server.

Lemma problematic_lower (k : string) :
  toLowerCase k = k -> problematic k = true -> k = te.
Proof.
  unfold problematic. cbn [existsb]. intros ->. rewrite orb_false_r.
  intros H. apply String.eqb_eq in H. exact H.
Qed.

Lemma getHeader_setHeader (r r' : Res.t) (name k : string) (v : HeaderValue) :
  Res.setHeader r name v = Some r' ->
  Res.headersSent r' = false /\
  Res.statusCode r' = Res.statusCode r /\
  Res.body r' = Res.body r /\ Res.finished r' = Res.finished r /\
  Res.piped r' = Res.piped r /\
  Res.getHeader r' k =
    if String.eqb (toLowerCase name) (toLowerCase k) then Some v
    else Res.getHeader r k.
Proof.
  unfold Res.setHeader, Res.getHeader.
  destruct (Res.headersSent r); [discriminate|]. intros H. injection H as <-.
  cbn [Res.headersSent Res.statusCode Res.body Res.finished Res.piped
       Res.headers].
  rewrite get_set.
  now destruct (String.eqb (toLowerCase name) (toLowerCase k)).
Qed.

Lemma setHeader_some (r : Res.t) (name : string) (v : HeaderValue) :
  Res.headersSent r = false -> exists r', Res.setHeader r name v = Some r'.
Proof. unfold Res.setHeader. intros ->. eauto. Qed.

Lemma forward_loop (upstream : JsArray.t HeaderValue) (r0 : Res.t)
    (todo : list string) :
  Forall (fun k => toLowerCase k = k) todo ->
  (forall k, In k todo -> In k (JsArray.keys upstream)) ->
  forall r names,
    Forall (fun k => toLowerCase k = k) names ->
    copied upstream r0 r names ->
    exists r',
      fold_left (forwardHeader upstream) todo (Some r) = Some r' /\
      copied upstream r0 r' (names ++ todo).
Proof.
  induction todo as [|key todo IH]; intros Hlow Hkeys r names Hnames Hc.
  - exists r. rewrite app_nil_r. split; [reflexivity | exact Hc].
  - inversion Hlow as [|? ? Hkey Hlow']; subst.
    cbn [fold_left]. unfold forwardHeader at 2. cbn [bind].
    destruct Hc as (Hs & Hst & Hb & Hf & Hp & Hte & Hcp).
    assert (exists r1, (if negb (problematic key)
                        then bind (JsArray.get upstream key)
                               (fun v => Res.setHeader r key v)
                        else Some r) = Some r1 /\
                       copied upstream r0 r1 (names ++ [key])) as (r1 & E & Hc1).
    { destruct (problematic key) eqn:Hpb; cbn [negb].
      - exists r. split; [reflexivity|].
        apply problematic_lower in Hpb; [|exact Hkey].
        repeat split; trivial.
        intros k Hin Hk. apply in_app_or in Hin.
        destruct Hin as [Hin|[<-|[]]]; [auto | congruence].
      - assert (exists v, JsArray.get upstream key = Some v) as (v & Hv).
        { assert (In key (JsArray.keys upstream)) as Hin
            by (apply Hkeys; now left).
          apply has_keys in Hin. unfold JsArray.has in Hin.
          destruct (JsArray.get upstream key); [eauto | discriminate]. }
        rewrite Hv. cbn [bind].
        destruct (setHeader_some r key v Hs) as (r1 & E).
        exists r1. split; [exact E|].
        pose proof (fun k => getHeader_setHeader r r1 key k v E) as Hset.
        destruct (Hset te) as (Hs1 & Hst1 & Hb1 & Hf1 & Hp1 & Hg1).
        assert (key <> te) as Hne.
        { intros ->. unfold problematic in Hpb. discriminate Hpb. }
        repeat split; try congruence.
        + rewrite Hg1, Hkey.
          change (toLowerCase te) with te.
          destruct (String.eqb key te) eqn:E'; [|exact Hte].
          apply String.eqb_eq in E'. congruence.
        + intros k Hin Hk. destruct (Hset k) as (_ & _ & _ & _ & _ & Hg).
          rewrite Hg, Hkey.
          assert (toLowerCase k = k) as ->.
          { apply in_app_or in Hin. destruct Hin as [Hin|[<-|[]]]; trivial.
            rewrite Forall_forall in Hnames. now apply Hnames. }
          destruct (String.eqb key k) eqn:E'.
          * apply String.eqb_eq in E'. now subst k.
          * apply String.eqb_neq in E'. apply in_app_or in Hin.
            destruct Hin as [Hin|[<-|[]]]; [auto | congruence]. }
    rewrite E.
    destruct (IH Hlow' (fun k Hk => Hkeys k (or_intror Hk)) r1
                 (names ++ [key])%list) as (r' & E' & Hc').
    { apply Forall_app. split; [exact Hnames | now constructor]. }
    { exact Hc1. }
    exists r'. split; [exact E'|]. now rewrite <- app_assoc in Hc'.
Qed.

End ResponseHeaders.

Section ProxyClaims.
Import Js Server.

(** C7.  When the upstream response arrives (nothing has been sent to the
    client yet), the callback succeeds and leaves a response in which every
    upstream header other than transfer-encoding has the upstream value,
    the transfer-encoding header is what it was before the callback (the
    upstream one is not copied), and the status code is the upstream one. *)
Theorem C7_upstream_headers_copied (proxyRes : Upstream.t) (res : Res.t) :
  Res.headersSent res = false ->
  incomingHeaders (Upstream.headers proxyRes) ->
  exists res',
    onProxyResponse proxyRes res = Some res' /\
    Res.statusCode res' = Upstream.statusCode proxyRes /\
    (forall k v,
       JsArray.get (Upstream.headers proxyRes) k = Some v ->
       k <> "transfer-encoding" ->
       Res.getHeader res' k = Some v) /\
    Res.getHeader res' "transfer-encoding"
      = Res.getHeader res "transfer-encoding".
Proof.
  intros Hs Hlow. unfold onProxyResponse.
  destruct (setHeader_some res "Access-Control-Allow-Origin" (Single "*") Hs)
    as (r1 & E1).
  rewrite E1. cbn [bind].
  destruct (getHeader_setHeader _ _ _ te _ E1) as (Hs1 & _ & _ & _ & _ & Hg1).
  destruct (setHeader_some r1 "Access-Control-Allow-Methods"
              (Single "GET, OPTIONS") Hs1) as (r2 & E2).
  rewrite E2. cbn [bind].
  destruct (getHeader_setHeader _ _ _ te _ E2) as (Hs2 & _ & _ & _ & _ & Hg2).
  destruct (setHeader_some r2 "Access-Control-Expose-Headers"
              (Single "Content-Length, Content-Range, Content-Type") Hs2)
    as (r3 & E3).
  rewrite E3. cbn [bind].
  destruct (getHeader_setHeader _ _ _ te _ E3) as (Hs3 & _ & _ & _ & _ & Hg3).
  destruct (forward_loop (Upstream.headers proxyRes) r3
              (JsArray.keys (Upstream.headers proxyRes)) Hlow
              (fun k H => H) r3 [])
    as (r4 & E4 & Hc).
  { constructor. }
  { repeat split; trivial. intros k []. }
  rewrite E4. cbn [bind].
  destruct Hc as (_ & _ & _ & _ & _ & Hte & Hcp).
  eexists. split; [reflexivity|]. split; [reflexivity|]. split.
  - intros k v Hk Hne.
    change (Res.getHeader r4 k = Some v).
    rewrite Hcp; trivial. cbn [app]. eapply get_In_keys; eauto.
  - change (Res.getHeader r4 te = Res.getHeader res te).
    rewrite Hte, Hg3, Hg2, Hg1. reflexivity.
Qed.

Lemma C7_witness :
  exists res',
    onProxyResponse partialContent freshRes = Some res' /\
    Res.statusCode res' = 206%Z /\
    (forall k v,
       JsArray.get (Upstream.headers partialContent) k = Some v ->
       k <> "transfer-encoding" ->
       Res.getHeader res' k = Some v) /\
    Res.getHeader res' "transfer-encoding" = None.
Proof.
  apply (C7_upstream_headers_copied partialContent freshRes).
  - reflexivity.
  - repeat constructor.
Defined.

(** C8, as amended.  An upstream error that reaches the listener before the
    response headers have been sent yields status 502 with the JSON object
    of an error label and the error message, and ends the response.  After
    the headers have been sent the listener leaves the response as it is:
    no status, no payload, and it does not end the response either. *)
Theorem C8_error_before_and_after_headers (message : string) (res : Res.t) :
  (Res.headersSent res = false ->
     Res.statusCode (onProxyError message res) = 502%Z /\
     Res.body (onProxyError message res)
       = Some [("error", "Stream unavailable"); ("details", message)] /\
     Res.headersSent (onProxyError message res) = true /\
     Res.finished (onProxyError message res) = true) /\
  (Res.headersSent res = true -> onProxyError message res = res).
Proof.
  unfold onProxyError. split; intros ->; cbn [negb]; auto.
Qed.

(** C8, the claim as stated fails: for a response that is streaming, the
    listener sends no status, and it does not terminate the response, which
    stays open as it was. *)
Lemma C8_counterexample_stream_not_terminated :
  Res.headersSent streamingRes = true /\
  Res.finished (onProxyError "socket hang up" streamingRes) = false /\
  onProxyError "socket hang up" streamingRes = streamingRes.
Proof. repeat split. Qed.

Lemma C8_witness :
  (Res.statusCode (onProxyError "connect ECONNREFUSED" freshRes) = 502%Z /\
   Res.body (onProxyError "connect ECONNREFUSED" freshRes)
     = Some [("error", "Stream unavailable");
             ("details", "connect ECONNREFUSED")] /\
   Res.headersSent (onProxyError "connect ECONNREFUSED" freshRes) = true /\
   Res.finished (onProxyError "connect ECONNREFUSED" freshRes) = true) /\
  onProxyError "socket hang up" streamingRes = streamingRes.
Proof.
  split.
  - apply (proj1 (C8_error_before_and_after_headers
                    "connect ECONNREFUSED" freshRes)).
    reflexivity.
  - apply (proj2 (C8_error_before_and_after_headers
                    "socket hang up" streamingRes)).
    reflexivity.
Defined.

End ProxyClaims.

Section ParserExamples.
Import Js M3U.

Lemma C3_witness :
  nth_error
    (parseM3U ("#EXTINF:-1,First" ++ lf ++ "http://h/1.ts" ++ lf ++ "# note"
               ++ lf ++ "  http://h/2.ts  " ++ lf ++ "http://h/3.ts"))
    1
    = Some {| id := "ch-1"; name := "Unknown Channel"; logo := EmptyString;
              group := "Uncategorized"; url := "http://h/2.ts";
              seriesName := None; season := None; episode := None |} /\
  fst (step (readExtinf "#EXTINF:-1,First", []) "http://h/1.ts") = initial /\
  skipn 1 (parseM3U ("#EXTINF:-1,First" ++ lf ++ "http://h/1.ts" ++ lf
                     ++ "http://h/3.ts"))
    = skipn 1 (parseM3U ("http://h/other.ts" ++ lf ++ "http://h/3.ts")).
Proof.
  split; [|split].
  - apply (proj1 (proj2 C3_one_entry_per_line_and_reset) _
             [ "#EXTINF:-1,First"; "http://h/1.ts" ] [ "# note" ]
             [ "http://h/3.ts" ] "  http://h/2.ts  ").
    + reflexivity.
    + right. exists [ "#EXTINF:-1,First" ], "http://h/1.ts".
      split; reflexivity.
    + repeat constructor.
    + reflexivity.
  - apply (proj1 (proj2 (proj2 C3_one_entry_per_line_and_reset))).
    reflexivity.
  - apply (proj2 (proj2 (proj2 C3_one_entry_per_line_and_reset)) _ _
             [ "#EXTINF:-1,First" ] [] [ "http://h/3.ts" ]
             "http://h/1.ts" "http://h/other.ts");
      reflexivity.
Defined.

End ParserExamples.

(* ================================================================== *)
(** * The playlist endpoint *)
(* ================================================================== *)

Section PlaylistEndpoint.
Import Js Playlist.

Lemma cached_some (c : Cache) (now : Z) (content : string) :
  cached c now = Some content <->
  playlistCache c = Some content /\ content <> EmptyString /\
  (now - playlistCacheTime c < CACHE_DURATION)%Z.
Proof.
  unfold cached. destruct (playlistCache c) as [x|].
  - destruct (truthy x) eqn:Ht; cbn [andb].
    + apply truthy_nonempty in Ht.
      destruct (now - playlistCacheTime c <? CACHE_DURATION)%Z eqn:E.
      * apply Z.ltb_lt in E. split.
        -- intros H. injection H as <-. auto.
        -- intros (H & _ & _). exact H.
      * apply Z.ltb_ge in E. split; [discriminate|].
        intros (_ & _ & H). lia.
    + split; [discriminate|]. intros (H & Hne & _). injection H as ->.
      apply truthy_nonempty in Hne. congruence.
  - split; [discriminate|]. intros (H & _). discriminate H.
Qed.

(** X1.  A request whose cache check finds a text (stored, not empty,
    and less than an hour old) is answered with exactly that text and
    leaves the cache as it is, whatever the configuration and the outside
    world: no source is read.  A request whose check finds none and whose
    load yields a text answers with it and writes it to the cache with the
    time of the store, and the cache so written serves the text to every
    check made less than an hour after that time, if the text is not
    empty.  Both are said of one request and of the cache it meets: a load
    that awaits the playlist URL can overlap with other requests, which may
    write the cache in between. *)
Theorem X1_playlist_cache_hit_and_store (c : Cache) (now : Z) :
  (forall content,
     cached c now = Some content ->
     content <> EmptyString /\
     playlistCache c = Some content /\
     (now - playlistCacheTime c < CACHE_DURATION)%Z /\
     forall b u w later, handler b u w now later c = (Served content, c)) /\
  (forall b u w later content,
     cached c now = None ->
     load b u w = Content content ->
     handler b u w now later c
       = (Served content, mkCache (Some content) later) /\
     forall now',
       content <> EmptyString ->
       (now' - later < CACHE_DURATION)%Z ->
       forall b' u' w' later',
         handler b' u' w' now' later' (mkCache (Some content) later)
           = (Served content, mkCache (Some content) later)).
Proof.
  split.
  - intros content H. pose proof (proj1 (cached_some _ _ _) H) as (Hc & Hne & Hage).
    repeat split; trivial.
    intros b u w later. unfold handler. now rewrite H.
  - intros b u w later content Hmiss Hload. split.
    + unfold handler. now rewrite Hmiss, Hload.
    + intros now' Hne Hage b' u' w' later'. unfold handler.
      assert (cached (mkCache (Some content) later) now' = Some content)
        as ->; [|reflexivity].
      apply cached_some. cbn [playlistCache playlistCacheTime]. auto.
Qed.

(** X2.  A request that does not answer with the playlist leaves the cache
    exactly as it was; and when the cache check fails (no content, empty
    content, or content an hour old) the answer is the one of a server with
    an empty cache: content that has expired is not served, not even when
    the load fails. *)
Theorem X2_playlist_failure_keeps_cache
    (b u : string) (w : World) (now later : Z) (c : Cache) :
  (status (fst (handler b u w now later c)) <> Some 200%Z ->
     snd (handler b u w now later c) = c) /\
  (cached c now = None ->
     fst (handler b u w now later c)
       = fst (handler b u w now later emptyCache)).
Proof.
  unfold handler. split.
  - destruct (cached c now); cbn [fst snd status]; [congruence|].
    destruct (load b u w); cbn [fst snd status]; congruence.
  - intros ->. cbn [cached emptyCache playlistCache].
    now destruct (load b u w).
Qed.

(** X3.  The cache check is strict on both counts: content stored an hour
    ago or more is loaded again, and an empty playlist, though stored, is
    never served from the cache, so that every request loads it again. *)
Theorem X3_playlist_cache_expiry_and_empty (c : Cache) (now : Z) :
  ((playlistCacheTime c + CACHE_DURATION <= now)%Z -> cached c now = None) /\
  (playlistCache c = Some EmptyString -> cached c now = None).
Proof.
  split.
  - intros H. destruct (cached c now) as [x|] eqn:E; [|reflexivity].
    apply cached_some in E. lia.
  - intros H. destruct (cached c now) as [x|] eqn:E; [|reflexivity].
    apply cached_some in E. destruct E as (E & Hne & _).
    rewrite H in E. injection E as <-. congruence.
Qed.

Lemma load_listed (b u : string) (w : World) (files : list string) :
  readdirSync w Root = Ok files ->
  (existsSync w DataDir = true -> exists l, readdirSync w DataDir = Ok l) ->
  load b u w = chooseSource b u w.
Proof.
  intros Hroot Hdata. unfold load. rewrite Hroot. cbn [andThen].
  destruct (existsSync w DataDir); [|reflexivity].
  destruct (Hdata eq_refl) as (l & ->). reflexivity.
Qed.

(** X4.  Before any source is tried the handler lists the root directory
    and, when it exists, the data directory: if a listing throws, the
    answer is the 500 with the message of that error, whatever is
    configured.  When the listings succeed, the sources are tried in a
    fixed order and the first one that is configured decides alone: the
    inline base64 text when it is set; else the URL when it is set, the
    files not being read even when the fetch fails; else the private file
    when it exists, the public file not being read even when the read
    throws; else the public file; and when neither file exists the answer
    is the 404 with the listing of the directory. *)
Theorem X4_playlist_source_order
    (b u : string) (w : World) (now later : Z) (c : Cache) :
  cached c now = None ->
  (forall message,
     readdirSync w Root = Throw message ->
     handler b u w now later c = (Failed message, c)) /\
  (forall files message,
     readdirSync w Root = Ok files ->
     existsSync w DataDir = true ->
     readdirSync w DataDir = Throw message ->
     handler b u w now later c = (Failed message, c)) /\
  (forall files,
     readdirSync w Root = Ok files ->
     (existsSync w DataDir = true -> exists l, readdirSync w DataDir = Ok l) ->
     (b <> EmptyString ->
        fst (handler b u w now later c) = Served (decodeBase64 w b)) /\
     (b = EmptyString -> u <> EmptyString ->
        fst (handler b u w now later c) =
          match fetchUrl w u with
          | Some (Ok data) => Served data
          | Some (Throw message) => Failed message
          | None => NoReply
          end) /\
     (b = EmptyString -> u = EmptyString ->
        forall text,
          (existsSync w DataPlaylist = true /\
           readFileSync w DataPlaylist = Ok text) \/
          (existsSync w DataPlaylist = false /\
           existsSync w PublicPlaylist = true /\
           readFileSync w PublicPlaylist = Ok text) ->
          fst (handler b u w now later c) = Served text) /\
     (b = EmptyString -> u = EmptyString ->
        forall message,
          existsSync w DataPlaylist = true ->
          readFileSync w DataPlaylist = Throw message ->
          handler b u w now later c = (Failed message, c)) /\
     (b = EmptyString -> u = EmptyString ->
        existsSync w DataPlaylist = false ->
        existsSync w PublicPlaylist = false ->
        handler b u w now later c = (NotConfigured files, c))).
Proof.
  intros Hmiss. unfold handler. rewrite Hmiss. split; [|split].
  - intros message Hroot. unfold load. now rewrite Hroot.
  - intros files message Hroot He Hdata. unfold load.
    now rewrite Hroot, He, Hdata.
  - intros files Hroot Hdata.
    rewrite (load_listed b u w files Hroot Hdata). unfold chooseSource.
    split; [|split; [|split; [|split]]].
    + intros Hb. apply truthy_nonempty in Hb. now rewrite Hb.
    + intros -> Hu. apply truthy_nonempty in Hu. cbn [truthy isEmpty negb].
      rewrite Hu. now destruct (fetchUrl w u) as [[data|m]|].
    + intros -> -> text [[He Hr]|(He1 & He2 & Hr)]; cbn [truthy isEmpty negb].
      * now rewrite He, Hr.
      * now rewrite He1, He2, Hr.
    + intros -> -> message He Hr. cbn [truthy isEmpty negb].
      now rewrite He, Hr.
    + intros -> -> He1 He2. cbn [truthy isEmpty negb].
      now rewrite He1, He2, Hroot.
Qed.



Lemma X1_witness :
  handler EmptyString EmptyString bareWorld 3600000 0
          (mkCache (Some "#EXTM3Ux") 1000)
    = (Served "#EXTM3Ux", mkCache (Some "#EXTM3Ux") 1000) /\
  handler EmptyString "http://h/list.m3u" servingWorld 0 1000 emptyCache
    = (Served "#EXTM3Ux", mkCache (Some "#EXTM3Ux") 1000).
Proof.
  split.
  - apply (proj1 (X1_playlist_cache_hit_and_store
                    (mkCache (Some "#EXTM3Ux") 1000) 3600000) "#EXTM3Ux").
    reflexivity.
  - apply (proj2 (X1_playlist_cache_hit_and_store emptyCache 0)
             EmptyString "http://h/list.m3u" servingWorld 1000%Z "#EXTM3Ux");
      reflexivity.
Defined.

Lemma X2_witness :
  snd (handler EmptyString "http://h/list.m3u" bareWorld 7200000 7200001
         (mkCache (Some "#EXTM3Ux") 0))
    = mkCache (Some "#EXTM3Ux") 0 /\
  fst (handler EmptyString "http://h/list.m3u" bareWorld 7200000 7200001
         (mkCache (Some "#EXTM3Ux") 0))
    = fst (handler EmptyString "http://h/list.m3u" bareWorld 7200000 7200001
             emptyCache).
Proof.
  split.
  - apply (proj1 (X2_playlist_failure_keeps_cache EmptyString
                    "http://h/list.m3u" bareWorld 7200000 7200001
                    (mkCache (Some "#EXTM3Ux") 0))).
    discriminate.
  - apply (proj2 (X2_playlist_failure_keeps_cache EmptyString
                    "http://h/list.m3u" bareWorld 7200000 7200001
                    (mkCache (Some "#EXTM3Ux") 0))).
    reflexivity.
Defined.

Lemma X3_witness :
  cached (mkCache (Some "#EXTM3Ux") 0) 3600000 = None /\
  cached (mkCache (Some EmptyString) 0) 1 = None.
Proof.
  split.
  - apply (proj1 (X3_playlist_cache_expiry_and_empty
                    (mkCache (Some "#EXTM3Ux") 0) 3600000)).
    vm_compute. discriminate.
  - apply (proj2 (X3_playlist_cache_expiry_and_empty
                    (mkCache (Some EmptyString) 0) 1)).
    reflexivity.
Defined.

Lemma X4_witness :
  fst (handler "I0VYVE0zVQ==" "http://h/list.m3u" bareWorld 0 0 emptyCache)
    = Served "I0VYVE0zVQ==" /\
  fst (handler EmptyString "http://h/list.m3u" bareWorld 0 0 emptyCache)
    = Failed "HTTP 404" /\
  handler EmptyString EmptyString bareWorld 0 0 emptyCache
    = (NotConfigured ["server.js"], emptyCache).
Proof.
  pose proof (proj2 (proj2 (X4_playlist_source_order "I0VYVE0zVQ=="
                              "http://h/list.m3u" bareWorld 0 0 emptyCache
                              eq_refl))
                ["server.js"] eq_refl
                (fun H => False_ind _ (Bool.diff_false_true H))) as H1.
  pose proof (proj2 (proj2 (X4_playlist_source_order EmptyString
                              "http://h/list.m3u" bareWorld 0 0 emptyCache
                              eq_refl))
                ["server.js"] eq_refl
                (fun H => False_ind _ (Bool.diff_false_true H))) as H2.
  pose proof (proj2 (proj2 (X4_playlist_source_order EmptyString
                              EmptyString bareWorld 0 0 emptyCache
                              eq_refl))
                ["server.js"] eq_refl
                (fun H => False_ind _ (Bool.diff_false_true H))) as H3.
  split; [|split].
  - apply (proj1 H1). discriminate.
  - apply (proj1 (proj2 H2)); [reflexivity | discriminate].
  - apply (proj2 (proj2 (proj2 (proj2 H3)))); reflexivity.
Defined.


End PlaylistEndpoint.

(* ================================================================== *)
(** * From the player to the provider *)
(* ================================================================== *)

Section ProxyPath.
Import Js Regex.

Lemma skip_app (p rest : string) : skip (String.length p) (p ++ rest) = rest.
Proof. induction p as [|c p IH]; [reflexivity | exact IH]. Qed.

Lemma replaceFirst_prefix (p rest replacement : string) :
  replaceFirst (p ++ rest) p replacement = replacement ++ rest.
Proof.
  pose proof (startsWith_app p rest) as Hs.
  pose proof (skip_app p rest) as Hk.
  destruct (p ++ rest) as [|c s]; cbn [replaceFirst]; now rewrite Hs, Hk.
Qed.

Lemma replaceFirst_absent (s pattern replacement : string) :
  includes s pattern = false -> replaceFirst s pattern replacement = s.
Proof.
  induction s as [|c s IH]; cbn [includes replaceFirst]; intros H;
    apply orb_false_elim in H; destruct H as [H1 H2]; rewrite H1.
  - reflexivity.
  - now rewrite IH.
Qed.

Lemma strip_startsWith (l s : string) :
  strip false l s = None <-> startsWith s l = false.
Proof.
  revert s. induction l as [|a l IH]; intros s;
    destruct s as [|b s]; cbn [strip startsWith];
    try (split; discriminate); try tauto.
  unfold char_eq.
  destruct (Ascii.eqb a b); cbn [andb]; [apply IH | tauto].
Qed.

Lemma toLowerCase_app (a b : string) :
  toLowerCase (a ++ b) = toLowerCase a ++ toLowerCase b.
Proof. induction a as [|c a IH]; cbn; congruence. Qed.

Lemma toLowerCase_length (s : string) :
  String.length (toLowerCase s) = String.length s.
Proof. induction s as [|c s IH]; cbn; congruence. Qed.

Lemma lower_char_idem (c : ascii) : lower_char (lower_char c) = lower_char c.
Proof. destruct c as [[] [] [] [] [] [] [] []]; reflexivity. Qed.

Lemma toLowerCase_idem (s : string) :
  toLowerCase (toLowerCase s) = toLowerCase s.
Proof.
  induction s as [|c s IH]; [reflexivity|].
  cbn [toLowerCase]. now rewrite lower_char_idem, IH.
Qed.

Lemma skip_length_app (a b : string) :
  skip (String.length (a ++ b) - String.length b) (a ++ b) = b.
Proof.
  rewrite length_append.
  replace (String.length a + String.length b - String.length b)%nat
    with (String.length a) by lia.
  apply skip_app.
Qed.

Lemma skip_split (n : nat) :
  forall s, (n <= String.length s)%nat ->
            exists a, s = a ++ skip n s /\ String.length a = n.
Proof.
  induction n as [|n IH]; intros s H.
  - now exists EmptyString.
  - destruct s as [|c s]; [cbn in H; lia|]. cbn [String.length] in H.
    destruct (IH s) as (a & E & Ha); [lia|].
    exists (String c a). cbn [skip append String.length].
    split; [now rewrite <- E | now rewrite Ha].
Qed.

Lemma endsWith_iff (s suffix : string) :
  endsWith s suffix = true <-> exists a, s = a ++ suffix.
Proof.
  unfold endsWith. rewrite andb_true_iff, Nat.leb_le, String.eqb_eq. split.
  - intros [Hle E].
    destruct (skip_split (String.length s - String.length suffix) s)
      as (a & Ha & _); [lia|].
    exists a. now rewrite E in Ha.
  - intros (a & ->). split.
    + rewrite length_append. lia.
    + apply skip_length_app.
Qed.

Lemma takeUntil_lacks (c : ascii) (s : string) :
  lacks c s = true -> takeUntil (fun x => Ascii.eqb x c) s = s.
Proof.
  unfold lacks. induction s as [|x s IH]; [reflexivity|].
  cbn [all takeUntil]. intros H. apply andb_prop in H. destruct H as [Hx H].
  apply negb_true_iff in Hx. now rewrite Hx, IH.
Qed.

(** X6.  The URL the player requests is what the URL parser of the
    browser makes, against the origin of the page, of the playback URL with
    the first occurrence of the provider's origin replaced by the proxy
    prefix: for a playback URL on the provider's origin that is the prefix
    followed by its path, and a URL that does not hold the provider's
    origin is resolved as it is.  The rewrite of the development proxy
    takes a leading proxy prefix off a request path, and leaves a path
    outside the prefix as it is.  Hence, when the parser returns the page
    origin followed by the prefix and the path as they are (nothing in the
    path for it to normalise) and the path holds no fragment, the path sent
    upstream is the path of the playback URL. *)
Theorem X6_player_proxy_path
    (href : string -> string -> string) (origin : string) :
  (forall path,
     Player.relativeProxyUrl (Player.providerOrigin ++ path)
       = "/stream-proxy" ++ path /\
     Player.absoluteProxyUrl href origin (Player.providerOrigin ++ path)
       = href origin ("/stream-proxy" ++ path)) /\
  (forall url,
     includes url Player.providerOrigin = false ->
     Player.absoluteProxyUrl href origin url = href origin url) /\
  (forall target, Vite.rewrite ("/stream-proxy" ++ target) = target) /\
  (forall path,
     startsWith path "/stream-proxy" = false -> Vite.rewrite path = path) /\
  (forall path,
     href origin ("/stream-proxy" ++ path)
       = origin ++ "/stream-proxy" ++ path ->
     lacks "#" path = true ->
     Vite.rewrite
       (Player.requestTarget origin
          (Player.absoluteProxyUrl href origin
             (Player.providerOrigin ++ path)))
       = path).
Proof.
  assert (Hstrip : forall target,
            Vite.rewrite ("/stream-proxy" ++ target) = target).
  { intros target.
    unfold Vite.rewrite, replaceAtStart, Vite.proxyPrefixRe.
    cbn [seq m Nat.eqb].
    rewrite (strip_complete false "/stream-proxy" "/stream-proxy" target
               eq_refl).
    reflexivity. }
  assert (Hrel : forall path,
            Player.relativeProxyUrl (Player.providerOrigin ++ path)
              = "/stream-proxy" ++ path).
  { intros path. unfold Player.relativeProxyUrl.
    apply replaceFirst_prefix. }
  split; [|split; [|split; [|split]]].
  - intros path. split; [apply Hrel|].
    unfold Player.absoluteProxyUrl. now rewrite Hrel.
  - intros url H. unfold Player.absoluteProxyUrl, Player.relativeProxyUrl.
    now rewrite replaceFirst_absent.
  - exact Hstrip.
  - intros path H. unfold Vite.rewrite, replaceAtStart, Vite.proxyPrefixRe.
    cbn [seq m Nat.eqb]. apply strip_startsWith in H. now rewrite H.
  - intros path H Hfrag.
    unfold Player.absoluteProxyUrl, Player.requestTarget.
    rewrite Hrel, H, skip_app, takeUntil_lacks; [apply Hstrip|].
    exact Hfrag.
Qed.

Lemma X6_witness :
  Player.absoluteProxyUrl (fun base input => base ++ input)
    "http://localhost:5173" "https://cdn.example.org/live/1.ts"
    = "http://localhost:5173" ++ "https://cdn.example.org/live/1.ts" /\
  Vite.rewrite "/api/playlist" = "/api/playlist" /\
  Vite.rewrite
    (Player.requestTarget "http://localhost:5173"
       (Player.absoluteProxyUrl (fun base input => base ++ input)
          "http://localhost:5173" (Player.providerOrigin ++ "/live/1.ts")))
    = "/live/1.ts".
Proof.
  split; [|split].
  - apply (proj1 (proj2 (X6_player_proxy_path
                           (fun base input => base ++ input)
                           "http://localhost:5173"))).
    reflexivity.
  - apply (proj1 (proj2 (proj2 (proj2 (X6_player_proxy_path
                                         (fun base input => base ++ input)
                                         "http://localhost:5173"))))).
    reflexivity.
  - apply (proj2 (proj2 (proj2 (proj2 (X6_player_proxy_path
                                         (fun base input => base ++ input)
                                         "http://localhost:5173"))))).
    + reflexivity.
    + reflexivity.
Defined.

(** X7.  The player hands the stream to the native video element exactly
    when the playback URL ends in .mp4, in any letter case, whatever the
    browser supports; a query string after the extension makes it a
    non-MP4.  Any other URL goes to the mpegts player when that is
    supported, else to the native element when the browser plays HLS, else
    nowhere. *)
Theorem X7_player_playback_choice (url : string) (mpegts hls : bool) :
  (Player.playback url mpegts hls = Player.NativeVideo <->
     exists stem ext, url = stem ++ ext /\ toLowerCase ext = ".mp4") /\
  (Player.isMp4 url = false ->
     Player.playback url mpegts hls =
       if mpegts then Player.MpegtsPlayer
       else if hls then Player.NativeFallback else Player.NoPlayback).
Proof.
  assert (Hmp4 : Player.isMp4 url = true <->
                 exists stem ext, url = stem ++ ext /\ toLowerCase ext = ".mp4").
  { unfold Player.isMp4. rewrite endsWith_iff. split.
    - intros (a & Ha).
      destruct (skip_split (String.length url - 4) url) as (stem & E & Hs).
      { lia. }
      exists stem, (skip (String.length url - 4) url). split; [exact E|].
      assert (String.length (toLowerCase url) = String.length a + 4)%nat as Hl
        by (rewrite Ha, length_append; reflexivity).
      rewrite toLowerCase_length in Hl.
      rewrite E, toLowerCase_app in Ha at 1.
      assert (String.length (toLowerCase stem) = String.length a) as Hla
        by (rewrite toLowerCase_length; lia).
      clear - Ha Hla. revert a Ha Hla.
      generalize (toLowerCase (skip (String.length url - 4) url)) as x.
      generalize (toLowerCase stem) as y.
      induction y as [|c y IH]; intros x a Ha Hla.
      + destruct a; [exact Ha | discriminate Hla].
      + destruct a as [|d a]; [discriminate Hla|].
        cbn [append] in Ha. injection Ha as _ Ha.
        cbn [String.length] in Hla. apply (IH x a); [exact Ha | lia].
    - intros (stem & ext & -> & He). exists (toLowerCase stem).
      now rewrite toLowerCase_app, He. }
  unfold Player.playback. split.
  - rewrite <- Hmp4.
    destruct (Player.isMp4 url); [tauto|].
    split; [|discriminate]. now destruct mpegts, hls.
  - now intros ->.
Qed.

Lemma X7_witness :
  Player.playback "http://h/movie.mp4?token=1" false true
    = Player.NativeFallback.
Proof.
  apply (proj2 (X7_player_playback_choice "http://h/movie.mp4?token=1"
                  false true)).
  reflexivity.
Defined.

End ProxyPath.

(* ================================================================== *)
(** * Cross-origin headers and errors of the proxy *)
(* ================================================================== *)

Section ProxyMore.
Import Js Server.

Lemma fold_forward_none (upstream : JsArray.t HeaderValue) (todo : list string) :
  fold_left (forwardHeader upstream) todo None = None.
Proof. induction todo as [|k todo IH]; [reflexivity | exact IH]. Qed.

(** The loop leaves alone the headers whose name is none of the names it
    goes through. *)
Lemma forward_loop_frame (upstream : JsArray.t HeaderValue) (name : string)
    (todo : list string) :
  Forall (fun k => toLowerCase k = k) todo ->
  ~ In (toLowerCase name) todo ->
  forall r r',
    fold_left (forwardHeader upstream) todo (Some r) = Some r' ->
    Res.getHeader r' name = Res.getHeader r name /\
    Res.headersSent r' = Res.headersSent r /\
    Res.body r' = Res.body r /\ Res.finished r' = Res.finished r /\
    Res.piped r' = Res.piped r.
Proof.
  induction todo as [|key todo IH]; intros Hlow Hnot r r' H.
  - cbn in H. injection H as <-. auto.
  - inversion Hlow as [|? ? Hkey Hlow']; subst.
    cbn [fold_left] in H.
    destruct (forwardHeader upstream (Some r) key) as [r1|] eqn:E.
    2:{ rewrite fold_forward_none in H. discriminate H. }
    destruct (IH Hlow' (fun Hin => Hnot (or_intror Hin)) r1 r' H)
      as (Hg & Hs & Hb & Hf & Hp).
    unfold forwardHeader in E. cbn [bind] in E.
    destruct (problematic key); cbn [negb] in E.
    { injection E as <-. auto. }
    destruct (JsArray.get upstream key) as [v|]; [|discriminate E].
    cbn [bind] in E.
    destruct (getHeader_setHeader _ _ _ name _ E)
      as (Hs1 & _ & Hb1 & Hf1 & Hp1 & Hg1).
    assert (Res.headersSent r = false) as Hs0.
    { unfold Res.setHeader in E. destruct (Res.headersSent r);
        [discriminate E | reflexivity]. }
    rewrite Hg, Hg1, Hkey, Hs, Hb, Hf, Hp, Hs1, Hb1, Hf1, Hp1, Hs0.
    destruct (String.eqb key (toLowerCase name)) eqn:E'; [|auto].
    apply String.eqb_eq in E'. exfalso. apply Hnot. now left.
Qed.

(** X8.  The response callback puts the three cross-origin headers on the
    client response, and an upstream header of the same name replaces them:
    each of the three has the upstream value when the upstream response
    carries that header, and the fixed value otherwise.  The callback sends
    nothing itself: it leaves the headers unsent and the response open, with
    the upstream body piped into it. *)
Theorem X8_proxy_cors_headers (proxyRes : Upstream.t) (res : Res.t) :
  Res.headersSent res = false ->
  incomingHeaders (Upstream.headers proxyRes) ->
  exists res',
    onProxyResponse proxyRes res = Some res' /\
    (forall name fixed,
       In (name, fixed)
          [("Access-Control-Allow-Origin", "*");
           ("Access-Control-Allow-Methods", "GET, OPTIONS");
           ("Access-Control-Expose-Headers",
            "Content-Length, Content-Range, Content-Type")] ->
       Res.getHeader res' name =
         match JsArray.get (Upstream.headers proxyRes) (toLowerCase name) with
         | Some v => Some v
         | None => Some (Single fixed)
         end) /\
    Res.headersSent res' = false /\ Res.piped res' = true /\
    Res.finished res' = Res.finished res /\ Res.body res' = Res.body res.
Proof.
  intros Hs Hlow. unfold onProxyResponse.
  destruct (setHeader_some res "Access-Control-Allow-Origin" (Single "*") Hs)
    as (r1 & E1).
  rewrite E1. cbn [bind].
  pose proof (fun k => getHeader_setHeader _ _ _ k _ E1) as H1.
  destruct (H1 te) as (Hs1 & _ & Hb1 & Hf1 & _).
  destruct (setHeader_some r1 "Access-Control-Allow-Methods"
              (Single "GET, OPTIONS") Hs1) as (r2 & E2).
  rewrite E2. cbn [bind].
  pose proof (fun k => getHeader_setHeader _ _ _ k _ E2) as H2.
  destruct (H2 te) as (Hs2 & _ & Hb2 & Hf2 & _).
  destruct (setHeader_some r2 "Access-Control-Expose-Headers"
              (Single "Content-Length, Content-Range, Content-Type") Hs2)
    as (r3 & E3).
  rewrite E3. cbn [bind].
  pose proof (fun k => getHeader_setHeader _ _ _ k _ E3) as H3.
  destruct (H3 te) as (Hs3 & _ & Hb3 & Hf3 & _).
  destruct (forward_loop (Upstream.headers proxyRes) r3
              (JsArray.keys (Upstream.headers proxyRes)) Hlow
              (fun k H => H) r3 [])
    as (r4 & E4 & Hc).
  { constructor. }
  { repeat split; trivial. intros k []. }
  rewrite E4. cbn [bind].
  destruct Hc as (Hs4 & _ & Hb4 & Hf4 & _ & _ & Hcp).
  eexists. split; [reflexivity|]. split.
  2:{ cbn [Res.pipeFrom Res.status Res.headersSent Res.piped Res.finished
           Res.body].
      repeat split; congruence. }
  intros name fixed Hin.
  change (Res.getHeader r4 name =
          match JsArray.get (Upstream.headers proxyRes) (toLowerCase name) with
          | Some v => Some v
          | None => Some (Single fixed)
          end).
  assert (Hname : toLowerCase (toLowerCase name) = toLowerCase name)
    by apply toLowerCase_idem.
  assert (Hget : Res.getHeader r4 name = Res.getHeader r4 (toLowerCase name)).
  { unfold Res.getHeader. now rewrite Hname. }
  destruct (JsArray.get (Upstream.headers proxyRes) (toLowerCase name))
    as [v|] eqn:Hup.
  - rewrite Hget, Hcp; trivial.
    + cbn [app]. eapply get_In_keys; eauto.
    + cbn [In] in Hin.
      destruct Hin as [H|[H|[H|[]]]]; injection H as <- _; discriminate.
  - assert (~ In (toLowerCase name) (JsArray.keys (Upstream.headers proxyRes)))
      as Hnot.
    { intros Hk. apply has_keys in Hk. unfold JsArray.has in Hk.
      rewrite Hup in Hk. discriminate Hk. }
    destruct (forward_loop_frame _ name _ Hlow Hnot _ _ E4) as (Hg & _).
    rewrite Hg. cbn [In] in Hin.
    destruct Hin as [H|[H|[H|[]]]]; injection H as <- <-.
    + destruct (H3 "Access-Control-Allow-Origin") as (_ & _ & _ & _ & _ & ->).
      destruct (H2 "Access-Control-Allow-Origin") as (_ & _ & _ & _ & _ & ->).
      destruct (H1 "Access-Control-Allow-Origin") as (_ & _ & _ & _ & _ & ->).
      reflexivity.
    + destruct (H3 "Access-Control-Allow-Methods") as (_ & _ & _ & _ & _ & ->).
      destruct (H2 "Access-Control-Allow-Methods") as (_ & _ & _ & _ & _ & ->).
      reflexivity.
    + destruct (H3 "Access-Control-Expose-Headers") as (_ & _ & _ & _ & _ & ->).
      reflexivity.
Qed.

Lemma X8_witness :
  exists res',
    onProxyResponse partialContent freshRes = Some res' /\
    (forall name fixed,
       In (name, fixed)
          [("Access-Control-Allow-Origin", "*");
           ("Access-Control-Allow-Methods", "GET, OPTIONS");
           ("Access-Control-Expose-Headers",
            "Content-Length, Content-Range, Content-Type")] ->
       Res.getHeader res' name =
         match JsArray.get (Upstream.headers partialContent)
                 (toLowerCase name) with
         | Some v => Some v
         | None => Some (Single fixed)
         end) /\
    Res.headersSent res' = false /\ Res.piped res' = true /\
    Res.finished res' = false /\ Res.body res' = None.
Proof.
  apply (X8_proxy_cors_headers partialContent freshRes).
  - reflexivity.
  - repeat constructor.
Defined.

(** X9.  The error listener answers at most once: an error that follows an
    error changes nothing.  An error that comes after the response callback
    has run, but before anything was sent, still yields the 502 with the
    diagnostic object, in place of the upstream status the callback had
    set. *)
Theorem X9_proxy_error_once (m1 m2 : string) (res : Res.t)
    (proxyRes : Upstream.t) :
  onProxyError m2 (onProxyError m1 res) = onProxyError m1 res /\
  (forall res',
     onProxyResponse proxyRes res = Some res' ->
     Res.statusCode (onProxyError m1 res') = 502%Z /\
     Res.body (onProxyError m1 res')
       = Some [("error", "Stream unavailable"); ("details", m1)] /\
     Res.finished (onProxyError m1 res') = true).
Proof.
  split.
  - unfold onProxyError. destruct (Res.headersSent res) eqn:E; cbn [negb].
    + now rewrite E.
    + reflexivity.
  - intros res' H.
    assert (Res.headersSent res' = false) as Hs.
    { unfold onProxyResponse in H.
      destruct (Res.setHeader res "Access-Control-Allow-Origin" (Single "*"))
        as [r1|]; [|discriminate H]. cbn [bind] in H.
      destruct (Res.setHeader r1 _ _) as [r2|]; [|discriminate H].
      cbn [bind] in H.
      destruct (Res.setHeader r2 _ _) as [r3|] eqn:E3; [|discriminate H].
      cbn [bind] in H.
      destruct (fold_left _ _ (Some r3)) as [r4|] eqn:E4; [|discriminate H].
      cbn [bind] in H. injection H as <-.
      cbn [Res.pipeFrom Res.status Res.headersSent].
      destruct (getHeader_setHeader _ _ _ te _ E3) as (Hs3 & _).
      clear - E4 Hs3. revert r3 r4 E4 Hs3.
      induction (JsArray.keys (Upstream.headers proxyRes)) as [|k l IH];
        intros r3 r4 E4 Hs3.
      - cbn in E4. now injection E4 as <-.
      - cbn [fold_left] in E4.
        destruct (forwardHeader (Upstream.headers proxyRes) (Some r3) k)
          as [r|] eqn:E.
        2:{ rewrite fold_forward_none in E4. discriminate E4. }
        apply (IH r r4 E4). unfold forwardHeader in E. cbn [bind] in E.
        destruct (problematic k); cbn [negb] in E; [now injection E as <-|].
        destruct (JsArray.get (Upstream.headers proxyRes) k) as [v|];
          [|discriminate E].
        cbn [bind] in E.
        now destruct (getHeader_setHeader _ _ _ te _ E) as (H & _). }
    unfold onProxyError. rewrite Hs. cbn [negb]. repeat split.
Qed.

Lemma X9_witness :
  exists res',
    onProxyResponse (Upstream.mk 206 []) freshRes = Some res' /\
    Res.statusCode res' = 206%Z /\
    Res.statusCode (onProxyError "aborted" res') = 502%Z /\
    Res.body (onProxyError "aborted" res')
      = Some [("error", "Stream unavailable"); ("details", "aborted")] /\
    Res.finished (onProxyError "aborted" res') = true.
Proof.
  eexists. split; [reflexivity|]. split; [reflexivity|].
  apply (proj2 (X9_proxy_error_once "aborted" "aborted" freshRes
                  (Upstream.mk 206 []))).
  reflexivity.
Defined.

End ProxyMore.

(* ================================================================== *)
(** * Filtering and categories *)
(* ================================================================== *)

Section Filtering.
Import Js App.

Lemma toLowerCase_empty (s : string) :
  toLowerCase s = EmptyString <-> s = EmptyString.
Proof. destruct s; cbn; split; congruence. Qed.

Lemma filter_filter {A : Type} (f g : A -> bool) (l : list A) :
  filter f (filter g l) = filter (fun x => g x && f x) l.
Proof.
  induction l as [|x l IH]; [reflexivity|]. cbn [filter].
  destruct (g x); cbn [filter andb]; [|exact IH].
  destruct (f x); now rewrite IH.
Qed.

Lemma filter_idem {A : Type} (f : A -> bool) (l : list A) :
  filter f (filter f l) = filter f l.
Proof.
  rewrite filter_filter. apply filter_ext. intros x. now destruct (f x).
Qed.

(** X10.  Filtering.  With neither a category nor a search text the
    filtered list is empty (not the whole catalog).  The search ignores the
    letter case of the query.  Filtering by category and then searching in
    the result is the filter by both; and filtering an already filtered
    list again by the same category and text changes nothing. *)
Theorem X10_filteredChannels_laws (channels : list Channel)
    (category query : string) :
  filteredChannels channels EmptyString EmptyString = [] /\
  (forall query',
     toLowerCase query = toLowerCase query' ->
     filteredChannels channels category query
       = filteredChannels channels category query') /\
  (category <> EmptyString -> query <> EmptyString ->
     filteredChannels (filteredChannels channels category EmptyString)
                      EmptyString query
       = filteredChannels channels category query) /\
  filteredChannels (filteredChannels channels category query) category query
    = filteredChannels channels category query.
Proof.
  split; [reflexivity|]. split; [|split].
  - intros query' H. unfold filteredChannels. rewrite <- H.
    assert (truthy query' = truthy query) as ->; [|reflexivity].
    destruct query, query'; trivial; discriminate H.
  - intros Hc Hq. apply truthy_nonempty in Hc, Hq.
    unfold filteredChannels. cbn [truthy isEmpty negb].
    now rewrite Hc, Hq.
  - unfold filteredChannels.
    destruct (truthy category), (truthy query); cbn [negb andb];
      trivial; rewrite ?filter_filter.
    + rewrite <- (filter_filter
                    (fun c => includes (toLowerCase (M3U.name c))
                                       (toLowerCase query))
                    (fun c => String.eqb (M3U.group c) category)).
      rewrite !filter_filter. apply filter_ext. intros c.
      destruct (String.eqb (M3U.group c) category); cbn [andb]; trivial.
      now destruct (includes _ _).
    + apply filter_ext. intros c. now destruct (String.eqb _ _).
    + apply filter_ext. intros c. now destruct (includes _ _).
Qed.

Lemma X10_witness :
  filteredChannels [episodeA; movieD] "Series" "SHOW"
    = filteredChannels [episodeA; movieD] "Series" "show" /\
  filteredChannels (filteredChannels [episodeA; movieD] "Series" EmptyString)
                   EmptyString "show"
    = filteredChannels [episodeA; movieD] "Series" "show".
Proof.
  split.
  - apply (proj1 (proj2 (X10_filteredChannels_laws [episodeA; movieD]
                           "Series" "SHOW"))).
    reflexivity.
  - apply (proj1 (proj2 (proj2 (X10_filteredChannels_laws [episodeA; movieD]
                                  "Series" "show"))));
      discriminate.
Defined.

End Filtering.

Section AssocSums.
Context {V : Type}.
Implicit Types (mp : JsArray.t V) (k : string) (v : V).

Lemma set_existing mp k v :
  In k (JsArray.keys mp) ->
  JsArray.set mp k v = JsArray.update mp k (fun _ => v).
Proof.
  unfold JsArray.keys.
  induction mp as [|[k' v'] mp IH]; cbn [map fst In JsArray.set JsArray.update];
    intros H; [contradiction|].
  destruct (String.eqb k' k) eqn:E; [reflexivity|].
  apply String.eqb_neq in E. rewrite IH; [reflexivity|].
  destruct H; congruence.
Qed.

Lemma get_keys_none mp k :
  JsArray.get mp k = None <-> ~ In k (JsArray.keys mp).
Proof.
  rewrite <- has_keys. unfold JsArray.has.
  destruct (JsArray.get mp k); split; congruence.
Qed.

(** Updating the value under a key that is present adds to a sum of weights
    what the update adds to the weight of that value. *)
Lemma sum_update (w : V -> nat) mp k (f : V -> V) v0 :
  JsArray.get mp k = Some v0 ->
  list_sum (map w (JsArray.values (JsArray.update mp k f))) + w v0
    = list_sum (map w (JsArray.values mp)) + w (f v0).
Proof.
  unfold JsArray.values.
  induction mp as [|[k' v'] mp IH];
    cbn [JsArray.get JsArray.update map snd list_sum]; [discriminate|].
  destruct (String.eqb k' k); cbn [map snd]; unfold list_sum in *;
    cbn [fold_right].
  - intros H. injection H as ->. lia.
  - intros H. specialize (IH H). lia.
Qed.

(** An update touches the first entry of its key only: what holds of every
    value and is kept by the update holds afterwards. *)
Lemma Forall_update_values (Q : V -> Prop) mp k (f : V -> V) :
  (forall v, Q v -> Q (f v)) ->
  Forall (fun kv => Q (snd kv)) mp ->
  Forall (fun kv => Q (snd kv)) (JsArray.update mp k f).
Proof.
  intros Hf Hall. induction mp as [|[k' v'] mp IH]; cbn [JsArray.update];
    [constructor|].
  inversion Hall as [|? ? Hhd Htl]; subst. cbn [snd] in Hhd.
  destruct (String.eqb k' k); constructor; cbn [snd]; auto.
Qed.

Lemma get_update_same mp k (f : V -> V) :
  JsArray.get (JsArray.update mp k f) k = option_map f (JsArray.get mp k).
Proof.
  induction mp as [|[k' v'] mp IH]; cbn [JsArray.update JsArray.get];
    [reflexivity|].
  destruct (String.eqb k' k) eqn:E; cbn [JsArray.get]; rewrite E;
    [reflexivity | exact IH].
Qed.

End AssocSums.

Section Categories.
Import Js App.

Lemma get_In {V : Type} (mp : JsArray.t V) (k : string) (v : V) :
  JsArray.get mp k = Some v -> In (k, v) mp.
Proof.
  induction mp as [|[k' v'] mp IH]; cbn [JsArray.get]; [discriminate|].
  destruct (String.eqb k' k) eqn:E.
  - apply String.eqb_eq in E. intros H. injection H as ->. subst. now left.
  - intros H. right. now apply IH.
Qed.

Lemma groupSize_app (g : string) (l1 l2 : list Channel) :
  groupSize g (l1 ++ l2) = (groupSize g l1 + groupSize g l2)%nat.
Proof. unfold groupSize. now rewrite filter_app, length_app. Qed.

Lemma groupSize_one (g : string) (c : Channel) :
  groupSize g [c] = if String.eqb (M3U.group c) g then 1%nat else 0%nat.
Proof. unfold groupSize. cbn [filter]. now destruct (String.eqb _ _). Qed.

Lemma groupSize_zero (g : string) (l : list Channel) :
  (forall c, In c l -> M3U.group c <> g) -> groupSize g l = 0%nat.
Proof.
  intros H. unfold groupSize.
  destruct (filter _ l) as [|c l'] eqn:E; [reflexivity|].
  assert (In c (filter (fun c => String.eqb (M3U.group c) g) l)) as Hin
    by (rewrite E; now left).
  apply filter_In in Hin. destruct Hin as [Hin Hg].
  apply String.eqb_eq in Hg. now destruct (H c Hin).
Qed.

Lemma list_sum_perm (l l' : list nat) :
  Permutation l l' -> list_sum l = list_sum l'.
Proof.
  induction 1 as [| x l l' _ IH | x y l | l l' l'' _ IH1 _ IH2];
    unfold list_sum in *; cbn [fold_right]; lia.
Qed.

(** The map of the counting loop after the entries [done]. *)
Lemma countGroup_ok (mp : JsArray.t nat) (done : list Channel) (c : Channel) :
  (NoDup (JsArray.keys mp) /\
   Forall (fun kv => snd kv = groupSize (fst kv) done /\ (1 <= snd kv)%nat) mp /\
   (forall c', In c' done -> In (M3U.group c') (JsArray.keys mp)) /\
   list_sum (JsArray.values mp) = List.length done) ->
  NoDup (JsArray.keys (countGroup mp c)) /\
  Forall (fun kv => snd kv = groupSize (fst kv) (done ++ [c])
                    /\ (1 <= snd kv)%nat) (countGroup mp c) /\
  (forall c', In c' (done ++ [c]) ->
              In (M3U.group c') (JsArray.keys (countGroup mp c))) /\
  list_sum (JsArray.values (countGroup mp c)) = List.length (done ++ [c]).
Proof.
  intros (Hnd & Hall & Hcov & Hsum). unfold countGroup.
  set (g := M3U.group c).
  assert (Hother : forall k, k <> g ->
            groupSize k (done ++ [c]) = groupSize k done).
  { intros k Hk. rewrite groupSize_app, groupSize_one. fold g.
    destruct (String.eqb g k) eqn:E; [|lia].
    apply String.eqb_eq in E. congruence. }
  assert (Hself : groupSize g (done ++ [c]) = S (groupSize g done)).
  { rewrite groupSize_app, groupSize_one. fold g.
    rewrite String.eqb_refl. lia. }
  rewrite length_app. cbn [List.length].
  destruct (JsArray.get mp g) as [n|] eqn:Hget.
  - pose proof (get_In _ _ _ Hget) as Hin.
    rewrite Forall_forall in Hall. destruct (Hall _ Hin) as [Hn Hpos].
    cbn [fst snd] in Hn, Hpos.
    assert (natOr (Some n) 0 = n) as ->.
    { cbn [natOr]. destruct (n =? 0)%nat eqn:E; [|reflexivity].
      apply Nat.eqb_eq in E. lia. }
    assert (In g (JsArray.keys mp)) as Hk by (eapply get_In_keys; eauto).
    rewrite (set_existing mp g _ Hk). rewrite keys_update.
    split; [exact Hnd|]. split; [|split].
    + apply Forall_update
        with (P := fun k v => v = groupSize k done /\ (1 <= v)%nat)
             (Q := fun k v => v = groupSize k (done ++ [c]) /\ (1 <= v)%nat);
        trivial.
      * intros v [Hv _]. rewrite Hself, <- Hn. lia.
      * intros k' v Hne [Hv Hp]. now rewrite Hother.
      * apply Forall_forall. intros kv Hkv. now apply Hall.
    + intros c' Hc'. apply in_app_or in Hc'.
      destruct Hc' as [Hc'|[<-|[]]]; auto.
    + pose proof (sum_update (fun x => x) mp g (fun _ => (n + 1)%nat) n Hget)
        as Hs.
      rewrite !map_id in Hs. lia.
  - apply get_keys_none in Hget. cbn [natOr]. rewrite (set_fresh _ _ _ Hget).
    unfold JsArray.keys, JsArray.values in *. rewrite !map_app.
    cbn [map fst snd]. split; [|split; [|split]].
    + apply NoDup_app_remove_l with (l := []). cbn [app].
      apply Permutation_NoDup with (l := g :: map fst mp).
      * apply Permutation_cons_append.
      * now constructor.
    + apply Forall_app. split.
      * eapply Forall_impl; [|exact Hall]. intros [k n] [Hn Hp].
        cbn [fst snd] in *. split; [|exact Hp].
        rewrite Hother; [exact Hn|].
        intros ->. apply Hget.
        rewrite Forall_forall in Hall.
        destruct (Nat.eq_dec (groupSize g done) 0) as [Hz|Hz]; [lia|].
        destruct (filter (fun c => String.eqb (M3U.group c) g) done)
          as [|c0 l0] eqn:E.
        { unfold groupSize in Hz. rewrite E in Hz. now destruct Hz. }
        assert (In c0 (filter (fun c => String.eqb (M3U.group c) g) done))
          as H0 by (rewrite E; now left).
        apply filter_In in H0. destruct H0 as [H0 Hg].
        apply String.eqb_eq in Hg. rewrite <- Hg. now apply Hcov.
      * constructor; [|constructor]. cbn [fst snd]. split; [|lia].
        rewrite Hself, groupSize_zero; [reflexivity|].
        intros c' Hc' Hg. apply Hget. rewrite <- Hg. now apply Hcov.
    + intros c' Hc'. apply in_app_or in Hc'. apply in_or_app.
      destruct Hc' as [Hc'|[<-|[]]]; [left; auto | right; now left].
    + rewrite list_sum_app. unfold list_sum at 2. cbn [fold_right]. lia.
Qed.

Lemma groupCounts_ok (channels : list Channel) :
  NoDup (JsArray.keys (groupCounts channels)) /\
  Forall (fun kv => snd kv = groupSize (fst kv) channels /\ (1 <= snd kv)%nat)
         (groupCounts channels) /\
  (forall c, In c channels ->
             In (M3U.group c) (JsArray.keys (groupCounts channels))) /\
  list_sum (JsArray.values (groupCounts channels)) = List.length channels.
Proof.
  unfold groupCounts.
  assert (H : forall l mp done,
            (NoDup (JsArray.keys mp) /\
             Forall (fun kv => snd kv = groupSize (fst kv) done
                               /\ (1 <= snd kv)%nat) mp /\
             (forall c', In c' done -> In (M3U.group c') (JsArray.keys mp)) /\
             list_sum (JsArray.values mp) = List.length done) ->
            NoDup (JsArray.keys (fold_left countGroup l mp)) /\
            Forall (fun kv => snd kv = groupSize (fst kv) (done ++ l)
                              /\ (1 <= snd kv)%nat) (fold_left countGroup l mp) /\
            (forall c', In c' (done ++ l) ->
               In (M3U.group c') (JsArray.keys (fold_left countGroup l mp))) /\
            list_sum (JsArray.values (fold_left countGroup l mp))
              = List.length (done ++ l)).
  { induction l as [|c l IH]; intros mp done Hok; cbn [fold_left].
    - now rewrite app_nil_r.
    - specialize (IH _ _ (countGroup_ok mp done c Hok)).
      now rewrite <- app_assoc in IH. }
  apply (H channels (@nil (string * nat)) (@nil Channel)).
  repeat split; try constructor. intros c' [].
Qed.

(** X11.  The category list has one entry for each group name that occurs,
    no name twice; the count of an entry is the number of channels of that
    group, which is at least one; and the counts add up to the number of
    channels.  This holds whatever the collation that orders the list. *)
Theorem X11_categories_counts (localeCompare : string -> string -> Z)
    (channels : list Channel) :
  NoDup (map Category.name (categories localeCompare channels)) /\
  (forall cat, In cat (categories localeCompare channels) ->
     Category.count cat = groupSize (Category.name cat) channels /\
     (1 <= Category.count cat)%nat) /\
  (forall c, In c channels ->
     exists cat, In cat (categories localeCompare channels) /\
                 Category.name cat = M3U.group c) /\
  list_sum (map Category.count (categories localeCompare channels))
    = List.length channels.
Proof.
  destruct (groupCounts_ok channels) as (Hnd & Hall & Hcov & Hsum).
  unfold categories.
  set (cmp := fun a b => localeCompare (Category.name a) (Category.name b)).
  set (raw := map (fun kv => Category.mk (fst kv) (snd kv))
                  (groupCounts channels)).
  pose proof (sort_perm cmp raw) as Hp.
  assert (Hnames : map Category.name raw = JsArray.keys (groupCounts channels)).
  { unfold raw, JsArray.keys. rewrite map_map. now apply map_ext. }
  assert (Hcounts : map Category.count raw
                    = JsArray.values (groupCounts channels)).
  { unfold raw, JsArray.values. rewrite map_map. now apply map_ext. }
  split; [|split; [|split]].
  - eapply Permutation_NoDup.
    + symmetry. apply Permutation_map. exact Hp.
    + now rewrite Hnames.
  - intros cat Hin. apply (Permutation_in _ Hp) in Hin.
    unfold raw in Hin. apply in_map_iff in Hin.
    destruct Hin as ([k n] & <- & Hkv).
    rewrite Forall_forall in Hall. exact (Hall _ Hkv).
  - intros c Hc. specialize (Hcov c Hc). rewrite <- Hnames in Hcov.
    apply in_map_iff in Hcov. destruct Hcov as (cat & Hn & Hin).
    exists cat. split; [|exact Hn].
    eapply Permutation_in; [symmetry; exact Hp | exact Hin].
  - rewrite (list_sum_perm _ _ (Permutation_map Category.count Hp)).
    now rewrite Hcounts.
Qed.

Lemma X11_witness :
  (Category.count (Category.mk "Series" 2)
     = groupSize "Series" [episodeA; movieD] /\
   (1 <= Category.count (Category.mk "Series" 2))%nat) /\
  exists cat,
    In cat (categories (fun _ _ => 0%Z) [episodeA; movieD]) /\
    Category.name cat = M3U.group movieD.
Proof.
  split.
  - apply (proj1 (proj2 (X11_categories_counts (fun _ _ => 0%Z)
                           [episodeA; movieD]))).
    left. reflexivity.
  - apply (proj1 (proj2 (proj2 (X11_categories_counts (fun _ _ => 0%Z)
                                  [episodeA; movieD])))).
    right. left. reflexivity.
Defined.

End Categories.

(* ================================================================== *)
(** * The series of the catalog and the channels beside them *)
(* ================================================================== *)

Section CatalogFields.
Import Js App.

Lemma update_app_fresh {V : Type} (mp : JsArray.t V) (k : string) (v : V)
    (f : V -> V) :
  ~ In k (JsArray.keys mp) ->
  JsArray.update (mp ++ [(k, v)])%list k f = (mp ++ [(k, f v)])%list.
Proof.
  unfold JsArray.keys.
  induction mp as [|[k' v'] mp IH]; cbn [map fst In app JsArray.update];
    intros H.
  - now rewrite String.eqb_refl.
  - destruct (String.eqb k' k) eqn:E.
    + apply String.eqb_eq in E. tauto.
    + rewrite IH; tauto.
Qed.

(** One step of the grouping loop, seen from the values of the map: an
    entry without series name goes to the standalone list; an entry with one
    is appended to its series, which is created when the name is new. *)
Lemma addChannel_cases (sm : JsArray.t Series) (st : list Channel)
    (c : Channel) :
  (hasSeriesName c = false /\ addChannel (sm, st) c = (sm, (st ++ [c])%list)) \/
  (exists sn push,
     M3U.seriesName c = Some sn /\ hasSeriesName c = true /\
     push = (fun s : Series =>
               {| name := name s; logo := logo s;
                  seasonCount := seasonCount s;
                  episodeCount := S (episodeCount s);
                  episodes := (episodes s ++ [c])%list |}) /\
     ((exists s0, JsArray.get sm sn = Some s0 /\
                  addChannel (sm, st) c = (JsArray.update sm sn push, st)) \/
      (JsArray.get sm sn = None /\
       addChannel (sm, st) c =
         ((sm ++ [(sn, {| name := sn; logo := M3U.logo c; seasonCount := 0;
                          episodeCount := 1; episodes := [c] |})])%list,
          st)))).
Proof.
  unfold addChannel, hasSeriesName.
  destruct (M3U.seriesName c) as [sn|]; [|left; auto].
  destruct (truthy sn) eqn:Ht; [|left; auto].
  right. eexists sn, _. split; [reflexivity|]. split; [reflexivity|].
  split; [reflexivity|].
  unfold JsArray.has. destruct (JsArray.get sm sn) as [s0|] eqn:Hget;
    cbn [negb].
  - left. exists s0. auto.
  - right. split; [reflexivity|].
    apply get_keys_none in Hget.
    rewrite (set_fresh _ _ _ Hget), (update_app_fresh _ _ _ _ Hget).
    reflexivity.
Qed.

Lemma fold_addChannel_fields (l : list Channel) :
  forall (sm : JsArray.t Series) (st : list Channel),
    Forall (fun kv => seriesFilled (snd kv)) sm ->
    let r := fold_left addChannel l (sm, st) in
    Forall (fun kv => seriesFilled (snd kv)) (fst r) /\
    snd r = (st ++ filter (fun c => negb (hasSeriesName c)) l)%list /\
    list_sum (map episodeCount (JsArray.values (fst r)))
      = (list_sum (map episodeCount (JsArray.values sm))
         + List.length (filter hasSeriesName l))%nat.
Proof.
  induction l as [|c l IH]; intros sm st Hall; cbn [fold_left filter].
  - cbn [fst snd List.length]. rewrite app_nil_r. auto.
  - destruct (addChannel_cases sm st c)
      as [[Hno E] | (sn & push & Hsn & Hyes & Hpush & [(s0 & Hget & E) | [Hget E]])];
      rewrite E.
    + rewrite Hno. cbn [negb]. specialize (IH sm (st ++ [c])%list Hall).
      cbn zeta in IH. rewrite <- app_assoc in IH. exact IH.
    + rewrite Hyes. cbn [negb List.length].
      assert (Forall (fun kv => seriesFilled (snd kv))
                     (JsArray.update sm sn push)) as Hall'.
      { apply Forall_update_values; [|exact Hall].
        intros s (Hc & c0 & l0 & He & Hl). subst push.
        unfold seriesFilled. cbn [episodeCount episodes logo]. split.
        - rewrite length_app, Hc. cbn. lia.
        - exists c0, (l0 ++ [c])%list. now rewrite He. }
      specialize (IH _ st Hall'). cbn zeta in IH.
      destruct IH as (H1 & H2 & H3). repeat split; trivial.
      etransitivity; [exact H3|].
      pose proof (sum_update episodeCount sm sn push s0 Hget) as Hs.
      subst push. cbn [episodeCount] in Hs. lia.
    + rewrite Hyes. cbn [negb List.length].
      assert (Forall (fun kv => seriesFilled (snd kv))
                (sm ++ [(sn, {| name := sn; logo := M3U.logo c;
                                seasonCount := 0; episodeCount := 1;
                                episodes := [c] |})])%list) as Hall'.
      { apply Forall_app. split; [exact Hall|]. constructor; [|constructor].
        cbn [snd]. split; [reflexivity|]. now exists c, []. }
      specialize (IH _ st Hall'). cbn zeta in IH.
      destruct IH as (H1 & H2 & H3). repeat split; trivial.
      etransitivity; [exact H3|].
      unfold JsArray.values. rewrite !map_app, list_sum_app.
      cbn. lia.
Qed.

(** The result of the grouping in series mode, in terms of its loop. *)
Lemma grouping_series (filtered : list Channel) :
  isSeries filtered = true ->
  exists sm,
    mapOk sm filtered /\
    Forall (fun kv => seriesFilled (snd kv)) sm /\
    groupedSeries (grouping filtered) = map finishSeries (JsArray.values sm) /\
    standaloneChannels (grouping filtered)
      = filter (fun c => negb (hasSeriesName c)) filtered /\
    list_sum (map episodeCount (JsArray.values sm))
      = List.length (filter hasSeriesName filtered).
Proof.
  intros His. unfold grouping. rewrite His. cbn [negb].
  assert (mapOk (@nil (string * Series)) (@nil Channel)) as H0.
  { repeat split; try constructor; intros; contradiction. }
  match goal with
  | |- context [fold_left addChannel filtered ?init] =>
      assert (mapOk (fst (fold_left addChannel filtered init)) filtered)
        as Hok by (exact (fold_addChannel_ok filtered _ _ [] H0));
      assert (Forall (fun kv => seriesFilled (snd kv))
                     (fst (fold_left addChannel filtered init)) /\
              snd (fold_left addChannel filtered init)
                = filter (fun c => negb (hasSeriesName c)) filtered /\
              list_sum (map episodeCount
                          (JsArray.values
                             (fst (fold_left addChannel filtered init))))
                = List.length (filter hasSeriesName filtered)) as Hf
        by (exact (fold_addChannel_fields filtered [] [] (Forall_nil _)));
      destruct (fold_left addChannel filtered init) as [sm st]
  end.
  cbn [fst snd app] in *. destruct Hf as (H1 & H2 & H3).
  exists sm. cbn [groupedSeries standaloneChannels].
  repeat split; trivial; apply Hok.
Qed.

Lemma nodup_length_le {A : Type} (dec : forall x y : A, {x = y} + {x <> y})
    (l : list A) :
  (List.length (nodup dec l) <= List.length l)%nat.
Proof.
  induction l as [|x l IH]; cbn [nodup List.length]; [lia|].
  destruct (in_dec dec x l); cbn [List.length]; lia.
Qed.

Lemma nodup_nonempty {A : Type} (dec : forall x y : A, {x = y} + {x <> y})
    (l : list A) :
  l <> [] -> (1 <= List.length (nodup dec l))%nat.
Proof.
  intros H. destruct (nodup dec l) as [|y l'] eqn:E; [|cbn; lia].
  destruct l as [|x l]; [congruence|].
  assert (In x (nodup dec (x :: l))) as Hin
    by (apply nodup_In; now left).
  rewrite E in Hin. destruct Hin.
Qed.

(** X12.  Every series of the catalog is consistent: its episode count is
    the length of its episode list; its season count is the number of
    distinct seasons among its episodes (an unset season counting as 1),
    at least one and at most the episode count; and its logo is the logo of
    the first entry of the input that carries its name, which need not be
    the first episode of the sorted list.  No two series of the catalog
    have the same name. *)
Theorem X12_series_fields (filtered : list Channel) :
  (forall s, In s (groupedSeries (grouping filtered)) ->
     episodeCount s = List.length (episodes s) /\
     seasonCount s
       = List.length (distinct (map (fun e => numOr (M3U.season e) 1)
                                    (episodes s))) /\
     (1 <= seasonCount s <= episodeCount s)%nat /\
     exists c l, episodesOf (name s) filtered = c :: l /\
                 logo s = M3U.logo c) /\
  NoDup (map name (groupedSeries (grouping filtered))).
Proof.
  destruct (isSeries filtered) eqn:His.
  2:{ rewrite grouping_flat by exact His. split; [intros s []|constructor]. }
  destruct (grouping_series filtered His)
    as (sm & (Hnd & Hentries & _) & Hfilled & -> & _).
  rewrite Forall_forall in Hentries, Hfilled. split.
  - intros s Hin. unfold JsArray.values in Hin. rewrite map_map in Hin.
    apply in_map_iff in Hin. destruct Hin as ([k s0] & <- & Hkv).
    destruct (Hentries _ Hkv) as (Hn & _ & He).
    destruct (Hfilled _ Hkv) as (Hc & c & l & Hl & Hlogo).
    cbn [fst snd] in *.
    cbn [finishSeries episodeCount episodes seasonCount logo name].
    pose proof (sort_perm compareEpisodes (episodes s0)) as Hp.
    assert (List.length (JsArray.sort compareEpisodes (episodes s0))
            = List.length (episodes s0)) as Hlen
      by (now apply Permutation_length).
    split; [congruence|]. split; [reflexivity|]. split.
    + split.
      * apply nodup_nonempty. intros Hnil.
        apply (f_equal (@List.length Z)) in Hnil.
        rewrite length_map, Hlen, Hl in Hnil. discriminate Hnil.
      * unfold distinct. etransitivity; [apply nodup_length_le|].
        rewrite length_map. lia.
    + exists c, l. rewrite Hn, <- He. auto.
  - unfold JsArray.values. rewrite !map_map.
    assert (map (fun x => name (finishSeries (snd x))) sm = JsArray.keys sm)
      as ->; [|exact Hnd].
    unfold JsArray.keys. apply map_ext_in. intros [k s0] Hkv.
    destruct (Hentries _ Hkv) as (Hn & _). exact Hn.
Qed.

(** X13.  In series mode the grouping loses no entry and doubles none: the
    standalone channels are the entries without series name, in order; the
    episode counts of the series add up to the number of entries with a
    series name; and every entry with a series name is an episode of the
    series of that name.  In flat mode there is no series and every entry is
    standalone. *)
Theorem X13_grouping_partition (filtered : list Channel) :
  (isSeries filtered = true ->
     standaloneChannels (grouping filtered)
       = filter (fun c => negb (hasSeriesName c)) filtered /\
     (list_sum (map episodeCount (groupedSeries (grouping filtered)))
      + List.length (standaloneChannels (grouping filtered))
      = List.length filtered)%nat /\
     forall c sn,
       In c filtered -> M3U.seriesName c = Some sn -> sn <> EmptyString ->
       exists s, In s (groupedSeries (grouping filtered)) /\
                 name s = sn /\ In c (episodes s)) /\
  (isSeries filtered = false ->
     groupedSeries (grouping filtered) = [] /\
     standaloneChannels (grouping filtered) = filtered).
Proof.
  split.
  - intros His.
    destruct (grouping_series filtered His)
      as (sm & Hok & Hfilled & Hg & Hs & Hsum).
    split; [exact Hs|]. split.
    + rewrite Hg, Hs. unfold JsArray.values in *. rewrite !map_map.
      rewrite map_map in Hsum.
      assert (map (fun x => episodeCount (finishSeries (snd x))) sm
              = map (fun x => episodeCount (snd x)) sm) as ->
        by (now apply map_ext).
      rewrite Hsum. clear. induction filtered as [|c l IH]; [reflexivity|].
      cbn [filter List.length]. destruct (hasSeriesName c);
        cbn [negb List.length]; lia.
    + intros c sn Hin Hsn Hne. apply truthy_nonempty in Hne.
      destruct (groupedSeries_ex filtered c sn His Hin Hsn Hne)
        as (s & Hs' & Hname).
      exists s. repeat split; trivial.
      destruct (groupedSeries_in _ _ Hs') as (_ & _ & He & _).
      rewrite He. eapply Permutation_in; [symmetry; apply sort_perm|].
      apply episodesOf_In. rewrite Hname. auto.
  - intros His. unfold grouping. rewrite His. auto.
Qed.

Lemma X12_witness :
  episodeCount (mkSeries "Show" EmptyString 1 3 [episodeA; episodeB; episodeC])
    = 3%nat /\
  exists c l,
    episodesOf "Show" [episodeC; episodeA; movieD; episodeB] = c :: l /\
    EmptyString = M3U.logo c.
Proof.
  destruct (proj1 (X12_series_fields [episodeC; episodeA; movieD; episodeB])
              (mkSeries "Show" EmptyString 1 3 [episodeA; episodeB; episodeC]))
    as (H1 & _ & _ & H4).
  - vm_compute. left. reflexivity.
  - split; [exact H1 | exact H4].
Defined.

Lemma X13_witness :
  (list_sum (map episodeCount
               (groupedSeries (grouping [episodeC; episodeA; movieD; episodeB])))
   + List.length
       (standaloneChannels (grouping [episodeC; episodeA; movieD; episodeB]))
   = 4)%nat /\
  standaloneChannels (grouping [episodeA; movieD]) = [episodeA; movieD].
Proof.
  split.
  - apply (proj1 (X13_grouping_partition
                    [episodeC; episodeA; movieD; episodeB])).
    vm_compute. reflexivity.
  - apply (proj2 (X13_grouping_partition [episodeA; movieD])).
    vm_compute. reflexivity.
Defined.

End CatalogFields.

(* ================================================================== *)
(** * Seasons, navigation and the first category *)
(* ================================================================== *)

Section Navigation.
Import Js App.

Lemma sorted_lt_of_le (l : list Z) :
  StronglySorted Z.le l -> NoDup l -> StronglySorted Z.lt l.
Proof.
  induction 1 as [|x l Hs IH Hx]; intros Hnd; constructor.
  - apply IH. now inversion Hnd.
  - inversion Hnd as [|? ? Hnotin _]; subst.
    rewrite Forall_forall in *. intros y Hy. specialize (Hx y Hy).
    assert (x <> y) by (intros ->; contradiction). lia.
Qed.

Lemma seasons_sorted (l : list Z) :
  StronglySorted Z.lt
    (JsArray.sort (fun a b => (a - b)%Z) (distinct l)) /\
  forall n, In n (JsArray.sort (fun a b => (a - b)%Z) (distinct l)) <-> In n l.
Proof.
  pose proof (sort_perm (fun a b => (a - b)%Z) (distinct l)) as Hp. split.
  - apply sorted_lt_of_le.
    + apply sort_sorted; intros; lia.
    + eapply Permutation_NoDup; [symmetry; exact Hp|]. apply NoDup_nodup.
  - intros n. unfold distinct in *. split.
    + intros H. apply (nodup_In Z.eq_dec).
      revert H. apply Permutation_in. exact Hp.
    + intros H. apply (nodup_In Z.eq_dec) in H.
      revert H. apply Permutation_in. symmetry. exact Hp.
Qed.

(** X14.  With a series selected and the layout on screen: before a season
    is chosen the seasons view lists the seasons of the series in strictly
    ascending order, each season once, an unset (or zero) season counting as
    season 1; every episode falls under one of the listed seasons and every
    listed season has an episode.  Once a season is chosen the episodes view
    shows exactly the episodes of the series that fall under it. *)
Theorem X14_seasons_and_episodes (st : State) (s : Series) :
  layoutShown st = true ->
  selectedSeries st = Some s ->
  (selectedSeason st = None ->
     exists seasons,
       render st = SeasonsView s seasons /\
       StronglySorted Z.lt seasons /\
       (forall e, In e (episodes s) ->
                  In (numOr (M3U.season e) 1) seasons) /\
       (forall n, In n seasons ->
          n <> 0%Z /\
          exists e, In e (episodes s) /\ numOr (M3U.season e) 1 = n)) /\
  (forall n, selectedSeason st = Some n ->
     exists shown,
       render st = EpisodesView s n shown /\
       forall e, In e shown <->
                 In e (episodes s) /\ numOr (M3U.season e) 1 = n).
Proof.
  intros Hshown Hs. unfold layoutShown in Hshown.
  apply andb_prop in Hshown. destruct Hshown as [Hl He].
  apply negb_true_iff in Hl, He.
  unfold render. rewrite Hl, He, Hs. split.
  - intros ->. eexists. split; [reflexivity|].
    destruct (seasons_sorted (map (fun e => numOr (M3U.season e) 1)
                                  (episodes s))) as [Hsorted Hin].
    split; [exact Hsorted|]. split.
    + intros e Hine. apply Hin.
      apply (in_map (fun e => numOr (M3U.season e) 1)). exact Hine.
    + intros n Hn. apply Hin in Hn. apply in_map_iff in Hn.
      destruct Hn as (e & <- & Hine). split; [|eauto].
      unfold numOr. destruct (M3U.season e) as [v|]; [|discriminate].
      destruct (v =? 0)%Z eqn:E; [discriminate|]. now apply Z.eqb_neq.
  - intros n ->. eexists. split; [reflexivity|].
    intros e. rewrite filter_In, Z.eqb_eq. tauto.
Qed.

Lemma X14_witness :
  exists seasons,
    render (mkState [] false EmptyString "Series" EmptyString
              (Some (mkSeries "Show" EmptyString 1 2 [episodeA; episodeC]))
              None)
      = SeasonsView (mkSeries "Show" EmptyString 1 2 [episodeA; episodeC])
                    seasons /\
    StronglySorted Z.lt seasons /\
    (forall e, In e [episodeA; episodeC] ->
               In (numOr (M3U.season e) 1) seasons) /\
    (forall n, In n seasons ->
       n <> 0%Z /\
       exists e, In e [episodeA; episodeC] /\ numOr (M3U.season e) 1 = n).
Proof.
  apply (proj1 (X14_seasons_and_episodes
                  (mkState [] false EmptyString "Series" EmptyString
                     (Some (mkSeries "Show" EmptyString 1 2
                              [episodeA; episodeC])) None)
                  (mkSeries "Show" EmptyString 1 2 [episodeA; episodeC])
                  eq_refl eq_refl)).
  reflexivity.
Defined.






End Navigation.

Section FirstCategory.
Import Js App.

Lemma string_leb_trans (a b c : string) :
  String.leb a b = true -> String.leb b c = true -> String.leb a c = true.
Proof.
  unfold String.leb. revert b c.
  induction a as [|x a IH]; intros [|y b] [|z c]; cbn [String.compare];
    try (intros; (reflexivity || discriminate)).
  unfold Ascii.compare.
  destruct (N.compare_spec (N_of_ascii x) (N_of_ascii y)),
           (N.compare_spec (N_of_ascii y) (N_of_ascii z)),
           (N.compare_spec (N_of_ascii x) (N_of_ascii z));
    try lia; intros; try reflexivity; try discriminate; eauto.
Qed.

Lemma compareStrings_le (a b : string) :
  (compareStrings a b <= 0)%Z <-> String.leb a b = true.
Proof.
  unfold compareStrings, String.leb.
  destruct (String.compare a b); split; intros; try reflexivity;
    try discriminate; lia.
Qed.

Lemma sortedGroups_spec (parsed : list Channel) :
  StronglySorted (fun a b => String.leb a b = true) (sortedGroups parsed) /\
  forall g, In g (sortedGroups parsed) <->
            exists c, In c parsed /\ M3U.group c = g.
Proof.
  unfold sortedGroups. split.
  - apply sort_sorted.
    + exact compareStrings_le.
    + exact String.leb_total.
    + exact string_leb_trans.
  - intros g.
    pose proof (sort_perm compareStrings
                  (nodup string_dec (map M3U.group parsed))) as Hp.
    split.
    + intros H. apply (Permutation_in _ Hp), nodup_In, in_map_iff in H.
      destruct H as (c & E & Hc). eauto.
    + intros (c & Hc & E). apply (Permutation_in _ (Permutation_sym Hp)).
      apply nodup_In, in_map_iff. eauto.
Qed.

(** X16.  When the playlist fetch resolves, the component stores the parsed
    entries and stops loading, leaving the error, the search text and the
    selection as they were.  If the playlist has no entry the selected
    category stays; otherwise it becomes a group of some entry, and the one
    that comes first in code unit order: no entry has a group before it. *)
Theorem X16_first_category (st : State) (text : string) :
  exists st',
    handle st (FetchResolved text) = Some st' /\
    channels st' = M3U.parseM3U text /\
    loading st' = false /\
    error st' = error st /\
    searchQuery st' = searchQuery st /\
    selectedSeries st' = selectedSeries st /\
    selectedSeason st' = selectedSeason st /\
    (M3U.parseM3U text = [] -> selectedCategory st' = selectedCategory st) /\
    (M3U.parseM3U text <> [] ->
       (exists c, In c (M3U.parseM3U text) /\
                  M3U.group c = selectedCategory st') /\
       forall c, In c (M3U.parseM3U text) ->
                 String.leb (selectedCategory st') (M3U.group c) = true).
Proof.
  eexists. split; [reflexivity|].
  cbn [channels loading error searchQuery selectedSeries selectedSeason
       selectedCategory].
  repeat (split; [reflexivity|]). split.
  - intros ->. reflexivity.
  - intros Hne.
    destruct (sortedGroups_spec (M3U.parseM3U text)) as [Hsorted Hin].
    destruct (sortedGroups (M3U.parseM3U text)) as [|g gs] eqn:E.
    + exfalso. destruct (M3U.parseM3U text) as [|c l]; [now apply Hne|].
      apply (proj2 (Hin (M3U.group c))). exists c. split; [now left|reflexivity].
    + split.
      * apply Hin. now left.
      * intros c Hc.
        assert (In (M3U.group c) (g :: gs)) as [<-|Hg]
          by (apply Hin; eauto).
        -- now destruct (String.leb_total g g).
        -- inversion Hsorted as [|? ? _ Hall]; subst.
           rewrite Forall_forall in Hall. now apply Hall.
Qed.

End FirstCategory.

(* ================================================================== *)
(** * The metadata line: attributes and display name *)
(* ================================================================== *)

Section Attributes.
Import Js Regex M3U.

(** Where the literal that opens a pattern first occurs at the end of [pre],
    the search starts matching there. *)
Lemma search_skip (r : regex) (opener rest : string) :
  forall pre i,
    indexOf (pre ++ rest) opener = Some (String.length pre) ->
    search false (Cat (Lit opener) r) i (pre ++ rest) =
    search false (Cat (Lit opener) r) (i + String.length pre) rest.
Proof.
  induction pre as [|c pre IH]; intros i H.
  - cbn. now rewrite Nat.add_0_r.
  - cbn [append indexOf String.length] in H.
    destruct (startsWith (String c (pre ++ rest)) opener) eqn:Hs;
      [discriminate|].
    destruct (indexOf (pre ++ rest) opener) as [n|] eqn:Hi; [|discriminate].
    injection H as ->.
    cbn [append search m String.length].
    rewrite (proj2 (strip_startsWith _ _) Hs).
    rewrite IH by reflexivity. f_equal. lia.
Qed.

(** A greedy run takes all of a stretch of the class that ends before a
    character outside it, when the rest of the pattern matches there. *)
Lemma rep_greedy_run (p : ascii -> bool) (min : nat)
    (k : nat -> string -> option (list string)) (c : ascii)
    (rest : string) (res : list string) :
  p c = false ->
  forall v n i,
    all p v = true ->
    (min <= n + String.length v)%nat ->
    k (i + String.length v)%nat (String c rest) = Some res ->
    rep_greedy p min n i (v ++ String c rest) k = Some res.
Proof.
  intros Hc. induction v as [|x v IH]; intros n i Hv Hmin Hk.
  - cbn [append rep_greedy String.length] in *. rewrite Hc.
    rewrite Nat.add_0_r in *.
    now rewrite (proj2 (Nat.leb_le _ _) Hmin).
  - cbn [append rep_greedy all String.length] in *.
    apply andb_prop in Hv. destruct Hv as [Hx Hv]. rewrite Hx.
    rewrite (IH (S n) (S i)); trivial; [lia|].
    now rewrite Nat.add_succ_r in Hk.
Qed.

Lemma attrRe_sound (attr line : string) (mt : list string) :
  exec false (attrRe attr) line = Some mt ->
  exists pre v post,
    line = pre ++ (attr ++ "=" ++ dquote) ++ v ++ dquote ++ post /\
    all not_dquote v = true /\ mt = [v].
Proof.
  unfold exec, attrRe, star. cbn [seq]. intros H.
  apply search_sound in H. destruct H as (pre & a & post & -> & Hm).
  invert_matches.
  repeat match goal with
  | H : strip false _ _ = Some EmptyString |- _ =>
      apply strip_exact in H; subst
  end.
  match goal with
  | Ha : all not_dquote ?v = true |- _ => exists pre, v, post
  end.
  cbn [app]. repeat split; trivial.
  now rewrite !append_assoc.
Qed.

Lemma attrRe_matches (attr v : string) (i : nat) :
  all not_dquote v = true ->
  Matches false (attrRe attr) i ((attr ++ "=" ++ dquote) ++ v ++ dquote) [v].
Proof.
  intros Hv. unfold attrRe. cbn [seq].
  apply (MCat false _ _ i _ _ [] [v]); [constructor; apply strip_refl|].
  apply (MCat false _ _ _ _ _ [v] []).
  - apply (MCap false _ _ v []). constructor; [exact Hv | lia].
  - constructor. apply strip_refl.
Qed.

(** X17.  Reading an attribute off a metadata line, as done for
    group-title, tvg-logo and tvg-id.  (1) A value that is read stands in
    the line between the attribute name followed by an equals sign and a
    double quote, and the next double quote; it holds no double quote, and
    it may be empty, in which case the empty value is used, not the
    default.  (2) The default is used exactly when the line holds no such
    quoted attribute.  (3) Of several occurrences the first one wins. *)
Theorem X17_attribute_extraction (attr dflt : string) :
  (forall line mt,
     exec false (attrRe attr) line = Some mt ->
     exists pre v post,
       line = pre ++ (attr ++ "=" ++ dquote) ++ v ++ dquote ++ post /\
       all not_dquote v = true /\
       attrOr attr dflt line = v) /\
  (forall line,
     exec false (attrRe attr) line = None ->
     attrOr attr dflt line = dflt /\
     forall pre v post,
       all not_dquote v = true ->
       line <> pre ++ (attr ++ "=" ++ dquote) ++ v ++ dquote ++ post) /\
  (forall pre v post,
     all not_dquote v = true ->
     indexOf (pre ++ (attr ++ "=" ++ dquote) ++ v ++ dquote ++ post)
             (attr ++ "=" ++ dquote) = Some (String.length pre) ->
     attrOr attr dflt
       (pre ++ (attr ++ "=" ++ dquote) ++ v ++ dquote ++ post) = v).
Proof.
  split; [|split].
  - intros line mt H.
    destruct (attrRe_sound _ _ _ H) as (pre & v & post & Hl & Hv & ->).
    exists pre, v, post. unfold attrOr. now rewrite H.
  - intros line H. split; [unfold attrOr; now rewrite H|].
    intros pre v post Hv ->.
    revert H. unfold exec.
    replace ((attr ++ "=" ++ dquote) ++ v ++ dquote ++ post)
      with (((attr ++ "=" ++ dquote) ++ v ++ dquote) ++ post)
      by now rewrite !append_assoc.
    apply (search_complete false _ _ _ [v]). now apply attrRe_matches.
  - intros pre v post Hv Hi. unfold attrOr, exec, attrRe. cbn [seq].
    rewrite search_skip by exact Hi.
    rewrite (search_here false _ _ _ [v]); [reflexivity|].
    cbn [m]. rewrite strip_app. unfold star. cbn [m].
    apply rep_greedy_run; trivial; [lia|].
    unfold dquote at 1. cbn [strip char_eq]. rewrite Ascii.eqb_refl.
    unfold accept. cbn [app]. f_equal. f_equal.
    match goal with
    | |- substring 0 ?n _ = _ =>
        replace n with (String.length v) by lia
    end.
    apply substring_prefix.
Qed.

Lemma X17_witness :
  attrOr "group-title" "Uncategorized"
    ("#EXTINF:-1 " ++ ("group-title" ++ "=" ++ dquote) ++ EmptyString
       ++ dquote ++ ",Film")
    = EmptyString.
Proof.
  apply (proj2 (proj2 (X17_attribute_extraction "group-title"
                         "Uncategorized"))
           "#EXTINF:-1 " EmptyString ",Film");
    vm_compute; reflexivity.
Defined.

End Attributes.

Section TrimAndSplit.
Import Js.

Lemma trimEnd_idem (s : string) : trimEnd (trimEnd s) = trimEnd s.
Proof.
  induction s as [|c s IH]; [reflexivity|]. cbn [trimEnd].
  destruct (is_space c && isEmpty (trimEnd s)) eqn:E; [reflexivity|].
  cbn [trimEnd]. now rewrite IH, E.
Qed.

Lemma trimStart_fixed (s : string) :
  startsIn is_space s = false -> trimStart s = s.
Proof. destruct s as [|c s]; cbn; [reflexivity | now intros ->]. Qed.

Lemma trimStart_head (s : string) : startsIn is_space (trimStart s) = false.
Proof.
  induction s as [|c s IH]; [reflexivity|]. cbn [trimStart].
  destruct (is_space c) eqn:E; [exact IH | exact E].
Qed.

Lemma trimEnd_head (s : string) :
  startsIn is_space s = false -> startsIn is_space (trimEnd s) = false.
Proof.
  destruct s as [|c s]; [reflexivity|]. cbn [startsIn trimEnd].
  intros H. rewrite H. cbn [andb startsIn]. exact H.
Qed.

Lemma trim_idem (s : string) : trim (trim s) = trim s.
Proof.
  unfold trim.
  rewrite (trimStart_fixed (trimEnd (trimStart s))).
  - apply trimEnd_idem.
  - apply trimEnd_head, trimStart_head.
Qed.

Lemma all_trimStart (p : ascii -> bool) (s : string) :
  all p s = true -> all p (trimStart s) = true.
Proof.
  induction s as [|c s IH]; [reflexivity|]. cbn [trimStart]. intros H.
  destruct (is_space c); [|exact H].
  cbn [all] in H. apply andb_prop in H. now apply IH.
Qed.

Lemma all_trimEnd (p : ascii -> bool) (s : string) :
  all p s = true -> all p (trimEnd s) = true.
Proof.
  induction s as [|c s IH]; [reflexivity|]. cbn [trimEnd all]. intros H.
  apply andb_prop in H. destruct H as [Hc H].
  destruct (is_space c && isEmpty (trimEnd s)); [reflexivity|].
  cbn [all]. now rewrite Hc, IH.
Qed.

Lemma all_trim (p : ascii -> bool) (s : string) :
  all p s = true -> all p (trim s) = true.
Proof. intros H. now apply all_trimEnd, all_trimStart. Qed.

Lemma trimEnd_spaces (w : string) :
  all is_space w = true -> trimEnd w = EmptyString.
Proof.
  induction w as [|c w IH]; [reflexivity|]. cbn [all trimEnd]. intros H.
  apply andb_prop in H. destruct H as [Hc H]. now rewrite (IH H), Hc.
Qed.

Lemma trimEnd_app_spaces (s w : string) :
  all is_space w = true -> trimEnd (s ++ w) = trimEnd s.
Proof.
  intros Hw. induction s as [|c s IH]; [now apply trimEnd_spaces|].
  cbn [append trimEnd]. now rewrite IH.
Qed.

Lemma trimStart_app_spaces (s w : string) :
  all is_space w = true ->
  exists w', all is_space w' = true /\ trimStart (s ++ w) = trimStart s ++ w'.
Proof.
  intros Hw. induction s as [|c s IH].
  - exists EmptyString. split; [reflexivity|]. cbn [append].
    clear -Hw. induction w as [|c w IH]; [reflexivity|].
    cbn [all trimStart] in *. apply andb_prop in Hw.
    destruct Hw as [-> Hw]. now apply IH.
  - cbn [append trimStart]. destruct (is_space c); [exact IH|].
    exists w. now split.
Qed.

(** White space after or before a line does not show after trimming. *)
Lemma trim_app_spaces (s w : string) :
  all is_space w = true -> trim (s ++ w) = trim s.
Proof.
  intros Hw. unfold trim.
  destruct (trimStart_app_spaces s w Hw) as (w' & Hw' & ->).
  now apply trimEnd_app_spaces.
Qed.

Lemma trim_spaces_app (w s : string) :
  all is_space w = true -> trim (w ++ s) = trim s.
Proof.
  intros Hw. unfold trim. f_equal.
  induction w as [|c w IH]; [reflexivity|].
  cbn [all append trimStart] in *. apply andb_prop in Hw.
  destruct Hw as [-> Hw]. now apply IH.
Qed.

Lemma split_nonempty (sep : ascii) (s : string) : split sep s <> [].
Proof.
  destruct s as [|c s]; cbn [split]; [discriminate|].
  destruct (Ascii.eqb c sep); [discriminate|].
  destruct (split sep s); discriminate.
Qed.

(** The parts of a split, put together again around a separator. *)
Lemma split_app_sep (sep : ascii) (a b : string) :
  split sep (a ++ String sep b) = (split sep a ++ split sep b)%list.
Proof.
  induction a as [|c a IH]; cbn [append split].
  - now rewrite Ascii.eqb_refl.
  - rewrite IH. destruct (Ascii.eqb c sep); [reflexivity|].
    pose proof (split_nonempty sep a) as Hne.
    destruct (split sep a); [congruence | reflexivity].
Qed.

Lemma split_lacks (sep : ascii) (s : string) :
  lacks sep s = true -> split sep s = [s].
Proof.
  unfold lacks. induction s as [|c s IH]; [reflexivity|].
  cbn [all split]. intros H. apply andb_prop in H. destruct H as [Hc H].
  apply negb_true_iff in Hc. now rewrite Hc, (IH H).
Qed.

Lemma split_parts (sep : ascii) (s : string) :
  Forall (fun part => lacks sep part = true) (split sep s).
Proof.
  unfold lacks. induction s as [|c s IH]; cbn [split].
  - now repeat constructor.
  - destruct (Ascii.eqb c sep) eqn:E; [now constructor|].
    destruct (split sep s) as [|h t].
    { constructor; [cbn [all]; now rewrite E | constructor]. }
    inversion IH as [|? ? Hh Ht]; subst. constructor; [|exact Ht].
    cbn [all]. now rewrite E, Hh.
Qed.

Lemma last_app_nonempty {A : Type} (l1 l2 : list A) (d : A) :
  l2 <> [] -> last (l1 ++ l2) d = last l2 d.
Proof.
  intros Hne. induction l1 as [|x l1 IH]; [reflexivity|].
  cbn [app last]. rewrite IH.
  destruct (l1 ++ l2)%list eqn:E; [|reflexivity].
  apply app_eq_nil in E. now destruct E.
Qed.

Lemma last_Forall {A : Type} (P : A -> Prop) (l : list A) (d : A) :
  Forall P l -> l <> [] -> P (last l d).
Proof.
  induction 1 as [|x l Hx Hl IH]; [congruence|]. intros _.
  destruct l as [|y l]; [exact Hx|]. apply IH. discriminate.
Qed.

End TrimAndSplit.

Section DisplayName.
Import Js M3U.

Lemma readExtinf_name_ok (line : string) :
  lacks "," (currentName (readExtinf line)) = true /\
  trim (currentName (readExtinf line)) = currentName (readExtinf line).
Proof.
  cbn [readExtinf currentName]. split; [|apply trim_idem].
  apply all_trim.
  apply (last_Forall (fun part => lacks "," part = true));
    [apply split_parts | apply split_nonempty].
Qed.

(** X18.  The display name read off a metadata line is what follows the
    last comma of the line, trimmed; a line without a comma gives the whole
    line, trimmed, tag and attributes included.  So a name never holds a
    comma and never starts or ends with white space: of a title with a
    comma only the last piece is kept. *)
Theorem X18_display_name :
  (forall pre post,
     lacks "," post = true ->
     currentName (readExtinf (pre ++ "," ++ post)) = trim post) /\
  (forall line,
     lacks "," line = true -> currentName (readExtinf line) = trim line) /\
  (forall line,
     lacks "," (currentName (readExtinf line)) = true /\
     trim (currentName (readExtinf line)) = currentName (readExtinf line)).
Proof.
  split; [|split].
  - intros pre post H. cbn [readExtinf currentName append].
    rewrite split_app_sep, last_app_nonempty by apply split_nonempty.
    now rewrite (split_lacks _ _ H).
  - intros line H. cbn [readExtinf currentName].
    now rewrite (split_lacks _ _ H).
  - apply readExtinf_name_ok.
Qed.

Lemma X18_witness :
  currentName (readExtinf ("#EXTINF:-1,Me, Myself" ++ "," ++ " Irene "))
    = "Irene".
Proof.
  rewrite (proj1 X18_display_name "#EXTINF:-1,Me, Myself" " Irene ");
    vm_compute; reflexivity.
Defined.

End DisplayName.

(* ================================================================== *)
(** * The parsing loop: what every entry satisfies *)
(* ================================================================== *)

Section ParserInvariants.
Import Js M3U.

(** Invariants of the loop: [Q] of the pending fields and [P] of the
    entries, for lines that satisfy [L]. *)
Lemma run_pending_invariant (L : string -> Prop) (Q : Pending -> Prop)
    (P : list Channel -> Prop) :
  Q initial ->
  (forall raw, L raw -> isExtinfLine raw = true -> Q (readExtinf (trim raw))) ->
  (forall p channels raw,
     L raw -> Q p -> P channels -> isUrlLine raw = true ->
     P (channels ++ [makeEntry p (List.length channels) (trim raw)])%list) ->
  forall lines, Forall L lines ->
  forall p channels, Q p -> P channels ->
    Q (fst (run lines (p, channels))) /\ P (snd (run lines (p, channels))).
Proof.
  intros Hinit Hext Hurl. induction 1 as [|raw lines Hraw _ IH];
    intros p channels HQ HP; [now split|].
  rewrite run_cons, step_cases.
  destruct (isUrlLine raw) eqn:Hu; [apply IH; auto|].
  destruct (isExtinfLine raw) eqn:He; apply IH; auto.
Qed.

Lemma orElse_nonempty (a b : string) :
  b <> EmptyString -> orElse a b <> EmptyString.
Proof.
  intros Hb. unfold orElse. destruct a; cbn; [exact Hb | discriminate].
Qed.

Lemma makeEntry_fields (p : Pending) (n : nat) (line : string) :
  id (makeEntry p n line) = orElse (currentId p) ("ch-" ++ decimal n) /\
  name (makeEntry p n line) = orElse (currentName p) "Unknown Channel" /\
  logo (makeEntry p n line) = currentLogo p /\
  group (makeEntry p n line) = currentGroup p /\
  url (makeEntry p n line) = line.
Proof.
  unfold makeEntry. now destruct (seriesCheck (currentName p)) as [[? ?] ?].
Qed.

(** X19.  Every entry of a parse has an identifier and a display name
    that are not empty; its name holds no comma and has no white space at
    either end; its playback URL has no white space at either end, does not
    start with a number sign, and holds no line feed, the character the
    text is split at (a carriage return inside a line stays in the URL). *)
Theorem X19_entry_invariants (content : string) :
  Forall (fun c =>
            id c <> EmptyString /\
            name c <> EmptyString /\
            lacks "," (name c) = true /\
            trim (name c) = name c /\
            trim (url c) = url c /\
            startsWith (url c) "#" = false /\
            lacks newline (url c) = true)
         (parseM3U content).
Proof.
  unfold parseM3U, parseLines.
  refine (proj2 (run_pending_invariant
            (fun raw => lacks newline raw = true)
            (fun p => lacks "," (currentName p) = true /\
                      trim (currentName p) = currentName p)
            (Forall _) _ _ _ _ (split_parts newline content)
            initial [] _ _)).
  - now split.
  - intros raw _ _. apply readExtinf_name_ok.
  - intros p channels raw Hraw [Hcomma Htrim] HP Hu.
    apply Forall_app. split; [exact HP|]. constructor; [|constructor].
    destruct (makeEntry_fields p (List.length channels) (trim raw))
      as (-> & -> & _ & _ & ->).
    unfold isUrlLine in Hu. apply andb_prop in Hu. destruct Hu as [_ Hu].
    apply negb_true_iff in Hu.
    repeat split.
    + apply orElse_nonempty. discriminate.
    + apply orElse_nonempty. discriminate.
    + unfold orElse. now destruct (truthy (currentName p)).
    + unfold orElse. destruct (truthy (currentName p)); [exact Htrim|].
      now vm_compute.
    + apply trim_idem.
    + exact Hu.
    + now apply all_trim.
  - now split.
  - constructor.
Qed.

Lemma decimal_inj (i j : nat) : decimal i = decimal j -> i = j.
Proof.
  unfold decimal. intros H. apply Unsigned.to_uint_inj.
  apply (f_equal NilEmpty.uint_of_string) in H.
  rewrite !NilEmpty.usu in H. now injection H.
Qed.

Lemma nth_error_snoc {A : Type} (l : list A) (x : A) (k : nat) (y : A) :
  nth_error (l ++ [x])%list k = Some y ->
  nth_error l k = Some y \/ (k = List.length l /\ y = x).
Proof.
  intros H. destruct (Nat.lt_ge_cases k (List.length l)) as [Hk|Hk].
  - left. now rewrite nth_error_app1 in H.
  - right. rewrite nth_error_app2 in H by exact Hk.
    destruct (k - List.length l)%nat as [|n] eqn:E.
    + injection H as <-. split; [lia | reflexivity].
    + destruct n; discriminate.
Qed.

Lemma run_ids (Pid : string -> Prop) (lines : list string) :
  Forall (fun raw => isExtinfLine raw = true ->
                     Pid (attrOr "tvg-id" EmptyString (trim raw))) lines ->
  forall k c,
    nth_error (parseLines lines) k = Some c ->
    id c = "ch-" ++ decimal k \/ (id c <> EmptyString /\ Pid (id c)).
Proof.
  intros Hl. unfold parseLines.
  refine (proj2 (run_pending_invariant _
            (fun p => currentId p = EmptyString \/ Pid (currentId p))
            (fun channels => forall k c, nth_error channels k = Some c ->
               id c = "ch-" ++ decimal k \/ (id c <> EmptyString /\ Pid (id c)))
            _ _ _ lines Hl initial [] _ _)).
  - now left.
  - intros raw Hraw He. right. now apply Hraw.
  - intros p channels raw _ HQ HP _ k c Hk.
    apply nth_error_snoc in Hk. destruct Hk as [Hk|[-> ->]]; [now apply HP|].
    destruct (makeEntry_fields p (List.length channels) (trim raw))
      as (-> & _).
    unfold orElse. destruct (truthy (currentId p)) eqn:Ht; [|now left].
    right. apply truthy_nonempty in Ht. split; [exact Ht|].
    now destruct HQ.
  - now left.
  - intros k c Hk. now destruct k.
Qed.

End ParserInvariants.

Section ParserLines.
Import Js M3U.

Lemma step_trim (st : Pending * list Channel) (raw : string) :
  step st (trim raw) = step st raw.
Proof. unfold step. now rewrite trim_idem. Qed.

Lemma step_same_trim (st : Pending * list Channel) (raw raw' : string) :
  trim raw = trim raw' -> step st raw = step st raw'.
Proof. intros H. now rewrite <- (step_trim st raw), H, step_trim. Qed.

Lemma extinf_not_url (raw : string) :
  isExtinfLine raw = true -> isUrlLine raw = false.
Proof.
  unfold isExtinfLine, isUrlLine. intros H.
  rewrite (startsWith_hash_of_extinf _ H). apply andb_false_r.
Qed.

(** Lines that are no playback line leave the entries as they are. *)
Lemma run_no_url (gap : list string) :
  Forall (fun raw => isUrlLine raw = false) gap ->
  forall p channels, snd (run gap (p, channels)) = channels.
Proof.
  induction 1 as [|raw gap Hraw _ IH]; intros p channels; [reflexivity|].
  rewrite run_cons, step_cases, Hraw.
  destruct (isExtinfLine raw); apply IH.
Qed.

(** Lines that are neither a playback line nor a metadata line leave the
    whole state as it is. *)
Lemma run_ignored (gap : list string) :
  Forall (fun raw => isUrlLine raw = false /\ isExtinfLine raw = false) gap ->
  forall st, run gap st = st.
Proof.
  induction 1 as [|raw gap [Hu He] _ IH]; intros [p channels];
    [reflexivity|].
  rewrite run_cons, step_cases, Hu, He. apply IH.
Qed.

(** X21.  What the loop ignores.  (1) Lines that are blank after trimming
    and lines that start with a number sign without being a metadata line
    can be removed, and the remaining lines trimmed, without changing the
    entries.  (2) White space added before or after any line, such as the
    carriage return that a CRLF line ending leaves, changes nothing. *)
Theorem X21_ignored_lines_and_spaces :
  (forall content,
     parseM3U content =
       parseLines
         (map trim
            (filter (fun raw => isUrlLine raw || isExtinfLine raw)
                    (split newline content)))) /\
  (forall lines lines',
     Forall2 (fun l l' => exists w w',
                all is_space w = true /\ all is_space w' = true /\
                l' = w ++ l ++ w') lines lines' ->
     parseLines lines' = parseLines lines).
Proof.
  split.
  - intros content. unfold parseM3U, parseLines. f_equal.
    generalize (initial, @nil Channel).
    induction (split newline content) as [|raw lines IH]; intros st;
      [reflexivity|].
    rewrite run_cons. cbn [filter].
    destruct (isUrlLine raw || isExtinfLine raw) eqn:E.
    + cbn [map]. rewrite run_cons, step_trim. apply IH.
    + apply orb_false_elim in E. destruct E as [Hu He].
      destruct st as [p channels]. rewrite step_cases, Hu, He. apply IH.
  - intros lines lines' H. unfold parseLines. f_equal.
    generalize (initial, @nil Channel).
    induction H as [|l l' lines lines' (w & w' & Hw & Hw' & ->) _ IH];
      intros st; [reflexivity|].
    rewrite !run_cons, IH. f_equal. apply step_same_trim.
    now rewrite trim_spaces_app, trim_app_spaces.
Qed.

Lemma X21_witness :
  parseLines [" #EXTINF:-1,Film" ++ String (ascii_of_nat 13) EmptyString;
              "http://h/1.mp4" ++ String (ascii_of_nat 13) EmptyString]
  = parseLines ["#EXTINF:-1,Film"; "http://h/1.mp4"].
Proof.
  apply (proj2 X21_ignored_lines_and_spaces).
  repeat constructor.
  - exists " ", (String (ascii_of_nat 13) EmptyString).
    repeat split; vm_compute; reflexivity.
  - exists EmptyString, (String (ascii_of_nat 13) EmptyString).
    repeat split; vm_compute; reflexivity.
Defined.

(** X22.  Metadata lines.  (1) Of several metadata lines with no playback
    line between them only the last one counts: an earlier one can be
    removed.  (2) Lines after the last playback line, metadata included,
    add nothing.  (3) A metadata line applies to the next playback line
    across blank and comment lines: the entry is built from the fields read
    off that metadata line, at the position that follows the entries of
    the lines before. *)
Theorem X22_metadata_lines :
  (forall pre e1 gap e2 rest,
     isExtinfLine e1 = true ->
     Forall (fun raw => isUrlLine raw = false) gap ->
     isExtinfLine e2 = true ->
     parseLines (pre ++ e1 :: gap ++ e2 :: rest) =
     parseLines (pre ++ gap ++ e2 :: rest)) /\
  (forall pre gap,
     Forall (fun raw => isUrlLine raw = false) gap ->
     parseLines (pre ++ gap) = parseLines pre) /\
  (forall pre e gap u rest,
     isExtinfLine e = true ->
     Forall (fun raw => isUrlLine raw = false /\ isExtinfLine raw = false)
            gap ->
     isUrlLine u = true ->
     nth_error (parseLines (pre ++ e :: gap ++ u :: rest))
               (List.length (parseLines pre)) =
       Some (makeEntry (readExtinf (trim e)) (List.length (parseLines pre))
                       (trim u))).
Proof.
  split; [|split].
  - intros pre e1 gap e2 rest H1 Hgap H2. unfold parseLines. f_equal.
    rewrite !run_app. destruct (run pre (initial, [])) as [p channels].
    rewrite run_cons, step_cases, (extinf_not_url _ H1), H1.
    rewrite !run_app, !run_cons.
    pose proof (run_no_url gap Hgap p channels) as Ha.
    pose proof (run_no_url gap Hgap (readExtinf (trim e1)) channels) as Hb.
    destruct (run gap (p, channels)) as [pa ca].
    destruct (run gap (readExtinf (trim e1), channels)) as [pb cb].
    cbn [snd] in Ha, Hb. subst ca cb.
    now rewrite !step_cases, (extinf_not_url _ H2), H2.
  - intros pre gap Hgap. unfold parseLines. rewrite run_app.
    destruct (run pre (initial, [])) as [p channels].
    now apply run_no_url.
  - intros pre e gap u rest He Hgap Hu. unfold parseLines.
    rewrite run_app. destruct (run pre (initial, [])) as [p channels].
    cbn [snd].
    rewrite run_cons, step_cases, (extinf_not_url _ He), He.
    rewrite run_app, (run_ignored gap Hgap), run_cons, step_cases, Hu.
    set (entry := makeEntry (readExtinf (trim e)) (List.length channels)
                            (trim u)).
    destruct (run_appends rest initial (channels ++ [entry])%list
                (channels ++ [entry])%list eq_refl) as (added & _ & E & _).
    rewrite E, <- app_assoc.
    rewrite nth_error_app2, Nat.sub_diag by lia. reflexivity.
Qed.

Lemma X22_witness :
  parseLines (["#EXTM3U"] ++ "#EXTINF:-1,Old" ::
              ["# note"] ++ "#EXTINF:-1,New" :: ["http://h/1.mp4"]) =
  parseLines (["#EXTM3U"] ++ ["# note"] ++ "#EXTINF:-1,New" ::
              ["http://h/1.mp4"]).
Proof.
  apply (proj1 X22_metadata_lines).
  - vm_compute. reflexivity.
  - repeat constructor.
  - vm_compute. reflexivity.
Defined.

End ParserLines.

Section LogoFixed.
Import Js Regex M3U.

(** X23.  The logo fix never returns a URL that it would rewrite: its
    result does not both name the broken host and hold the image pattern.
    So applying it twice is the same as applying it once, and no entry of a
    parse has a logo that the fix would still change. *)
Theorem X23_logo_fix_is_final :
  (forall url, brokenHostImage (fixImageUrl url) = false) /\
  (forall url, fixImageUrl (fixImageUrl url) = fixImageUrl url) /\
  (forall content,
     Forall (fun c => brokenHostImage (logo c) = false /\
                      fixImageUrl (logo c) = logo c)
            (parseM3U content)).
Proof.
  assert (Hfinal : forall url, brokenHostImage (fixImageUrl url) = false).
  { intros url. unfold fixImageUrl at 1.
    destruct url as [|c url]; [reflexivity|]. cbn [truthy isEmpty negb].
    destruct (includes (String c url) "assistirpainel.net") eqn:Hh.
    - destruct (exec false imageRe (String c url)) as [mt|] eqn:E.
      + destruct (imageRe_sound _ _ E) as (pre & ident & small & rest & _ & _
                                           & Ha & _ & ->).
        cbn [grp nth Nat.sub]. unfold brokenHostImage.
        now rewrite (rewritten_not_broken ident Ha).
      + unfold brokenHostImage. now rewrite E, andb_false_r.
    - unfold brokenHostImage. now rewrite Hh. }
  assert (Hfix : forall url, brokenHostImage url = false ->
                             fixImageUrl url = url).
  { intros url H. unfold fixImageUrl, brokenHostImage in *.
    destruct url as [|c url]; [reflexivity|]. cbn [truthy isEmpty negb].
    destruct (includes (String c url) "assistirpainel.net"); [|reflexivity].
    destruct (exec false imageRe (String c url));
      [discriminate H | reflexivity]. }
  split; [exact Hfinal|]. split; [intros url; apply Hfix, Hfinal|].
  intros content. unfold parseM3U, parseLines.
  refine (proj2 (run_pending_invariant (fun _ => True)
            (fun p => brokenHostImage (currentLogo p) = false)
            (Forall _) _ _ _ (split newline content) _ initial [] _ _)).
  - reflexivity.
  - intros raw _ _. apply Hfinal.
  - intros p channels raw _ HQ HP _.
    apply Forall_app. split; [exact HP|]. constructor; [|constructor].
    destruct (makeEntry_fields p (List.length channels) (trim raw))
      as (_ & _ & -> & _). split; [exact HQ | now apply Hfix].
  - apply Forall_forall. trivial.
  - reflexivity.
  - constructor.
Qed.

End LogoFixed.

Section FirstCategoryExample.
Import Js App.

Lemma X16_witness :
  exists st',
    handle initialState (FetchResolved samplePlaylist) = Some st' /\
    forall c, In c (M3U.parseM3U samplePlaylist) ->
              String.leb (selectedCategory st') (M3U.group c) = true.
Proof.
  destruct (X16_first_category initialState samplePlaylist)
    as (st' & Hh & _ & _ & _ & _ & _ & _ & _ & Hne).
  exists st'. split; [exact Hh|].
  apply Hne. vm_compute. discriminate.
Defined.

End FirstCategoryExample.

Section Identifiers.
Import Js M3U.

Lemma filter_none {A : Type} (f : A -> bool) (l : list A) :
  Forall (fun x => f x = false) l -> filter f l = [].
Proof.
  induction 1 as [|x l Hx _ IH]; [reflexivity|]. cbn [filter].
  now rewrite Hx.
Qed.

(** The entry of a playback line that a metadata line precedes, with
    nothing but ignored lines between the two. *)
Lemma entry_after_metadata (pre gap rest : list string) (e u : string) :
  isExtinfLine e = true ->
  Forall (fun raw => isUrlLine raw = false /\ isExtinfLine raw = false) gap ->
  isUrlLine u = true ->
  nth_error (parseLines (pre ++ e :: gap ++ u :: rest))
            (List.length (filter isUrlLine pre))
    = Some (makeEntry (readExtinf (trim e))
              (List.length (filter isUrlLine pre)) (trim u)).
Proof.
  intros He Hgap Hu.
  replace (pre ++ e :: gap ++ u :: rest)%list
    with ((pre ++ e :: gap) ++ u :: rest)%list
    by (rewrite <- app_assoc; reflexivity).
  destruct (parseLines_at_url (pre ++ e :: gap) rest u Hu)
    as (before & added & E & Hlen & _).
  assert (Hp : fst (run (pre ++ e :: gap) (initial, [])) = readExtinf (trim e)).
  { rewrite run_app. destruct (run pre (initial, [])) as [p channels].
    rewrite run_cons, step_cases, (extinf_not_url _ He), He.
    now rewrite (run_ignored gap Hgap). }
  assert (Hk : List.length before = List.length (filter isUrlLine pre)).
  { rewrite Hlen, filter_app. cbn [filter].
    rewrite (extinf_not_url _ He), (filter_none isUrlLine gap).
    - now rewrite app_nil_r.
    - eapply Forall_impl; [|exact Hgap]. now intros raw [H _]. }
  rewrite E, Hp, <- Hk.
  rewrite nth_error_app2, Nat.sub_diag by lia. reflexivity.
Qed.

(** X20.  (1) The identifier of an entry to which a metadata line applies
    (the metadata line stands before the playback line, with nothing but
    blank and comment lines between the two) is the tvg-id of that metadata
    line when it is not empty, and otherwise ch-k, k being the position of
    the entry.  (2) Every identifier is ch-k for the position k, or the
    tvg-id, not empty, of a metadata line of the text.  (3) So in a
    playlist whose metadata lines carry no tvg-id, or empty ones only, the
    identifiers are ch-0, ch-1, ... and no two entries share one. *)
Theorem X20_identifiers (content : string) :
  (forall pre e gap u rest,
     split newline content = (pre ++ e :: gap ++ u :: rest)%list ->
     isExtinfLine e = true ->
     Forall (fun raw => isUrlLine raw = false /\ isExtinfLine raw = false)
            gap ->
     isUrlLine u = true ->
     exists c,
       nth_error (parseM3U content) (List.length (filter isUrlLine pre))
         = Some c /\
       url c = trim u /\
       id c = orElse (attrOr "tvg-id" EmptyString (trim e))
                     ("ch-" ++ decimal (List.length (filter isUrlLine pre)))) /\
  (forall k c,
     nth_error (parseM3U content) k = Some c ->
     id c = "ch-" ++ decimal k \/
     (id c <> EmptyString /\
      exists raw, In raw (split newline content) /\
                  isExtinfLine raw = true /\
                  id c = attrOr "tvg-id" EmptyString (trim raw))) /\
  ((forall raw, In raw (split newline content) ->
                isExtinfLine raw = true ->
                attrOr "tvg-id" EmptyString (trim raw) = EmptyString) ->
   (forall k c, nth_error (parseM3U content) k = Some c ->
                id c = "ch-" ++ decimal k) /\
   NoDup (map id (parseM3U content))).
Proof.
  unfold parseM3U. split; [|split].
  - intros pre e gap u rest Hlines He Hgap Hu. rewrite Hlines.
    eexists. split; [now apply entry_after_metadata|].
    destruct (makeEntry_fields (readExtinf (trim e))
                (List.length (filter isUrlLine pre)) (trim u))
      as (-> & _ & _ & _ & ->).
    split; reflexivity.
  - apply (run_ids (fun i => exists raw,
             In raw (split newline content) /\ isExtinfLine raw = true /\
             i = attrOr "tvg-id" EmptyString (trim raw))).
    apply Forall_forall. intros raw Hin He. eauto.
  - intros Hnone.
    assert (Hids : forall k c,
              nth_error (parseLines (split newline content)) k = Some c ->
              id c = "ch-" ++ decimal k).
    { intros k c Hk.
      destruct (run_ids (fun i => i = EmptyString) (split newline content))
        with (k := k) (c := c) as [H|[H1 H2]]; trivial; [|contradiction].
      apply Forall_forall. intros raw Hin He. now apply Hnone. }
    split; [exact Hids|].
    apply NoDup_nth_error. intros i j Hi Hij.
    rewrite length_map in Hi.
    destruct (nth_error (parseLines (split newline content)) i) as [ci|] eqn:Ei.
    2:{ apply nth_error_None in Ei. lia. }
    rewrite !nth_error_map, Ei in Hij. cbn [option_map] in Hij.
    destruct (nth_error (parseLines (split newline content)) j) as [cj|] eqn:Ej;
      [|discriminate].
    cbn [option_map] in Hij. injection Hij as Hij.
    rewrite (Hids _ _ Ei), (Hids _ _ Ej) in Hij.
    cbn [append] in Hij. injection Hij as Hij. now apply decimal_inj.
Qed.

Lemma X20_witness :
  (exists c,
     nth_error (parseM3U ("http://h/0.ts" ++ lf ++
                          "#EXTINF:-1 tvg-id=" ++ dquote ++ "bbc" ++ dquote
                            ++ ",BBC" ++ lf ++
                          "# note" ++ lf ++ "http://h/1.ts")) 1 = Some c /\
     url c = "http://h/1.ts" /\ id c = "bbc") /\
  ((forall k c, nth_error (parseM3U App.samplePlaylist) k = Some c ->
                id c = "ch-" ++ decimal k) /\
   NoDup (map id (parseM3U App.samplePlaylist))).
Proof.
  split.
  - apply (proj1 (X20_identifiers
                    ("http://h/0.ts" ++ lf ++
                     "#EXTINF:-1 tvg-id=" ++ dquote ++ "bbc" ++ dquote
                       ++ ",BBC" ++ lf ++
                     "# note" ++ lf ++ "http://h/1.ts"))
             ["http://h/0.ts"]
             ("#EXTINF:-1 tvg-id=" ++ dquote ++ "bbc" ++ dquote ++ ",BBC")
             ["# note"] "http://h/1.ts" []).
    + vm_compute. reflexivity.
    + vm_compute. reflexivity.
    + repeat constructor.
    + vm_compute. reflexivity.
  - apply (proj2 (proj2 (X20_identifiers App.samplePlaylist))).
    intros raw Hin _. vm_compute in Hin.
    repeat (destruct Hin as [<-|Hin]; [vm_compute; reflexivity|]).
    destruct Hin.
Defined.

End Identifiers.
